(** * Disassembly of an in-memory function: line-info printer, symbol table
      and the two-pass disassembly loop

    A shallow embedding of [DILineInfoPrinter], [SymbolTable] and the
    disassembly loop of [jl_dump_asm_internal], with the properties of the
    design document proved (or refuted) on the embedding.

    Conventions.  Unsigned machine integers are [Z] with the wrap-around
    written out ([wrap32], [wrap64]).  [std::vector] is [list], [std::map]
    is [gmap], a [const char*] that may be [NULL] is [option string].  The
    text written to a [raw_ostream] is kept as a list of tokens, one per
    [<<] group of the source, and [render] turns it into the bytes. *)

From Stdlib Require Import Ascii String.
From stdpp Require Import gmap strings list fin_maps pretty.

Open Scope Z_scope.

(** ** Machine integers *)

Definition wrap32 (x : Z) : Z := x mod 2 ^ 32.
Definition wrap64 (x : Z) : Z := x mod 2 ^ 64.
Definition UINT_MAX : Z := 2 ^ 32 - 1.

(** ** Strings *)

(** [StringRef::rtrim(char)]: drop every trailing occurrence of [c]. *)
Fixpoint rtrim (c : ascii) (s : string) : string :=
  match s with
  | EmptyString => EmptyString
  | String a s' =>
      match rtrim c s' with
      | EmptyString => if decide (a = c) then EmptyString else String a EmptyString
      | r => String a r
      end
  end.

(** [operator<<(raw_ostream&, repeat)]: [while (i.times-- > 0) Out << i.c]. *)
Fixpoint repeat_str (times : nat) (c : string) : string :=
  match times with
  | O => ""
  | S n => c +:+ repeat_str n c
  end.

Module LineInfo.

(** Modelled from the spec: LLVM's [DILineInfo] is declared outside the
    repository; the spec's SourceFrame is the value type
    {functionName, fileName, line} with equality on all three fields, which
    are the fields the printer reads. *)
Record DILineInfo : Type := mkDI {
  FileName : string;
  FunctionName : string;
  Line : Z
}.

#[global] Instance DILineInfo_eq_dec : EqDecision DILineInfo.
Proof. solve_decision. Defined.

(** [StringRef(d.FunctionName).rtrim(';')] *)
Definition method_of (d : DILineInfo) : string :=
  rtrim ";"%char (FunctionName d).

Inductive Verbosity : Type := output_none | output_source.

#[global] Instance Verbosity_eq_dec : EqDecision Verbosity.
Proof. solve_decision. Defined.

(** The members of [class DILineInfoPrinter]. *)
Record DILineInfoPrinter : Type := mkPrinter {
  context : list DILineInfo;
  inline_depth : Z;
  LineStart : string;
  bracket_outer : bool;
  collapse_recursive : bool;
  verbosity : Verbosity
}.

(** The constructor, with the default member initialisers. *)
Definition new_printer (ls : string) (bo : bool) : DILineInfoPrinter :=
  {| context := []; inline_depth := 0; LineStart := ls; bracket_outer := bo;
     collapse_recursive := true; verbosity := output_source |}.

Definition set_verbosity (v : Verbosity) (p : DILineInfoPrinter) :=
  {| context := context p; inline_depth := inline_depth p;
     LineStart := LineStart p; bracket_outer := bracket_outer p;
     collapse_recursive := collapse_recursive p; verbosity := v |}.

Definition set_state (ctx : list DILineInfo) (d : Z) (p : DILineInfoPrinter) :=
  {| context := ctx; inline_depth := d;
     LineStart := LineStart p; bracket_outer := bracket_outer p;
     collapse_recursive := collapse_recursive p; verbosity := verbosity p |}.

Definition SetVerbosity (c : string) (p : DILineInfoPrinter) : DILineInfoPrinter :=
  if decide ("default" = c) then set_verbosity output_source p
  else if decide ("source" = c) then set_verbosity output_source p
  else if decide ("none" = c) then set_verbosity output_none p
  else p.

(** [inlining_indent(c).times]:
    [std::max(inline_depth + bracket_outer, (uint32_t)1) - 1]. *)
Definition inlining_indent (p : DILineInfoPrinter) : Z :=
  Z.max (wrap32 (inline_depth p + (if bracket_outer p then 1 else 0))) 1 - 1.

(** What is written to the stream, one token per group of [<<]. *)
Inductive Tok : Type :=
| TLineStart                 (* Out << LineStart *)
| TIndent (times : Z)        (* Out << inlining_indent("│") *)
| TPops (times : Z)          (* Out << repeat{times, "└"} *)
| TOpen                      (* Out << "┌" *)
| TAt (file : string)        (* Out << " @ " << FileName *)
| TLine (line : Z)           (* Out << ":" << Line *)
| TWithin (method : string)  (* Out << " within `" << method << "`" *)
| TNewline.                  (* Out << "\n" *)

#[global] Instance Tok_eq_dec : EqDecision Tok.
Proof. solve_decision. Defined.

Definition render_tok (ls : string) (t : Tok) : string :=
  match t with
  | TLineStart => ls
  | TIndent n => repeat_str (Z.to_nat n) "│"
  | TPops n => repeat_str (Z.to_nat n) "└"
  | TOpen => "┌"
  | TAt f => " @ " +:+ f
  | TLine l => ":" +:+ pretty l
  | TWithin m => " within `" +:+ m +:+ "`"
  | TNewline => String "010"%char ""
  end.

Definition render (ls : string) (ts : list Tok) : string :=
  foldr (fun t acc => render_tok ls t +:+ acc) "" ts.

(** [emit_finish] *)
Definition emit_finish (p : DILineInfoPrinter) : DILineInfoPrinter * list Tok :=
  let pops := inlining_indent p in
  (set_state [] 0 p,
   if decide (0 < pops) then [TLineStart; TPops pops; TNewline] else []).

(** *** The pieces of [emit_lineinfo] *)

(** The frames of [DI] as the loops read them: [uint32_t nframes = DI.size()]
    and [DI.at(nframes - 1 - i)] for [i < nframes], that is outermost frame
    first. *)
Definition nframes_of (DI : list DILineInfo) : nat :=
  Z.to_nat (wrap32 (Z.of_nat (length DI))).

Definition frames_of (DI : list DILineInfo) : list DILineInfo :=
  reverse (take (nframes_of DI) DI).

(** The size of the matching prefix: the first [for] loop. *)
Fixpoint matching_prefix (ctx frames : list DILineInfo) : nat :=
  match ctx, frames with
  | CtxLine :: ctx', FrameLine :: frames' =>
      if decide (CtxLine = FrameLine) then S (matching_prefix ctx' frames') else O
  | _, _ => O
  end.

(** [i < v.size() && StringRef(v.at(i).FunctionName).rtrim(';') == m] *)
Definition method_at_is (v : list DILineInfo) (i : nat) (m : string) : bool :=
  bool_decide (method_of <$> v !! i = Some m).

(** [while (nctx > 0 && method(context.at(nctx - 1)) == method) nctx -= 1] *)
Fixpoint exclude_combined (ctx : list DILineInfo) (method : string) (nctx : nat) : nat :=
  match nctx with
  | O => O
  | S n => if method_at_is ctx n method then exclude_combined ctx method n else S n
  end.

(** The line-only test on the first frame that does not match, for
    [nctx < context.size() && nctx < nframes]. *)
Definition same_method_at (p : DILineInfoPrinter) (frames : list DILineInfo) (nctx : nat) : bool :=
  match context p !! nctx, frames !! nctx with
  | Some CtxLine, Some FrameLine =>
      if collapse_recursive p then bool_decide (method_of CtxLine = method_of FrameLine)
      else bool_decide (FileName CtxLine = FileName FrameLine) &&
           bool_decide (method_of CtxLine = method_of FrameLine)
  | _, _ => false
  end.

(** Lines 225-257: the final [nctx] and [update_line_only]. *)
Definition line_only_check (p : DILineInfoPrinter) (frames : list DILineInfo) (nctx : nat)
  : nat * bool :=
  if collapse_recursive p then
    match nctx with
    | S n =>
        match method_of <$> context p !! n with
        | Some method =>
            if method_at_is frames nctx method || method_at_is (context p) nctx method
            then (exclude_combined (context p) method nctx, true)
            else (nctx, same_method_at p frames nctx)
        | None => (nctx, same_method_at p frames nctx)
        end
    | O => (nctx, same_method_at p frames nctx)
    end
  else (nctx, same_method_at p frames nctx).

(** The loop that counts the frames returned from, with [Prev] the method of
    the frame before [rest]. *)
Fixpoint npops_loop (Prev : string) (rest : list DILineInfo) (npops : Z) : Z :=
  match rest with
  | [] => npops
  | d :: rest' =>
      let Next := method_of d in
      npops_loop Next rest' (if decide (Prev = Next) then npops else wrap32 (npops + 1))
  end.

Definition count_npops (p : DILineInfoPrinter) (nctx : nat) : Z :=
  if collapse_recursive p then
    match drop nctx (context p) with
    | d :: rest => npops_loop (method_of d) rest 1
    | [] => 0
    end
  else wrap32 (Z.of_nat (length (context p)) - Z.of_nat nctx).

(** Lines 258-281: close the frames from [nctx] on. *)
Definition close_frames (p : DILineInfoPrinter) (nctx : nat) (update_line_only : bool)
  : DILineInfoPrinter * list Tok :=
  if decide (nctx < length (context p))%nat then
    let npops := count_npops p nctx in
    let p1 := set_state (take nctx (context p)) (inline_depth p) p in
    let npops := if update_line_only then wrap32 (npops - 1) else npops in
    if decide (0 < npops) then
      let p2 := set_state (context p1) (wrap32 (inline_depth p1 - npops)) p1 in
      (p2, [TLineStart; TIndent (inlining_indent p2); TPops npops; TNewline])
    else (p1, [])
  else (p, []).

(** [if (frame.Line != UINT_MAX && frame.Line != 0) Out << ":" << frame.Line] *)
Definition line_suffix (frame : DILineInfo) : list Tok :=
  if decide (Line frame ≠ UINT_MAX ∧ Line frame ≠ 0) then [TLine (Line frame)] else [].

(** Lines 284-300: the head of a round of the outer [while], up to the
    method name. *)
Definition open_frame (p : DILineInfoPrinter) (frame : DILineInfo)
    (update_line_only : bool) (nctx : nat) : DILineInfoPrinter * list Tok :=
  let head := [TLineStart; TIndent (inlining_indent p)] in
  let nctx := S nctx in
  let ctx := context p ++ [frame] in
  let '(p', glyph) :=
    if update_line_only then (set_state ctx (inline_depth p) p, [])
    else (set_state ctx (wrap32 (inline_depth p + 1)) p,
          if bracket_outer p || negb (Nat.eqb nctx 1) then [TOpen] else []) in
  (p', head ++ glyph ++ [TAt (FileName frame)] ++ line_suffix frame ++
       [TWithin (method_of frame)]).

(** Lines 283-313: print the new frames.  [rest] are the frames from [nctx]
    on.  [cur = None] is the head of the outer [while]; [cur = Some method]
    is the inner [while] of the collapsing branch, which appends frames of
    the same method to the line and leaves it at the first other method. *)
Fixpoint print_frames (rest : list DILineInfo) (cur : option string)
    (p : DILineInfoPrinter) (update_line_only : bool) (nctx : nat)
  : DILineInfoPrinter * list Tok * nat :=
  match rest with
  | [] => (p, match cur with Some _ => [TNewline] | None => [] end, nctx)
  | frame :: rest' =>
      let continue_line :=
        match cur with
        | Some method => bool_decide (method_of frame = method)
        | None => false
        end in
      if continue_line then
        let p' := set_state (context p ++ [frame]) (inline_depth p) p in
        let '(q, out, n) := print_frames rest' cur p' update_line_only (S nctx) in
        (q, [TAt (FileName frame); TLine (Line frame)] ++ out, n)
      else
        let '(p', line) := open_frame p frame update_line_only nctx in
        let '(q, out, n) :=
          print_frames rest' (if collapse_recursive p then Some (method_of frame) else None)
                       p' false (S nctx) in
        (q, (match cur with Some _ => [TNewline] | None => [] end) ++ line ++
            (if collapse_recursive p then [] else [TNewline]) ++ out, n)
  end.

(** The loop of the closing assertion: [depth2]. *)
Fixpoint depth2_loop (collapse : bool) (Prev : string) (rest : list DILineInfo) (depth2 : Z) : Z :=
  match rest with
  | [] => depth2
  | d :: rest' =>
      let Next := method_of d in
      depth2_loop collapse Next rest'
        (if negb collapse || negb (bool_decide (Prev = Next)) then wrap32 (depth2 + 1) else depth2)
  end.

(** [emit_lineinfo(raw_ostream&, std::vector<DILineInfo>&)], with the final
    [nctx] the assertion reads. *)
Definition emit_lineinfo_body (p : DILineInfoPrinter) (DI : list DILineInfo)
  : DILineInfoPrinter * list Tok * nat :=
  let frames := frames_of DI in
  let nctx := matching_prefix (context p) frames in
  let '(nctx, update_line_only) := line_only_check p frames nctx in
  let '(p1, closing) := close_frames p nctx update_line_only in
  let '(p2, opening, nctx) := print_frames (drop nctx frames) None p1 update_line_only nctx in
  (p2, closing ++ opening, nctx).

Definition emit_lineinfo (p : DILineInfoPrinter) (DI : list DILineInfo)
  : DILineInfoPrinter * list Tok :=
  if decide (verbosity p = output_none) then (p, [])
  else if decide (nframes_of DI = O) then (p, [])
  else let '(p', out, _) := emit_lineinfo_body p DI in (p', out).

(** The build with assertions ([JL_NDEBUG] not defined): [None] when
    [assert(this->inline_depth == depth2)] fails or [context.at(0)] is out of
    range. *)
Definition emit_lineinfo_checked (p : DILineInfoPrinter) (DI : list DILineInfo)
  : option (DILineInfoPrinter * list Tok) :=
  if decide (verbosity p = output_none) then Some (p, [])
  else if decide (nframes_of DI = O) then Some (p, [])
  else
    let '(p', out, nctx) := emit_lineinfo_body p DI in
    match context p' with
    | d :: _ =>
        let depth2 :=
          depth2_loop (collapse_recursive p') (method_of d)
                      (drop 1 (take nctx (context p'))) 1 in
        if decide (inline_depth p' = depth2) then Some (p', out) else None
    | [] => None
    end.

(** The context once [emit_lineinfo] has closed the frames it returns from
    ([context.resize(nctx)]), before it prints the new ones. *)
Definition context_after_closing (p : DILineInfoPrinter) (DI : list DILineInfo)
  : list DILineInfo :=
  let frames := frames_of DI in
  let '(nctx, update_line_only) :=
    line_only_check p frames (matching_prefix (context p) frames) in
  context (close_frames p nctx update_line_only).1.

(** The calls a client makes on a printer, and a run of them: the state
    after the last call and the text of all calls. *)
Inductive PrinterCall : Type :=
| CallLineinfo (DI : list DILineInfo)
| CallFinish.

Definition call_printer (p : DILineInfoPrinter) (c : PrinterCall)
  : DILineInfoPrinter * list Tok :=
  match c with
  | CallLineinfo DI => emit_lineinfo p DI
  | CallFinish => emit_finish p
  end.

Fixpoint run_calls (p : DILineInfoPrinter) (calls : list PrinterCall)
  : DILineInfoPrinter * list Tok :=
  match calls with
  | [] => (p, [])
  | c :: calls' =>
      let '(p1, out1) := call_printer p c in
      let '(p2, out2) := run_calls p1 calls' in
      (p2, out1 ++ out2)
  end.

(** The number of runs of frames with the same method name. *)
Fixpoint runs_after (Prev : string) (l : list DILineInfo) : Z :=
  match l with
  | [] => 0
  | d :: l' => (if decide (Prev = method_of d) then 0 else 1) + runs_after (method_of d) l'
  end.

Definition runs (l : list DILineInfo) : Z :=
  match l with
  | [] => 0
  | d :: l' => 1 + runs_after (method_of d) l'
  end.

End LineInfo.

(** ** The symbol table *)

Module Symbols.

(** What [getSymbolNameAt] reads of a symbol of the object file:
    [getSection()] ([None] is [section_end()], [Some a] a section whose
    [getAddress()] is [a]), [getAddress()] and [getName()] ([None] when the
    [Expected] holds an error). *)
Record SymbolRef : Type := mkSym {
  sym_section : option Z;
  sym_address : Z;
  sym_name : option string
}.

(** The members of [class SymbolTable] that change; [ip] is the virtual
    instruction pointer of the current instruction. *)
Record SymbolTable : Type := mkTable {
  Table : gmap Z string;
  ip : Z
}.

Section SymbolTable.

(** [object] is [NULL] or the symbols of the object file, in the order of
    [object->symbols()]. *)
Variable object : option (list SymbolRef).
(** [lookupLocalPC]: the [func_name] that [jl_getFunctionInfo] reports for an
    address, [NULL] when it knows none. *)
Variable lookupLocalPC : Z -> option string.
(** [MemObj.data()], [MemObj.size()] and [slide]. *)
Variables (Fptr Fsize slide : Z).

Definition setIP (addr : Z) (st : SymbolTable) : SymbolTable :=
  {| Table := Table st; ip := addr |}.

Definition getIP (st : SymbolTable) : Z := ip st.

Fixpoint find_symbol (syms : list SymbolRef) (offset : Z) : string :=
  match syms with
  | [] => ""
  | Sym :: syms' =>
      match sym_section Sym with
      | None => find_symbol syms' offset
      | Some sect_address =>
          if decide (sect_address = 0) then find_symbol syms' offset
          else if decide (sym_address Sym = offset) then
            match sym_name Sym with
            | Some sName => sName
            | None => find_symbol syms' offset
            end
          else find_symbol syms' offset
      end
  end.

Definition getSymbolNameAt (offset : Z) : string :=
  match object with
  | None => ""
  | Some syms => find_symbol syms offset
  end.

(** [Table[addr] = ""] *)
Definition insertAddress (addr : Z) (st : SymbolTable) : SymbolTable :=
  {| Table := <[addr := ""]> (Table st); ip := ip st |}.

(** The body of the loop of [createSymbols] for the entry [addr |-> old]. *)
Definition symbol_for (ip addr : Z) (old : string) : string :=
  let rel := wrap64 (addr - ip) in
  if decide (Fptr <= addr /\ addr < wrap64 (Fptr + Fsize)) then "L" +:+ pretty rel
  else
    match lookupLocalPC addr with
    | Some global => if decide (global = "") then old else global
    | None => old
    end.

Definition createSymbols (st : SymbolTable) : SymbolTable :=
  {| Table := map_imap (fun addr old => Some (symbol_for (ip st) addr old)) (Table st);
     ip := ip st |}.

(** [Sym->second.empty() ? NULL : Sym->second.c_str()] *)
Definition c_str_or_null (name : string) : option string :=
  if decide (name = "") then None else Some name.

(** The name [lookupSymbolName] gives an address it sees for the first time. *)
Definition first_seen_name (addr : Z) : string :=
  let local_name := getSymbolNameAt (wrap64 (addr + slide)) in
  if decide (local_name = "") then
    match lookupLocalPC addr with
    | Some global => global
    | None => ""
    end
  else local_name.

Definition lookupSymbolName (addr : Z) (st : SymbolTable) : SymbolTable * option string :=
  match Table st !! addr with
  | Some name => (st, c_str_or_null name)
  | None =>
      let name := first_seen_name addr in
      ({| Table := <[addr := name]> (Table st); ip := ip st |}, c_str_or_null name)
  end.

(** [lookupSymbol], in the build with assertions.  [Ctx] is the [MCContext]
    the table refers to, known by the names of its symbols that are defined
    ([getOrCreateSymbol] finds a symbol by its name).  The result is
    [Some None] for [NULL] (an address that is not in the table, or one
    without a name), [Some (Some name)] for the symbol of that name, and
    [None] when [assert(symb->isUndefined())] fails. *)
Definition lookupSymbol (Ctx : gset string) (addr : Z) (st : SymbolTable)
  : option (option string) :=
  match Table st !! addr with
  | Some name =>
      match c_str_or_null name with
      | Some name => if decide (name ∈ Ctx) then None else Some (Some name)
      | None => Some None
      end
  | None => Some None
  end.

(** The table after pass 0 has recorded [addrs] (last recorded first). *)
Definition record_all (addrs : list Z) (st : SymbolTable) : SymbolTable :=
  foldr insertAddress st addrs.

(** The table after the lookups of pass 1, in the order they are made. *)
Definition lookup_all (addrs : list Z) (st : SymbolTable) : SymbolTable :=
  foldl (fun st addr => (lookupSymbolName addr st).1) st addrs.

(** The rule of [finalize] in the words of the design document, for an
    address that has no name yet: the offset label inside the region, else
    the symbolicator's answer when it is not empty, else unresolved. *)
Definition finalize_rule (ip addr : Z) : option string :=
  if decide (Fptr <= addr < Fptr + Fsize) then Some ("L" +:+ pretty (addr - ip))
  else
    match lookupLocalPC addr with
    | Some global => if decide (global = "") then None else Some global
    | None => None
    end.

End SymbolTable.

End Symbols.

(** ** The two-pass disassembly loop of [jl_dump_asm_internal] *)

Module Disasm.

Import LineInfo Symbols.

Inductive DecodeStatus : Type := Fail | SoftFail | Success.

Inductive MCOperand : Type :=
| Imm (imm : Z)        (* isImm(), getImm() *)
| NotImm.

Record MCInst : Type := mkInst {
  Opcode : Z;
  Operands : list MCOperand
}.

(** What the loop reads of [MCInstrDesc]; [OpInfo] holds the
    [OperandType] of each operand. *)
Record MCInstrDesc : Type := mkDesc {
  isBranch : bool;
  isCall : bool;
  NumOperands : nat;
  OpInfo : list Z
}.

Inductive HexPrintStyle : Type := Lower | PrefixLower.

(** The debug-info context: [getInliningInfoForAddress], innermost frame first. *)
Record DIContext : Type := mkDIContext {
  getInliningInfoForAddress : Z -> list DILineInfo
}.

(** The line-info cursor of one pass. *)
Record LineState : Type := mkLines {
  dbgctx : DILineInfoPrinter;
  nextLineAddr : Z;
  di_lineIter : nat
}.

Definition tab : string := String "009"%char "".

(** What [getInstruction] leaves behind: the status, [insSize] (passed by
    reference), the instruction, and, once the symbolizer is installed and
    the comment stream is the streamer's (pass 1), the table after the
    callbacks and the streamer after the comments. *)
Record Decoded (Streamer : Type) : Type := mkDecoded {
  d_status : DecodeStatus;
  d_size : Z;
  d_inst : MCInst;
  d_info : SymbolTable;
  d_out : Streamer
}.

(** The state of the loop of one pass.  [Ctx] holds the names of the symbols
    of the [MCContext] that are defined, and [Aborted] says that the
    assertion of [lookupSymbol] has failed (the build with assertions): the
    process has stopped, and [Out] is what was written until then. *)
Record LoopState (Streamer : Type) : Type := mkLoop {
  Index : Z;
  insSize : Z;
  DisInfo : SymbolTable;
  Lines : LineState;
  Out : Streamer;
  Ctx : gset string;
  Aborted : bool
}.

Arguments mkDecoded {Streamer}.
Arguments d_status {Streamer}.
Arguments d_size {Streamer}.
Arguments d_inst {Streamer}.
Arguments d_info {Streamer}.
Arguments d_out {Streamer}.
Arguments mkLoop {Streamer}.
Arguments Index {Streamer}.
Arguments insSize {Streamer}.
Arguments DisInfo {Streamer}.
Arguments Lines {Streamer}.
Arguments Out {Streamer}.
Arguments Ctx {Streamer}.
Arguments Aborted {Streamer}.

(** The collaborators and inputs of [jl_dump_asm_internal]. *)
Record Env (Streamer : Type) : Type := mkEnv {
  (** The streamer: an object of LLVM, known by its operations;
      [CommentOS_tell] is [GetCommentOS().tell()] and [CommentOS_newline] is
      [GetCommentOS() << '\n']. *)
  emitRawText : string -> Streamer -> Streamer;
  emitLabel : string -> Streamer -> Streamer;
  AddComment : string -> Streamer -> Streamer;
  emitInstruction : MCInst -> Streamer -> Streamer;
  CommentOS_tell : Streamer -> Z;
  CommentOS_newline : Streamer -> Streamer;
  (** The symbols of the object file ([NULL] or [object->symbols()]), the
      runtime symbol lookup, and the memory range with its slide. *)
  object : option (list SymbolRef);
  lookupLocalPC : Z -> option string;
  Fptr : Z;
  Fsize : Z;
  slide : Z;
  (** The debug-info context, [di_lineinfo] after the filter of the entries
      without instructions, and what a read of the entry at [end()] finds. *)
  di_ctx : option DIContext;
  di_lineinfo : list (Z * DILineInfo);
  di_past_end : Z * DILineInfo;
  debuginfo : string;
  binary : bool;
  (** [DisAsm->getInstruction] at [pass], [Index], with the [insSize] it is
      handed, the table and the streamer. *)
  getInstruction : nat -> Z -> Z -> SymbolTable -> Streamer -> Decoded Streamer;
  MCII_get : Z -> MCInstrDesc;
  (** [MCIA], which may be null, with its [evaluateBranch(Inst, Addr, Size)]. *)
  MCIA : option (MCInst -> Z -> Z -> option Z);
  OPERAND_PCREL : Z;
  (** [_CPU_PPC_], [_CPU_PPC64_], [_CPU_ARM_] or [_CPU_AARCH64_] is defined. *)
  fixed_width_cpu : bool;
  (** The triple: [Arch] is neither x86 nor x86_64, and [isLittleEndian()]. *)
  FixedLength : bool;
  isLittleEndian : bool;
  (** The memory read through [uint8_t*] and [uint32_t*], and LLVM's
      [write_hex(Stream, N, Style, Width)]. *)
  Memory8 : Z -> Z;
  Memory32 : Z -> Z;
  write_hex : Z -> HexPrintStyle -> Z -> string
}.

Arguments mkEnv {Streamer}.
Arguments emitRawText {Streamer}.
Arguments emitLabel {Streamer}.
Arguments AddComment {Streamer}.
Arguments emitInstruction {Streamer}.
Arguments CommentOS_tell {Streamer}.
Arguments CommentOS_newline {Streamer}.
Arguments object {Streamer}.
Arguments lookupLocalPC {Streamer}.
Arguments Fptr {Streamer}.
Arguments Fsize {Streamer}.
Arguments slide {Streamer}.
Arguments di_ctx {Streamer}.
Arguments di_lineinfo {Streamer}.
Arguments di_past_end {Streamer}.
Arguments debuginfo {Streamer}.
Arguments binary {Streamer}.
Arguments getInstruction {Streamer}.
Arguments MCII_get {Streamer}.
Arguments MCIA {Streamer}.
Arguments OPERAND_PCREL {Streamer}.
Arguments fixed_width_cpu {Streamer}.
Arguments FixedLength {Streamer}.
Arguments isLittleEndian {Streamer}.
Arguments Memory8 {Streamer}.
Arguments Memory32 {Streamer}.
Arguments write_hex {Streamer}.

Section Loop.

Context {Streamer : Type} (E : Env Streamer).

Definition line_at (i : nat) : Z * DILineInfo :=
  default (di_past_end E) (di_lineinfo E !! i).

(** [if (!buf.empty()) Streamer->emitRawText(buf)] *)
Definition emit_buf (buf : string) (OS : Streamer) : Streamer :=
  if decide (buf = "") then OS else emitRawText E buf OS.

Definition emit_lineinfo_buf (p : DILineInfoPrinter) (DI : list DILineInfo)
  : DILineInfoPrinter * string :=
  let '(p', out) := emit_lineinfo p DI in (p', render (LineStart p') out).

(** Lines 973-990: the set-up of a pass before its loop.  No symbol of the
    context is defined then: the context is made by [jl_dump_asm_internal],
    and pass 0 declares no label. *)
Definition pass_init (pass : nat) (info : SymbolTable) (OS : Streamer) : LoopState Streamer :=
  let dbgctx0 := SetVerbosity (debuginfo E) (new_printer "; " true) in
  let none := mkLines dbgctx0 (wrap64 (-1)) O in
  let '(lines, OS') :=
    if decide (pass <> O) then
      match di_ctx E, di_lineinfo E with
      | Some _, first :: _ =>
          if decide (first.1 <> wrap64 (Fptr E + slide E)) then
            let '(p', buf) := emit_lineinfo_buf dbgctx0 [first.2] in
            (mkLines p' first.1 O, emit_buf buf OS)
          else (mkLines dbgctx0 first.1 O, OS)
      | _, _ => (none, OS)
      end
    else (none, OS) in
  mkLoop 0 0 info lines OS' ∅ false.

(** Lines 998-1016: the annotation in front of an instruction. *)
Definition annotate (pass : nat) (st : LoopState Streamer) : LoopState Streamer :=
  let here := wrap64 (Index st + Fptr E + slide E) in
  let l := Lines st in
  if decide (pass <> O /\ nextLineAddr l <> wrap64 (-1) /\ here = nextLineAddr l) then
    match di_ctx E with
    | Some ctx =>
        let dbg := getInliningInfoForAddress ctx here in
        let '(p', buf) :=
          if decide (nframes_of dbg <> O) then emit_lineinfo_buf (dbgctx l) dbg
          else emit_lineinfo_buf (dbgctx l) [(line_at (di_lineIter l)).2] in
        mkLoop (Index st) (insSize st) (DisInfo st)
               (mkLines p' (line_at (S (di_lineIter l))).1 (S (di_lineIter l)))
               (emit_buf buf (Out st)) (Ctx st) (Aborted st)
    | None => st
    end
  else st.

(** Lines 1018-1026: set the instruction pointer and declare the label.
    [emitLabel] defines the symbol in the context.  When the assertion of
    [lookupSymbol] fails, the process stops there. *)
Definition declare_label (pass : nat) (st : LoopState Streamer) : LoopState Streamer :=
  let here := wrap64 (Fptr E + Index st) in
  let info := setIP here (DisInfo st) in
  if decide (pass <> O) then
    match lookupSymbol (Ctx st) here info with
    | Some (Some symbol) =>
        mkLoop (Index st) (insSize st) info (Lines st) (emitLabel E symbol (Out st))
               ({[symbol]} ∪ Ctx st) (Aborted st)
    | Some None =>
        mkLoop (Index st) (insSize st) info (Lines st) (Out st) (Ctx st) (Aborted st)
    | None =>
        mkLoop (Index st) (insSize st) info (Lines st) (Out st) (Ctx st) true
    end
  else mkLoop (Index st) (insSize st) info (Lines st) (Out st) (Ctx st) (Aborted st).

(** The instruction is skipped by [insSize = 4] on the fixed-width
    processors and by one byte elsewhere. *)
Definition min_step : Z := if fixed_width_cpu E then 4 else 1.

(** The text of the [Fail] case. *)
Definition raw_directive (Index insSize : Z) : string :=
  if decide (insSize = 4) then
    tab +:+ ".long" +:+ tab +:+ write_hex E (Memory32 E (wrap64 (Fptr E + Index))) PrefixLower 8
  else
    foldr (fun i acc =>
             tab +:+ ".byte" +:+ tab +:+
             write_hex E (Memory8 E (wrap64 (Fptr E + Index + i))) PrefixLower 2 +:+ acc)
          "" (seqZ 0 insSize).

(** [rawCodeComment(memoryObject.slice(Index, insSize), TheTriple)] *)
Definition rawCodeComment (Index insSize : Z) : string :=
  let Address := wrap64 (Fptr E + Index) in
  let bytes := (fun i => Memory8 E (wrap64 (Fptr E + Index + i))) <$> seqZ 0 insSize in
  "; " +:+ write_hex E (Z.land Address 65535) Lower 4 +:+ ":" +:+
  (if FixedLength E then " " else "") +:+
  (if FixedLength E && isLittleEndian E then
     foldr (fun b acc => write_hex E b Lower 2 +:+ acc) "" (reverse bytes)
   else
     foldr (fun b acc => (if FixedLength E then "" else " ") +:+ write_hex E b Lower 2 +:+ acc)
           "" bytes).

(** Lines 1082-1093: one round of the loop over the operands. *)
Definition symbolicate_operand (Inst : MCInst) (opinfo : MCInstrDesc) (Index : Z)
    (acc : SymbolTable * Streamer) (Op : nat) : SymbolTable * Streamer :=
  match Operands Inst !! Op with
  | Some (Imm imm) =>
      let imm :=
        if decide (OpInfo opinfo !! Op = Some (OPERAND_PCREL E)) then imm + (Fptr E + Index)
        else imm in
      let '(info, name) :=
        lookupSymbolName (object E) (lookupLocalPC E) (slide E) (wrap64 imm) acc.1 in
      (info, match name with Some n => AddComment E n acc.2 | None => acc.2 end)
  | _ => acc
  end.

Definition symbolicate_operands (Inst : MCInst) (Index : Z)
    (info : SymbolTable) (OS : Streamer) : SymbolTable * Streamer :=
  let opinfo := MCII_get E (Opcode Inst) in
  foldl (symbolicate_operand Inst opinfo Index) (info, OS) (seq 0 (NumOperands opinfo)).

(** Lines 1066-1099: [case MCDisassembler::Success]. *)
Definition case_Success (pass : nat) (Inst : MCInst) (st : LoopState Streamer) : LoopState Streamer :=
  if decide (pass = O) then
    match MCIA E with
    | Some evaluateBranch =>
        let opcode := MCII_get E (Opcode Inst) in
        if isBranch opcode || isCall opcode then
          match evaluateBranch Inst (wrap64 (Fptr E + Index st)) (insSize st) with
          | Some addr =>
              mkLoop (Index st) (insSize st) (insertAddress addr (DisInfo st))
                     (Lines st) (Out st) (Ctx st) (Aborted st)
          | None => st
          end
        else st
    | None => st
    end
  else
    let '(info, OS1) := symbolicate_operands Inst (Index st) (DisInfo st) (Out st) in
    let OS2 := if binary E then emitRawText E (rawCodeComment (Index st) (insSize st)) OS1 else OS1 in
    mkLoop (Index st) (insSize st) info (Lines st) (emitInstruction E Inst OS2)
           (Ctx st) (Aborted st).

(** Lines 1060-1064: the statements of [case MCDisassembler::SoftFail] in
    front of the fall-through. *)
Definition warn_SoftFail (pass : nat) (st : LoopState Streamer) : LoopState Streamer :=
  if decide (pass <> O) then
    mkLoop (Index st) (insSize st) (DisInfo st) (Lines st)
           (emitRawText E "potentially undefined instruction encoding:" (Out st))
           (Ctx st) (Aborted st)
  else st.

(** Lines 1036-1058: [case MCDisassembler::Fail]. *)
Definition case_Fail (pass : nat) (st : LoopState Streamer) : LoopState Streamer :=
  let size := if decide (insSize st = 0) then min_step else insSize st in
  mkLoop (Index st) size (DisInfo st) (Lines st)
         (if decide (pass <> O) then emitRawText E (raw_directive (Index st) size) (Out st)
          else Out st)
         (Ctx st) (Aborted st).

(** The [switch (S)]. *)
Definition switch_status (pass : nat) (Status : DecodeStatus) (Inst : MCInst) (st : LoopState Streamer)
  : LoopState Streamer :=
  match Status with
  | Fail => case_Fail pass st
  | SoftFail => case_Success pass Inst (warn_SoftFail pass st)
  | Success => case_Success pass Inst st
  end.

(** Lines 1028-1034: the state once [getInstruction] has returned [r]. *)
Definition after_decode (pass : nat) (r : Decoded Streamer) (st : LoopState Streamer) : LoopState Streamer :=
  if decide (pass <> O) then
    let OS1 := d_out r in
    let OS2 := if decide (0 < CommentOS_tell E OS1) then CommentOS_newline E OS1 else OS1 in
    mkLoop (Index st) (d_size r) (d_info r) (Lines st) OS2 (Ctx st) (Aborted st)
  else mkLoop (Index st) (d_size r) (DisInfo st) (Lines st) (Out st) (Ctx st) (Aborted st).

Definition decode (pass : nat) (st : LoopState Streamer) : Decoded Streamer :=
  getInstruction E pass (Index st) (insSize st) (DisInfo st) (Out st).

(** The body of the loop; nothing follows a failed assertion. *)
Definition loop_body (pass : nat) (st : LoopState Streamer) : LoopState Streamer :=
  let st1 := declare_label pass (annotate pass st) in
  if Aborted st1 then st1
  else
    let r := decode pass st1 in
    switch_status pass (d_status r) (d_inst r) (after_decode pass r st1).

(** [Index += insSize] *)
Definition advance (st : LoopState Streamer) : LoopState Streamer :=
  mkLoop (wrap64 (Index st + insSize st)) (insSize st) (DisInfo st) (Lines st) (Out st)
         (Ctx st) (Aborted st).

(** [for (Index = 0; Index < Fsize E; Index += insSize)], with the number of
    rounds; [None] when [fuel] rounds do not reach the end.  The round in
    which the assertion fails is the last one. *)
Fixpoint disasm_loop (fuel : nat) (pass : nat) (st : LoopState Streamer) : option (nat * LoopState Streamer) :=
  if decide (Index st < Fsize E) then
    match fuel with
    | O => None
    | S fuel' =>
        let st1 := loop_body pass st in
        if Aborted st1 then Some (1%nat, st1)
        else
          match disasm_loop fuel' pass (advance st1) with
          | Some (n, st') => Some (S n, st')
          | None => None
          end
    end
  else Some (O, st).

(** Lines 1103-1113: the end of a pass; it is not reached after a failed
    assertion, which leaves the table and the text as they are. *)
Definition pass_finish (pass : nat) (st : LoopState Streamer) : SymbolTable * Streamer :=
  if Aborted st then (DisInfo st, Out st)
  else
    let info := setIP (Fptr E) (DisInfo st) in
    let info := if decide (pass = O) then createSymbols (lookupLocalPC E) (Fptr E) (Fsize E) info else info in
    let OS' :=
      if decide (pass <> O) then
        match di_ctx E with
        | Some _ =>
            let '(p', out) := emit_finish (dbgctx (Lines st)) in
            emit_buf (render (LineStart p') out) (Out st)
        | None => Out st
        end
      else Out st in
    (info, OS').

Definition run_pass (fuel : nat) (pass : nat) (info : SymbolTable) (OS : Streamer)
  : option (nat * (SymbolTable * Streamer)) :=
  match disasm_loop fuel pass (pass_init pass info OS) with
  | Some (n, st) => Some (n, pass_finish pass st)
  | None => None
  end.

(** The two passes, from the empty table of the constructor.  Pass 0 calls
    no [lookupSymbol] and so always reaches its end; when the assertion
    fails in pass 1 the result is the text written until then. *)
Definition two_passes (fuel : nat) (OS : Streamer) : option (SymbolTable * Streamer) :=
  match run_pass fuel 0 (mkTable ∅ 0) OS with
  | Some (_, (info, OS1)) =>
      match run_pass fuel 1 info OS1 with
      | Some (_, r) => Some r
      | None => None
      end
  | None => None
  end.

End Loop.

End Disasm.

(** ** Further parts of the code

    The size of a symbol in an object file ([compute_obj_symsize]), the
    filter of the line table and the symbolizer callback of
    [jl_dump_asm_internal], the writer of line numbers for LLVM IR with
    [jl_strip_llvm_debug], and the loop pass [runJuliaLICM]. *)

(** *** [compute_obj_symsize] *)

Module ObjFile.

Import Symbols.

Section ObjSymsize.

(** [Section.getAddress()], [Section.getSize()], [Section.containsSymbol] and
    the symbols of the section's object file. *)
Variables (SAddr SSize : Z).
Variable containsSymbol : SymbolRef -> bool.

(** One round of the scan: [(lo, hi, setlo)] after the symbol [Sym]. *)
Definition symsize_step (offset : Z) (acc : Z * Z * bool) (Sym : SymbolRef) : Z * Z * bool :=
  let '(lo, hi, setlo) := acc in
  if containsSymbol Sym then
    let Addr := sym_address Sym in
    let '(lo, setlo) :=
      if decide (Addr <= offset /\ lo <= Addr) then (Addr, true) else (lo, setlo) in
    let hi := if decide (offset < Addr /\ Addr < hi) then Addr else hi in
    (lo, hi, setlo)
  else acc.

Definition compute_obj_symsize (syms : list SymbolRef) (offset : Z) : Z :=
  if decide (offset < SAddr \/ wrap64 (SAddr + SSize) <= offset) then 0
  else
    let '(lo, hi, setlo) :=
      foldl (symsize_step offset) (0, wrap64 (SAddr + SSize), false) syms in
    if setlo then wrap64 (hi - lo) else 0.

End ObjSymsize.

End ObjFile.

(** *** The filter of the line table *)

Module LineTable.

Import LineInfo.

Section Filter.

(** What [std::move] leaves in the [DILineInfo] of the entry moved from (the
    address is copied). *)
Variable moved_from : DILineInfo -> DILineInfo.

(** Lines 924-941 of [jl_dump_asm_internal]: the filter of the line-info
    entries that contain no instruction, on the vector in place.  One round
    of the loop for the index [i]: the state is the vector, [j] and
    [cur_addr].  ([i] and [j] are [unsigned]; a table has fewer than 2^32
    entries.) *)
Definition filter_step (st : list (Z * DILineInfo) * nat * Z) (i : nat)
  : list (Z * DILineInfo) * nat * Z :=
  let '(di_lineinfo, j, cur_addr) := st in
  match di_lineinfo !! i with
  | Some info =>
      let j := if decide (info.1 <> cur_addr) then S j else j in
      (if decide (i <> j)
       then <[i := (info.1, moved_from info.2)]> (<[j := info]> di_lineinfo)
       else di_lineinfo,
       j, info.1)
  | None => st
  end.

Definition filter_lineinfo (di_lineinfo : list (Z * DILineInfo)) : list (Z * DILineInfo) :=
  match di_lineinfo with
  | [] => []
  | first :: _ =>
      let nlineinfo := length di_lineinfo in
      let '(di, j, _) :=
        foldl filter_step (di_lineinfo, O, first.1) (seq 1 (nlineinfo - 1)) in
      if decide (j + 1 < nlineinfo)%nat then take (j + 1) di else di
  end.

End Filter.

End LineTable.

(** *** The callback of the symbolizer *)

Module Callback.

Import Symbols.

Section SymbolLookup.

Variable object : option (list SymbolRef).
Variable lookupLocalPC : Z -> option string.
Variable slide : Z.
(** The reference types of [llvm-c/Disassembler.h]. *)
Variables (LLVMDisassembler_ReferenceType_InOut_None
           LLVMDisassembler_ReferenceType_In_Branch
           LLVMDisassembler_ReferenceType_In_PCrel_Load
           LLVMDisassembler_ReferenceType_Out_LitPool_SymAddr : Z).

(** [SymbolLookup], the callback of the symbolizer: the table after the call,
    the name returned, [*ReferenceType] and [*ReferenceName].  [Pass] is
    [SymTab->getPass()]. *)
Definition SymbolLookup (Pass : Z) (ReferenceValue ReferenceType ReferencePC : Z)
    (st : SymbolTable) : SymbolTable * (option string * Z * option string) :=
  let RTypeIn := ReferenceType in
  let nothing := (None, LLVMDisassembler_ReferenceType_InOut_None, None) in
  if decide (Pass <> 0) then
    if decide (RTypeIn = LLVMDisassembler_ReferenceType_In_Branch) then
      let addr := wrap64 (ReferenceValue + getIP st) in
      let '(st', symbolName) := lookupSymbolName object lookupLocalPC slide addr st in
      (st', (symbolName, LLVMDisassembler_ReferenceType_InOut_None, None))
    else if decide (RTypeIn = LLVMDisassembler_ReferenceType_In_PCrel_Load) then
      let addr := wrap64 (ReferenceValue + getIP st) in
      let '(st', symbolName) := lookupSymbolName object lookupLocalPC slide addr st in
      match symbolName with
      | Some _ =>
          (st', (None, LLVMDisassembler_ReferenceType_Out_LitPool_SymAddr, symbolName))
      | None => (st', nothing)
      end
    else if decide (RTypeIn = LLVMDisassembler_ReferenceType_InOut_None) then
      let addr := ReferenceValue in
      let '(st', symbolName) := lookupSymbolName object lookupLocalPC slide addr st in
      (st', (symbolName, LLVMDisassembler_ReferenceType_InOut_None, None))
    else (st, nothing)
  else (st, nothing).

End SymbolLookup.

End Callback.

(** *** [LineNumberAnnotatedWriter] and [jl_strip_llvm_debug] *)

Module Writer.

Import LineInfo.

(** The fields of a [DISubprogram] the writer reads. *)
Record DISubprogram : Type := mkSP {
  sp_getName : string;
  sp_getFilename : string;
  sp_getLine : Z
}.

(** A [DILocation*] that is not null: the address (the code compares
    locations as pointers) and what the writer reads through it;
    [getScope] is the name of the scope, [None] when the scope is null. *)
#[warnings="-register-all"]
Inductive DILocation : Type := mkLoc {
  loc_addr : Z;
  getScope : option string;
  getFilename : string;
  getLine : Z;
  getInlinedAt : option DILocation
}.

(** An instruction: its address, whether it is a [DbgDeclareInst] or a
    [DbgValueInst], the metadata other than the debug location (kind and
    node), and the debug location. *)
Record Instruction : Type := mkInstr {
  i_addr : Z;
  isDbgIntrinsic : bool;
  i_metadata : list (Z * Z);
  getDebugLoc : option DILocation
}.

Record IRFunction : Type := mkFunction {
  f_addr : Z;
  getSubprogram : option DISubprogram;
  f_metadata : list (Z * Z);
  f_blocks : list (list Instruction)
}.

(** A module: its functions, the metadata of its other global objects, and
    the names of its named metadata. *)
Record IRModule : Type := mkModule {
  functions : list IRFunction;
  global_metadata : list (list (Z * Z));
  named_metadata : list string
}.

(** The members of [class LineNumberAnnotatedWriter]. *)
Record LineNumberAnnotatedWriter : Type := mkWriter {
  InstrLoc : option DILocation;
  LinePrinter : DILineInfoPrinter;
  DebugLoc : gmap Z (option DILocation);
  Subprogram : gmap Z (option DISubprogram)
}.

(** What the writer puts on the stream: the tokens of its printer, and
    [Out << LinePrinter.inlining_indent(" ")]. *)
Inductive Annot : Type :=
| ALine (t : Tok)
| ASpaces (times : Z).

Definition new_writer (LineStart : string) (bracket_outer : bool) (debuginfo : string)
  : LineNumberAnnotatedWriter :=
  mkWriter None (SetVerbosity debuginfo (new_printer LineStart bracket_outer)) ∅ ∅.

Definition emitEnd (w : LineNumberAnnotatedWriter) : LineNumberAnnotatedWriter * list Annot :=
  let '(p, out) := emit_finish (LinePrinter w) in
  (mkWriter None p (DebugLoc w) (Subprogram w), ALine <$> out).

Definition addSubprogram (F : Z) (SP : option DISubprogram) (w : LineNumberAnnotatedWriter) :=
  mkWriter (InstrLoc w) (LinePrinter w) (DebugLoc w) (<[F := SP]> (Subprogram w)).

Definition addDebugLoc (I : Z) (Loc : option DILocation) (w : LineNumberAnnotatedWriter) :=
  mkWriter (InstrLoc w) (LinePrinter w) (<[I := Loc]> (DebugLoc w)) (Subprogram w).

Definition emitFunctionAnnot (w : LineNumberAnnotatedWriter) (F : IRFunction)
  : LineNumberAnnotatedWriter * list Annot :=
  let FuncLoc :=
    match getSubprogram F with
    | Some SP => Some SP
    | None =>
        match Subprogram w !! f_addr F with
        | Some SP => SP
        | None => None
        end
    end in
  match FuncLoc with
  | Some FuncLoc =>
      let DIvec := [mkDI (sp_getFilename FuncLoc) (sp_getName FuncLoc) (sp_getLine FuncLoc)] in
      let '(p, out) := emit_lineinfo (LinePrinter w) DIvec in
      (mkWriter None p (DebugLoc w) (Subprogram w), ALine <$> out)
  | None => (mkWriter None (LinePrinter w) (DebugLoc w) (Subprogram w), [])
  end.

Section BadString.

(** [DILineInfo::BadString], what a default-constructed [DILineInfo] has as
    its function name. *)
Variable BadString : string.

(** The [do ... while (NewInstrLoc)] loop: the chain of inlining, innermost
    location first. *)
Fixpoint DIvec_of (NewInstrLoc : DILocation) : list DILineInfo :=
  match NewInstrLoc with
  | mkLoc _ scope file line inlinedAt =>
      mkDI file (match scope with Some name => name | None => BadString end) line ::
      match inlinedAt with
      | Some NewInstrLoc => DIvec_of NewInstrLoc
      | None => []
      end
  end.

(** [emitInstructionAnnot(const DILocation *, formatted_raw_ostream &)] *)
Definition emitInstructionAnnot_loc (w : LineNumberAnnotatedWriter)
    (NewInstrLoc : option DILocation) : LineNumberAnnotatedWriter * list Tok :=
  match NewInstrLoc with
  | Some loc =>
      if decide (Some (loc_addr loc) <> loc_addr <$> InstrLoc w) then
        let '(p, out) := emit_lineinfo (LinePrinter w) (DIvec_of loc) in
        (mkWriter (Some loc) p (DebugLoc w) (Subprogram w), out)
      else (w, [])
  | None => (w, [])
  end.

(** [emitInstructionAnnot(const Instruction *, formatted_raw_ostream &)] *)
Definition emitInstructionAnnot (w : LineNumberAnnotatedWriter) (I : Instruction)
  : LineNumberAnnotatedWriter * list Annot :=
  let NewInstrLoc :=
    match getDebugLoc I with
    | Some loc => Some loc
    | None =>
        match DebugLoc w !! i_addr I with
        | Some Loc => Loc
        | None => None
        end
    end in
  let '(w', out) := emitInstructionAnnot_loc w NewInstrLoc in
  (w', (ALine <$> out) ++ [ASpaces (inlining_indent (LinePrinter w'))]).

(** [emitBasicBlockEndAnnot], with [is_back] the test
    [BB == &BB->getParent()->back()]. *)
Definition emitBasicBlockEndAnnot (w : LineNumberAnnotatedWriter) (is_back : bool)
  : LineNumberAnnotatedWriter * list Annot :=
  if is_back then emitEnd w else (w, []).

(** The calls made on a writer, and a run of them. *)
Inductive WriterCall : Type :=
| CallFunctionAnnot (F : IRFunction)
| CallInstructionAnnot (I : Instruction)
| CallBasicBlockEndAnnot (is_back : bool)
| CallEnd
| CallAddSubprogram (F : Z) (SP : option DISubprogram)
| CallAddDebugLoc (I : Z) (Loc : option DILocation).

Definition call_writer (w : LineNumberAnnotatedWriter) (c : WriterCall)
  : LineNumberAnnotatedWriter * list Annot :=
  match c with
  | CallFunctionAnnot F => emitFunctionAnnot w F
  | CallInstructionAnnot inst => emitInstructionAnnot w inst
  | CallBasicBlockEndAnnot is_back => emitBasicBlockEndAnnot w is_back
  | CallEnd => emitEnd w
  | CallAddSubprogram F SP => (addSubprogram F SP w, [])
  | CallAddDebugLoc inst Loc => (addDebugLoc inst Loc w, [])
  end.

Fixpoint run_writer (w : LineNumberAnnotatedWriter) (calls : list WriterCall)
  : LineNumberAnnotatedWriter * list Annot :=
  match calls with
  | [] => (w, [])
  | c :: calls' =>
      let '(w1, out1) := call_writer w c in
      let '(w2, out2) := run_writer w1 calls' in
      (w2, out1 ++ out2)
  end.

End BadString.

(** *** [jl_strip_llvm_debug] *)

(** [I->eraseFromParent()] for the instruction at address [a] of a block. *)
Definition eraseFromParent (a : Z) (bb : list Instruction) : list Instruction :=
  filter (fun i => i_addr i <> a) bb.

(** What the body of the inner loop does to an instruction it keeps. *)
Definition strip_inst (all_meta : bool) (inst : Instruction) : Instruction :=
  mkInstr (i_addr inst) (isDbgIntrinsic inst)
          (if all_meta then [] else i_metadata inst) None.

(** The instruction at address [a] of a block, updated in place. *)
Definition update_inst (a : Z) (new : Instruction) (bb : list Instruction) : list Instruction :=
  (fun i => if decide (i_addr i = a) then new else i) <$> bb.

Definition erase_deletelast (deletelast : option Z) (bb : list Instruction) : list Instruction :=
  match deletelast with
  | Some a => eraseFromParent a bb
  | None => bb
  end.

(** One round of [for (Instruction &inst : f_bb)]: the block as it is, the
    pending [deletelast] and the writer. *)
Definition strip_step (all_meta : bool)
    (st : list Instruction * option Z * option LineNumberAnnotatedWriter) (inst : Instruction)
  : list Instruction * option Z * option LineNumberAnnotatedWriter :=
  let '(bb, deletelast, AAW) := st in
  let bb := erase_deletelast deletelast bb in
  if isDbgIntrinsic inst then (bb, Some (i_addr inst), AAW)
  else (update_inst (i_addr inst) (strip_inst all_meta inst) bb, None,
        addDebugLoc (i_addr inst) (getDebugLoc inst) <$> AAW).

(** A block: the inner loop and the deletion after it.  [deletelast] is null
    at the head of every block: it starts null and is cleared after each
    inner loop. *)
Definition strip_block (all_meta : bool) (AAW : option LineNumberAnnotatedWriter)
    (f_bb : list Instruction) : list Instruction * option LineNumberAnnotatedWriter :=
  let '(bb, deletelast, AAW) := foldl (strip_step all_meta) (f_bb, None, AAW) f_bb in
  (erase_deletelast deletelast bb, AAW).

Definition strip_blocks (all_meta : bool) (AAW : option LineNumberAnnotatedWriter)
    (blocks : list (list Instruction))
  : list (list Instruction) * option LineNumberAnnotatedWriter :=
  foldl (fun acc f_bb =>
           let '(done, AAW) := acc in
           let '(bb, AAW) := strip_block all_meta AAW f_bb in
           (done ++ [bb], AAW))
        ([], AAW) blocks.

Definition strip_function (all_meta : bool) (AAW : option LineNumberAnnotatedWriter)
    (f : IRFunction) : IRFunction * option LineNumberAnnotatedWriter :=
  let AAW := addSubprogram (f_addr f) (getSubprogram f) <$> AAW in
  let '(blocks, AAW) := strip_blocks all_meta AAW (f_blocks f) in
  (mkFunction (f_addr f) None (f_metadata f) blocks, AAW).

Definition jl_strip_llvm_debug (m : IRModule) (all_meta : bool)
    (AAW : option LineNumberAnnotatedWriter) : IRModule * option LineNumberAnnotatedWriter :=
  let '(fs, AAW) :=
    foldl (fun acc f =>
             let '(done, AAW) := acc in
             let '(f', AAW) := strip_function all_meta AAW f in
             (done ++ [f'], AAW))
          ([], AAW) (functions m) in
  let fs :=
    if all_meta then (fun f => mkFunction (f_addr f) (getSubprogram f) [] (f_blocks f)) <$> fs
    else fs in
  let globals := if all_meta then (fun _ => []) <$> global_metadata m else global_metadata m in
  (mkModule fs globals (filter (fun name => name <> "llvm.dbg.cu") (named_metadata m)), AAW).

End Writer.

(** *** [runJuliaLICM] *)

Module JuliaLICM.

(** An operand: [dyn_cast<Instruction>(U.get())] gives the instruction, or
    null for an argument, a constant and the like. *)
Inductive Value : Type :=
| VInstruction (origin : Z)
| VOther.

(** A [CallInst]: its address, the called operand and the argument
    operands. *)
Record CallInst : Type := mkCall {
  call_addr : Z;
  getCalledOperand : Z;
  arg_operands : list Value
}.

(** An instruction as the scan reads it: [dyn_cast<CallInst>(&*II++)]. *)
Inductive Instr : Type :=
| ICall (call : CallInst)
| IOther (addr : Z).

(** What the pass reads of the loop: the preheader and its terminator, the
    header, the blocks of the loop in reverse post-order, each with its
    instructions, and the first insertion point of each unique exit block
    ([get_exit_pts]; the code computes the list at its first use and keeps
    it, and nothing is put in an exit block before).  The preheader and the
    exit blocks are not blocks of the loop, so the instructions moved or
    cloned never come under the scan again, and the scan of a block reads the
    instructions the block has at the start. *)
Record Loop : Type := mkL {
  getLoopPreheader : option Z;
  preheader_getTerminator : Z;
  getHeader : Z;
  worklist : list (list Instr);
  exit_pts : list Z
}.

(** The changes made to the function, in the order they are made. *)
Inductive Edit : Type :=
| MoveBefore (call target : Z)
| Clone (call target : Z)
| EraseFromParent (call : Z).

(** The block of every instruction, the changes so far and [changed]. *)
Record State : Type := mkState {
  getParent : Z -> Z;
  edits : list Edit;
  changed : bool
}.

Definition moveBefore (call target : Z) (st : State) : State :=
  mkState (fun a => if decide (a = call) then getParent st target else getParent st a)
          (edits st ++ [MoveBefore call target]) (changed st).

Definition clone (call target : Z) (st : State) : State :=
  mkState (getParent st) (edits st ++ [Clone call target]) (changed st).

Definition eraseFromParent (call : Z) (st : State) : State :=
  mkState (getParent st) (edits st ++ [EraseFromParent call]) (changed st).

Definition set_changed (st : State) : State :=
  mkState (getParent st) (edits st) true.

Section Pass.

(** [DT.properlyDominates(A, B)] on blocks. *)
Variable properlyDominates : Z -> Z -> bool.

Variables (gc_preserve_begin_func gc_preserve_end_func : option Z).

Variable L : Loop.

(** The loop over [call->arg_operands()] that leaves at the first operand
    made inside the loop. *)
Definition canhoist (call : CallInst) (st : State) : bool :=
  forallb (fun U =>
             match U with
             | VInstruction origin => properlyDominates (getParent st origin) (getHeader L)
             | VOther => true
             end)
          (arg_operands call).

(** The body of the inner loop for a call; [None] when
    [cast<Instruction>(call->getArgOperand(0))] is not defined. *)
Definition visit_call (call : CallInst) (st : State) : option State :=
  let callee := getCalledOperand call in
  if decide (Some callee = gc_preserve_begin_func) then
    if canhoist call st then
      Some (set_changed (moveBefore (call_addr call) (preheader_getTerminator L) st))
    else Some st
  else if decide (Some callee = gc_preserve_end_func) then
    match arg_operands call with
    | VInstruction begin :: _ =>
        if properlyDominates (getParent st begin) (getHeader L) then
          let st := set_changed st in
          match exit_pts L with
          | [] => Some (eraseFromParent (call_addr call) st)
          | first :: others =>
              Some (foldl (fun st pt => clone (call_addr call) pt st)
                          (moveBefore (call_addr call) first st) others)
          end
        else Some st
    | _ => None
    end
  else Some st.

Definition visit (st : option State) (II : Instr) : option State :=
  match st with
  | Some st =>
      match II with
      | ICall call => visit_call call st
      | IOther _ => Some st
      end
  | None => None
  end.

(** [runJuliaLICM], from the blocks the instructions are in at the start. *)
Definition runJuliaLICM (getParent0 : Z -> Z) : option (bool * State) :=
  let st0 := mkState getParent0 [] false in
  match getLoopPreheader L with
  | None => Some (false, st0)
  | Some preheader =>
      match gc_preserve_begin_func with
      | None => Some (false, st0)
      | Some _ =>
          match foldl (fun st bb => foldl visit st bb) (Some st0) (worklist L) with
          | Some st => Some (changed st, st)
          | None => None
          end
      end
  end.

End Pass.

End JuliaLICM.

(** * The properties of the design document *)

Import LineInfo Symbols Disasm.

(** ** Vocabulary of the statements *)

(** A position [k] of [l] is a boundary when no run of [l] crosses it. *)
Definition boundary (l : list DILineInfo) (k : nat) : Prop :=
  k = O \/ (length l <= k)%nat \/
  exists a b, l !! pred k = Some a /\ l !! k = Some b /\ method_of a <> method_of b.

(** What [print_frames] adds to [inline_depth]. *)
Definition inc_of (cur : option string) (ulo : bool) (rest : list DILineInfo) : Z :=
  match cur with
  | Some m => runs_after m rest
  | None =>
      match rest with
      | [] => 0
      | d :: rest' => (if ulo then 0 else 1) + runs_after (method_of d) rest'
      end
  end.

(** The invariant of the printer's state. *)
Definition depth_inv (p : DILineInfoPrinter) : Prop :=
  collapse_recursive p = true /\
  inline_depth p = runs (context p) /\
  Z.of_nat (length (context p)) < 2 ^ 32.

(** The indentation under one open frame. *)
Definition indent1 (bo : bool) : Z := if bo then 1 else 0.

(** Frames for the worked examples. *)
Definition demo_f (line : Z) : DILineInfo := mkDI "fib.jl" "fib;" line.
Definition demo_A : DILineInfo := mkDI "a.jl" "A" 1.
Definition demo_B : DILineInfo := mkDI "b.jl" "B" 7.
Definition demo_C : DILineInfo := mkDI "c.jl" "C" 9.

(** [lookupSymbolName] would resolve an address it has not seen by the rule
    of [finalize], as the design document words it. *)
Definition lookup_uses_finalize_rule (object : option (list SymbolRef))
    (lookupLocalPC : Z -> option string) (Fptr Fsize slide : Z)
    (st : SymbolTable) (addr : Z) : Prop :=
  Table st !! addr = None ->
  (lookupSymbolName object lookupLocalPC slide addr st).2 =
  finalize_rule lookupLocalPC Fptr Fsize (ip st) addr.

(** A symbolicator and an object file for the worked examples. *)
Definition demo_symbolicator (addr : Z) : option string :=
  if decide (addr = 9000) then Some "jl_apply_generic"
  else if decide (4096 <= addr < 4112) then Some "julia_f_1"
  else None.

Definition demo_object : option (list SymbolRef) :=
  Some [mkSym None 4100 (Some "undefined_section");
        mkSym (Some 4096) 4104 (Some "julia_f_1.inner")].


(** The addresses the operands of an instruction at [Index] refer to: of
    each operand the opcode declares that is an immediate, its value, taken
    from the address of the instruction when the operand is relative to the
    program counter. *)
Definition operand_targets {Streamer : Type} (E : Env Streamer) (Inst : MCInst) (Index : Z)
  : list Z :=
  omap (fun Op =>
          match Operands Inst !! Op with
          | Some (Imm imm) =>
              Some (wrap64 (if decide (OpInfo (MCII_get E (Opcode Inst)) !! Op =
                                       Some (OPERAND_PCREL E))
                            then imm + (Fptr E + Index) else imm))
          | _ => None
          end)
       (seq 0 (NumOperands (MCII_get E (Opcode Inst)))).

(** The names that the lookups of [addrs], made in this order from the table
    [st], find. *)
Fixpoint names_found (object : option (list SymbolRef)) (lookupLocalPC : Z -> option string)
    (slide : Z) (addrs : list Z) (st : SymbolTable) : list string :=
  match addrs with
  | [] => []
  | addr :: addrs' =>
      match (lookupSymbolName object lookupLocalPC slide addr st).2 with
      | Some name => [name]
      | None => []
      end ++
      names_found object lookupLocalPC slide addrs'
        (lookupSymbolName object lookupLocalPC slide addr st).1
  end.

(** The bytes [bs] in hex, two digits each. *)
Definition hex_bytes {Streamer : Type} (E : Env Streamer) (bs : list Z) : string :=
  foldr (fun b acc => write_hex E b Lower 2 +:+ acc) "" bs.

(** The raw bytes of the instruction at [Index] as a comment: the low 16
    bits of its address, a colon, and its bytes: each after a blank on x86;
    on the other machines after one blank, in the order of memory on a
    big-endian machine and in the reverse order on a little-endian one. *)
Definition raw_bytes_text {Streamer : Type} (E : Env Streamer) (Index insSize : Z) : string :=
  let bytes := (fun i => Memory8 E (wrap64 (Fptr E + Index + i))) <$> seqZ 0 insSize in
  "; " +:+ write_hex E (Z.land (wrap64 (Fptr E + Index)) 65535) Lower 4 +:+ ":" +:+
  match FixedLength E, isLittleEndian E with
  | false, _ => foldr (fun b acc => " " +:+ write_hex E b Lower 2 +:+ acc) "" bytes
  | true, true => " " +:+ hex_bytes E (reverse bytes)
  | true, false => " " +:+ hex_bytes E bytes
  end.

(** The decoder reports a positive size whenever it does not fail, and no
    size that would wrap [Index] around. *)
Definition decoder_progresses {Streamer : Type} (E : Env Streamer) (pass : nat) : Prop :=
  forall idx sz info OS, 0 <= idx < Fsize E ->
    let r := getInstruction E pass idx sz info OS in
    (d_status r <> Fail -> 0 < d_size r) /\
    0 <= d_size r /\ idx + Z.max (d_size r) 4 < 2 ^ 64.

(** The forward-progress bound of the design document for one pass: the loop
    ends, after at most [Fsize] rounds. *)
Definition pass_terminates {Streamer : Type} (E : Env Streamer) (pass : nat)
    (info : SymbolTable) (OS : Streamer) : Prop :=
  exists fuel n st',
    disasm_loop E fuel pass (pass_init E pass info OS) = Some (n, st') /\
    Z.of_nat n <= Fsize E.

(** A streamer that keeps the lines it is given, last first. *)
Definition text_env (fsize : Z) (fixed : bool)
    (dec : nat -> Z -> Z -> SymbolTable -> list string -> Decoded (list string))
  : Env (list string) :=
  {| emitRawText := fun s OS => s :: OS;
     emitLabel := fun s OS => (s +:+ ":") :: OS;
     AddComment := fun s OS => ("# " +:+ s) :: OS;
     emitInstruction := fun I OS => ("inst " +:+ pretty (Opcode I)) :: OS;
     CommentOS_tell := fun _ => 0;
     CommentOS_newline := fun OS => OS;
     object := None;
     lookupLocalPC := fun _ => None;
     Fptr := 4096; Fsize := fsize; slide := 0;
     di_ctx := None; di_lineinfo := []; di_past_end := (0, mkDI "" "" 0);
     debuginfo := "default"; binary := false;
     getInstruction := dec;
     MCII_get := fun _ => mkDesc false true 1 [4];
     MCIA := Some (fun I addr size =>
                     match Operands I with
                     | [Imm imm] => Some (wrap64 (addr + imm))
                     | _ => None
                     end);
     OPERAND_PCREL := 4;
     fixed_width_cpu := fixed; FixedLength := fixed; isLittleEndian := true;
     Memory8 := fun _ => 0; Memory32 := fun _ => 0;
     write_hex := fun n _ _ => pretty n |}.

(** A decoder that reports success and a size of zero. *)
Definition stuck_decoder (pass : nat) (idx sz : Z) (info : SymbolTable) (OS : list string)
  : Decoded (list string) :=
  mkDecoded Success 0 (mkInst 0 []) info OS.

(** The scenario of the design document: eight bytes, the decoder fails at
    offset 0 and finds a call to offset 0 at offset 4 (here reported as a
    soft failure). *)
Definition scenario_decoder (pass : nat) (idx sz : Z) (info : SymbolTable) (OS : list string)
  : Decoded (list string) :=
  if decide (idx = 4) then mkDecoded SoftFail 4 (mkInst 7 [Imm (-4)]) info OS
  else mkDecoded Fail 0 (mkInst 0 []) info OS.

(** ** Vocabulary of the further properties *)

Import ObjFile LineTable Callback Writer JuliaLICM.

(** *** Symbol sizes *)

(** A section at 4096 with three of its symbols, and a symbol of no
    section. *)
Definition demo_section_symbols : list SymbolRef :=
  [mkSym (Some 4096) 4096 (Some "f"); mkSym (Some 4096) 4160 (Some "g");
   mkSym None 4128 (Some "elsewhere"); mkSym (Some 4096) 4224 (Some "h")].

Definition demo_contains (Sym : SymbolRef) : bool :=
  bool_decide (sym_section Sym = Some 4096).

(** What the scan knows after the symbols [seen]. *)
Definition scan_inv (SAddr SSize : Z) (containsSymbol : SymbolRef -> bool)
    (offset : Z) (seen : list SymbolRef) (acc : Z * Z * bool) : Prop :=
  let '(lo, hi, setlo) := acc in
  0 <= lo <= offset /\ offset < hi <= SAddr + SSize /\
  (setlo = false -> lo = 0) /\
  (setlo = true ->
     exists Sym, Sym ∈ seen /\ containsSymbol Sym = true /\ sym_address Sym = lo) /\
  (hi < SAddr + SSize ->
     exists Sym, Sym ∈ seen /\ containsSymbol Sym = true /\ sym_address Sym = hi) /\
  (forall Sym, Sym ∈ seen -> containsSymbol Sym = true ->
     (sym_address Sym <= offset -> setlo = true /\ sym_address Sym <= lo) /\
     (offset < sym_address Sym -> hi <= sym_address Sym)).

(** *** The line table *)

(** Of each run of neighbours with one address, the last entry. *)
Fixpoint last_of_runs (l : list (Z * DILineInfo)) : list (Z * DILineInfo) :=
  match l with
  | [] => []
  | x :: l' =>
      match l' with
      | [] => [x]
      | y :: _ => if decide (x.1 = y.1) then last_of_runs l' else x :: last_of_runs l'
      end
  end.

(** No two neighbours have the same address. *)
Fixpoint no_repeat (l : list (Z * DILineInfo)) : Prop :=
  match l with
  | [] => True
  | x :: l' =>
      match l' with
      | [] => True
      | y :: _ => x.1 <> y.1 /\ no_repeat l'
      end
  end.

(** A table with two runs of two entries, and the first address again at
    the end. *)
Definition demo_table : list (Z * DILineInfo) :=
  [(1, mkDI "a" "f" 1); (1, mkDI "a" "f" 2); (2, mkDI "a" "f" 3);
   (3, mkDI "a" "f" 4); (3, mkDI "a" "f" 5); (1, mkDI "a" "f" 7)].

(** *** The line-info printer *)

(** The configuration of a printer: what no call changes. *)
Definition same_config (p q : DILineInfoPrinter) : Prop :=
  LineStart p = LineStart q /\ bracket_outer p = bracket_outer q /\
  collapse_recursive p = collapse_recursive q /\ verbosity p = verbosity q.

(** The tokens read as lines: [in_line] says whether a line is open; the
    result is that state at the end, [None] when a line start or a newline
    is out of place. *)
Fixpoint scan_lines (in_line : bool) (ts : list Tok) : option bool :=
  match ts with
  | [] => Some in_line
  | TLineStart :: ts' => if in_line then None else scan_lines true ts'
  | TNewline :: ts' => if in_line then scan_lines false ts' else None
  | _ :: ts' => if in_line then scan_lines true ts' else None
  end.

(** *** The disassembly loop *)

(** The status and the size the decoder reports depend on the offset alone:
    not on the pass, the size handed in, the table or the streamer. *)
Definition decoder_by_offset {Streamer : Type} (E : Env Streamer) : Prop :=
  forall pass pass' idx sz sz' info info' OS OS',
    d_status (getInstruction E pass idx sz info OS) =
    d_status (getInstruction E pass' idx sz' info' OS') /\
    d_size (getInstruction E pass idx sz info OS) =
    d_size (getInstruction E pass' idx sz' info' OS').

(** The state at the head of round [k] of the loop of a pass: [k] times the
    body of the loop and [Index += insSize]. *)
Definition round_state {Streamer : Type} (E : Env Streamer) (pass k : nat)
    (st : LoopState Streamer) : LoopState Streamer :=
  Nat.iter k (fun s => advance (loop_body E pass s)) st.

(** The offsets at which the first [n] rounds of a pass start. *)
Definition offsets_walked {Streamer : Type} (E : Env Streamer) (pass n : nat)
    (st : LoopState Streamer) : list Z :=
  (fun k => Index (round_state E pass k st)) <$> seq 0 n.

(** Twelve bytes, of three instructions of four bytes; the one at offset 0
    has the immediates 4100 and 4104, and the symbolicator knows the
    function by its name. *)
Definition named_decoder (pass : nat) (idx sz : Z) (info : SymbolTable) (OS : list string)
  : Decoded (list string) :=
  if decide (idx = 0) then mkDecoded Success 4 (mkInst 7 [Imm 4100; Imm 4104]) info OS
  else mkDecoded Success 4 (mkInst 0 []) info OS.

Definition named_env : Env (list string) :=
  {| emitRawText := fun s OS => s :: OS;
     emitLabel := fun s OS => (s +:+ ":") :: OS;
     AddComment := fun s OS => ("# " +:+ s) :: OS;
     emitInstruction := fun I OS => ("inst " +:+ pretty (Opcode I)) :: OS;
     CommentOS_tell := fun _ => 0;
     CommentOS_newline := fun OS => OS;
     object := None;
     lookupLocalPC := demo_symbolicator;
     Fptr := 4096; Fsize := 12; slide := 0;
     di_ctx := None; di_lineinfo := []; di_past_end := (0, mkDI "" "" 0);
     debuginfo := "default"; binary := false;
     getInstruction := named_decoder;
     MCII_get := fun op => if decide (op = 7) then mkDesc false false 2 [0; 0]
                           else mkDesc false false 0 [];
     MCIA := None;
     OPERAND_PCREL := 4;
     fixed_width_cpu := false; FixedLength := false; isLittleEndian := true;
     Memory8 := fun _ => 0; Memory32 := fun _ => 0;
     write_hex := fun n _ _ => pretty n |}.

(** *** The writer of line numbers *)

(** The instructions [jl_strip_llvm_debug] keeps. *)
Definition kept (bb : list Instruction) : list Instruction :=
  filter (fun i => isDbgIntrinsic i = false) bb.

(** The instructions of a function and of a module, in their order. *)
Definition function_insts (f : IRFunction) : list Instruction :=
  concat (f_blocks f).

Definition all_insts (m : IRModule) : list Instruction :=
  concat (function_insts <$> functions m).

(** The writer after the kept instructions of [l] have been recorded, and
    after a function and a list of functions have been. *)
Definition record_locs (l : list Instruction) (w : LineNumberAnnotatedWriter)
  : LineNumberAnnotatedWriter :=
  foldl (fun w i => addDebugLoc (i_addr i) (getDebugLoc i) w) w (kept l).

Definition record_function (f : IRFunction) (w : LineNumberAnnotatedWriter)
  : LineNumberAnnotatedWriter :=
  record_locs (function_insts f) (addSubprogram (f_addr f) (getSubprogram f) w).

Definition record_functions (fs : list IRFunction) (w : LineNumberAnnotatedWriter)
  : LineNumberAnnotatedWriter :=
  foldl (fun w f => record_function f w) w fs.

(** What a stripped instruction is. *)
Definition stripped_inst (all_meta : bool) (i : Instruction) : Prop :=
  isDbgIntrinsic i = false /\ getDebugLoc i = None /\
  (all_meta = true -> i_metadata i = []).

(** A stripped function: same address, no subprogram, and in each block the
    kept instructions in their order, without debug location (and without
    metadata when [all_meta]). *)
Definition stripped_function (all_meta : bool) (f f' : IRFunction) : Prop :=
  f_addr f' = f_addr f /\ getSubprogram f' = None /\
  f_metadata f' = (if all_meta then [] else f_metadata f) /\
  f_blocks f' = (fun bb => strip_inst all_meta <$> kept bb) <$> f_blocks f.

(** A location inlined once, a function of two blocks with two debug
    intrinsics at the end of the first, and its module. *)
Definition demo_loc : DILocation :=
  mkLoc 100 (Some "getindex") "array.jl" 801
        (Some (mkLoc 200 (Some "sum") "reduce.jl" 12 None)).

Definition demo_function : IRFunction :=
  mkFunction 1 (Some (mkSP "julia_sum_1" "reduce.jl" 10)) [(5, 6)]
    [[mkInstr 10 false [(1, 2)] (Some demo_loc);
      mkInstr 11 true [] (Some demo_loc);
      mkInstr 12 true [] None];
     [mkInstr 13 false [] None]].

Definition demo_module : IRModule :=
  mkModule [demo_function] [[(7, 8)]] ["llvm.dbg.cu"; "llvm.module.flags"].

(** *** The loop pass *)

(** The calls the scan meets, in its order. *)
Definition calls_of (instrs : list Instr) : list CallInst :=
  omap (fun II => match II with ICall call => Some call | IOther _ => None end) instrs.

Definition loop_calls (L : Loop) : list CallInst :=
  calls_of (concat (worklist L)).

(** Every call of [gc_preserve_end] in the loop has an instruction as its
    first operand. *)
Definition ends_have_begin (gc_preserve_end_func : option Z) (calls : list CallInst) : Prop :=
  forall call, call ∈ calls ->
    Some (getCalledOperand call) = gc_preserve_end_func ->
    exists begin rest, arg_operands call = VInstruction begin :: rest.

(** The changes made for a sunk [gc_preserve_end]. *)
Definition sink_edits (L : Loop) (call : Z) : list Edit :=
  match exit_pts L with
  | [] => [EraseFromParent call]
  | first :: others => MoveBefore call first :: (Clone call <$> others)
  end.

(** The changes of a run are, call by call in the order of the scan: nothing,
    the move of a [gc_preserve_begin] before the preheader's terminator, or
    the changes of a sunk [gc_preserve_end]. *)
Fixpoint edits_of_calls (gc_preserve_begin_func gc_preserve_end_func : option Z)
    (L : Loop) (calls : list CallInst) (es : list Edit) : Prop :=
  match calls with
  | [] => es = []
  | call :: calls' =>
      exists es1 es2, es = es1 ++ es2 /\
        edits_of_calls gc_preserve_begin_func gc_preserve_end_func L calls' es2 /\
        (es1 = [] \/
         (Some (getCalledOperand call) = gc_preserve_begin_func /\
          es1 = [MoveBefore (call_addr call) (preheader_getTerminator L)]) \/
         (Some (getCalledOperand call) <> gc_preserve_begin_func /\
          Some (getCalledOperand call) = gc_preserve_end_func /\
          es1 = sink_edits L (call_addr call)))
  end.

(** A loop of two blocks (2 and 3) with preheader 1 and two exits: a begin
    in the header whose operand is made in the preheader, and its end in the
    second block.  An instruction at address [a] is in the block [a / 10]. *)
Definition demo_loop : Loop :=
  mkL (Some 1) 19 2
      [[IOther 20; ICall (mkCall 21 900 [VInstruction 10; VOther]); IOther 22];
       [ICall (mkCall 31 901 [VInstruction 21]); IOther 32]]
      [41; 51].

Definition demo_dominates (A B : Z) : bool :=
  bool_decide (A = 1 /\ B = 2).

Definition demo_parent (a : Z) : Z := a / 10.

(** ** Machine integers *)

Lemma wrap64_small x : 0 <= x < 2 ^ 64 -> wrap64 x = x.
Proof. intros H. unfold wrap64. apply Z.mod_small. exact H. Qed.

(** ** Strings *)

Example rtrim_marker : rtrim ";"%char "getindex;" = "getindex".
Proof. reflexivity. Qed.

Example rtrim_inner : rtrim ";"%char "a;b;;" = "a;b".
Proof. reflexivity. Qed.

Example rtrim_all : rtrim ";"%char ";;" = "".
Proof. reflexivity. Qed.

(** ** The line-info printer: the depth invariant *)


Lemma wrap32_small x : 0 <= x < 2 ^ 32 -> wrap32 x = x.
Proof. intros H. unfold wrap32. apply Z.mod_small. exact H. Qed.

Lemma runs_after_bounds Prev l : 0 <= runs_after Prev l <= Z.of_nat (length l).
Proof.
  revert Prev. induction l as [|d l IH]; intros Prev; simpl; [lia|].
  specialize (IH (method_of d)). destruct (decide (Prev = method_of d)); lia.
Qed.

Lemma runs_bounds l : 0 <= runs l <= Z.of_nat (length l).
Proof.
  destruct l as [|d l]; simpl; [lia|].
  pose proof (runs_after_bounds (method_of d) l). lia.
Qed.

Lemma runs_cons_pos d l : 1 <= runs (d :: l).
Proof. simpl. pose proof (runs_after_bounds (method_of d) l). lia. Qed.

Lemma npops_loop_runs rest : forall Prev acc,
  0 <= acc -> acc + Z.of_nat (length rest) < 2 ^ 32 ->
  npops_loop Prev rest acc = acc + runs_after Prev rest.
Proof.
  induction rest as [|d rest IH]; intros Prev acc H0 Hb; simpl in *; [lia|].
  destruct (decide (Prev = method_of d)).
  - rewrite IH by lia. lia.
  - rewrite wrap32_small by lia. rewrite IH by lia. lia.
Qed.

Lemma depth2_loop_runs rest : forall Prev acc,
  0 <= acc -> acc + Z.of_nat (length rest) < 2 ^ 32 ->
  depth2_loop true Prev rest acc = acc + runs_after Prev rest.
Proof.
  induction rest as [|d rest IH]; intros Prev acc H0 Hb; simpl in *; [lia|].
  destruct (decide (Prev = method_of d)) as [e|ne].
  - rewrite bool_decide_eq_true_2 by exact e. simpl. rewrite IH by lia. lia.
  - rewrite bool_decide_eq_false_2 by exact ne. simpl.
    rewrite wrap32_small by lia. rewrite IH by lia. lia.
Qed.


Lemma runs_after_split l : forall Prev k,
  boundary l (S k) ->
  runs_after Prev l = runs_after Prev (take (S k) l) + runs (drop (S k) l).
Proof.
  induction l as [|d l IH]; intros Prev k Hb; simpl.
  - reflexivity.
  - destruct k as [|k].
    + rewrite take_0, drop_0. simpl.
      destruct Hb as [Hb|[Hb|(a & b & Ha & Hb' & Hne)]]; [discriminate| |].
      * simpl in Hb. destruct l; simpl in *; [lia|lia].
      * simpl in Ha, Hb'. injection Ha as <-. destruct l as [|b' l]; [discriminate|].
        simpl in Hb'. injection Hb' as <-. simpl.
        destruct (decide (method_of d = method_of b')); [contradiction|lia].
    + rewrite (IH (method_of d) k). 
      * simpl. lia.
      * destruct Hb as [Hb|[Hb|(a & b & Ha & Hb' & Hne)]]; [discriminate| |].
        -- right; left. simpl in Hb. lia.
        -- right; right. exists a, b. simpl in *. auto.
Qed.

Lemma runs_split l k : boundary l k -> runs l = runs (take k l) + runs (drop k l).
Proof.
  intros Hb. destruct k as [|k].
  - rewrite take_0, drop_0. simpl. lia.
  - destruct l as [|d l]; [reflexivity|].
    destruct k as [|k].
    + simpl. rewrite ?take_0, ?drop_0. simpl.
      destruct Hb as [Hb|[Hb|(a & b & Ha & Hb' & Hne)]]; [discriminate| |].
      * simpl in Hb. destruct l; simpl in *; lia.
      * simpl in Ha, Hb'. injection Ha as <-. destruct l as [|b' l]; [discriminate|].
        simpl in Hb'. injection Hb' as <-. simpl.
        destruct (decide (method_of d = method_of b')); [contradiction|lia].
    + change (runs (d :: l)) with (1 + runs_after (method_of d) l).
      rewrite (runs_after_split l (method_of d) k).
      * simpl. lia.
      * destruct Hb as [Hb|[Hb|(a & b & Ha & Hb' & Hne)]]; [discriminate| |].
        -- right; left. simpl in Hb. lia.
        -- right; right. exists a, b. simpl in *. auto.
Qed.


Lemma print_frames_spec rest : forall cur p ulo nctx,
  collapse_recursive p = true ->
  (is_Some cur -> ulo = false) ->
  0 <= inline_depth p ->
  inline_depth p + inc_of cur ulo rest < 2 ^ 32 ->
  context (print_frames rest cur p ulo nctx).1.1 = context p ++ rest /\
  inline_depth (print_frames rest cur p ulo nctx).1.1 = inline_depth p + inc_of cur ulo rest /\
  (print_frames rest cur p ulo nctx).2 = (nctx + length rest)%nat /\
  collapse_recursive (print_frames rest cur p ulo nctx).1.1 = true.
Proof.
  induction rest as [|frame rest IH]; intros cur p ulo nctx Hc Hcur Hd Hb.
  - simpl. rewrite app_nil_r. destruct cur; simpl; repeat split; auto; lia.
  - cbn [print_frames].
    destruct cur as [method|].
    + (* inside the inner loop *)
      assert (ulo = false) as -> by (apply Hcur; eauto).
      simpl in Hb.
      destruct (decide (method = method_of frame)) as [e|ne].
      * rewrite bool_decide_eq_true_2 by (symmetry; exact e).
        set (p' := set_state (context p ++ [frame]) (inline_depth p) p).
        specialize (IH (Some method) p' false (S nctx)).
        destruct (print_frames rest (Some method) p' false (S nctx)) as [[q out] n].
        simpl in *. rewrite e in IH at 2 3.
        destruct IH as (I1 & I2 & I3 & I4); auto; try lia.
        rewrite I1, I2, I3, <- app_assoc; simpl; repeat split; auto; repeat case_decide; try congruence; lia.
      * rewrite bool_decide_eq_false_2 by (intros E; apply ne; symmetry; exact E).
        unfold open_frame. rewrite Hc. cbn iota beta zeta.
        pose proof (runs_after_bounds (method_of frame) rest) as Hr.
        set (p' := set_state (context p ++ [frame]) (wrap32 (inline_depth p + 1)) p).
        specialize (IH (Some (method_of frame)) p' false (S nctx)).
        destruct (print_frames rest (Some (method_of frame)) p' false (S nctx)) as [[q out] n].
        simpl in *. rewrite wrap32_small in IH by lia.
        destruct IH as (I1 & I2 & I3 & I4); auto; try lia.
        rewrite I1, I2, I3, <- app_assoc; simpl; repeat split; auto; repeat case_decide; try congruence; lia.
    + simpl in Hb. unfold open_frame. rewrite Hc.
      pose proof (runs_after_bounds (method_of frame) rest) as Hr.
      destruct ulo; cbn iota beta zeta.
      * set (p' := set_state (context p ++ [frame]) (inline_depth p) p).
        specialize (IH (Some (method_of frame)) p' false (S nctx)).
        destruct (print_frames rest (Some (method_of frame)) p' false (S nctx)) as [[q out] n].
        simpl in *.
        destruct IH as (I1 & I2 & I3 & I4); auto; try lia.
        rewrite I1, I2, I3, <- app_assoc; simpl; repeat split; auto; repeat case_decide; try congruence; lia.
      * set (p' := set_state (context p ++ [frame]) (wrap32 (inline_depth p + 1)) p).
        specialize (IH (Some (method_of frame)) p' false (S nctx)).
        destruct (print_frames rest (Some (method_of frame)) p' false (S nctx)) as [[q out] n].
        simpl in *. rewrite wrap32_small in IH by lia.
        destruct IH as (I1 & I2 & I3 & I4); auto; try lia.
        rewrite I1, I2, I3, <- app_assoc; simpl; repeat split; auto; repeat case_decide; try congruence; lia.
Qed.

Lemma matching_prefix_spec ctx : forall frames,
  (matching_prefix ctx frames <= length ctx)%nat /\
  (matching_prefix ctx frames <= length frames)%nat /\
  take (matching_prefix ctx frames) ctx = take (matching_prefix ctx frames) frames.
Proof.
  induction ctx as [|c ctx IH]; intros [|f frames]; simpl; try (repeat split; auto; lia).
  destruct (decide (c = f)) as [->|ne]; simpl; [|repeat split; auto; lia].
  destruct (IH frames) as (H1 & H2 & H3). rewrite H3. repeat split; auto; lia.
Qed.

Lemma take_eq_lookup (l1 l2 : list DILineInfo) k i :
  take k l1 = take k l2 -> (i < k)%nat -> l1 !! i = l2 !! i.
Proof.
  intros He Hi. rewrite <- (lookup_take_lt l1 k i Hi), <- (lookup_take_lt l2 k i Hi).
  now rewrite He.
Qed.

Lemma take_eq_le (l1 l2 : list DILineInfo) k j :
  take k l1 = take k l2 -> (j <= k)%nat -> take j l1 = take j l2.
Proof.
  intros He Hj. apply list_eq. intros i.
  destruct (decide (i < j)%nat) as [Hi|Hi].
  - rewrite !lookup_take_lt by exact Hi. apply (take_eq_lookup _ _ k); [exact He|lia].
  - rewrite !lookup_take_ge by lia. reflexivity.
Qed.

Lemma method_at_is_true v i m :
  method_at_is v i m = true <-> exists d, v !! i = Some d /\ method_of d = m.
Proof.
  unfold method_at_is. rewrite bool_decide_eq_true.
  destruct (v !! i) as [d|]; simpl; split.
  - intros [= E]. eauto.
  - intros (d' & [= <-] & E). now rewrite E.
  - discriminate.
  - intros (d' & E & _). discriminate.
Qed.

Lemma exclude_combined_spec ctx m n :
  (exclude_combined ctx m n <= n)%nat /\
  (exclude_combined ctx m n = O \/
   method_at_is ctx (pred (exclude_combined ctx m n)) m = false) /\
  (forall i, (exclude_combined ctx m n <= i < n)%nat -> method_at_is ctx i m = true).
Proof.
  induction n as [|n IH]; simpl.
  - repeat split; auto. intros i Hi. lia.
  - destruct (method_at_is ctx n m) eqn:E.
    + destruct IH as (H1 & H2 & H3). repeat split; auto.
      intros i Hi. destruct (decide (i = n)) as [->|ne]; [exact E|apply H3; lia].
    + repeat split; auto. intros i Hi. lia.
Qed.

Lemma same_method_at_lt p frames k :
  same_method_at p frames k = true ->
  (k < length (context p))%nat /\ (k < length frames)%nat.
Proof.
  unfold same_method_at.
  destruct (context p !! k) eqn:E1; [|discriminate].
  destruct (frames !! k) eqn:E2; [|discriminate].
  intros _. split; eapply lookup_lt_Some; eauto.
Qed.

Lemma line_only_check_spec p frames k ulo :
  collapse_recursive p = true ->
  line_only_check p frames (matching_prefix (context p) frames) = (k, ulo) ->
  (k <= length (context p))%nat /\ (k <= length frames)%nat /\
  take k (context p) = take k frames /\
  boundary (context p) k /\ boundary frames k /\
  (ulo = true -> (k < length (context p))%nat /\ (k < length frames)%nat).
Proof.
  intros Hc. unfold line_only_check. rewrite Hc.
  destruct (matching_prefix_spec (context p) frames) as (M1 & M2 & M3).
  set (k0 := matching_prefix (context p) frames) in *.
  assert (Hplain : (k0, same_method_at p frames k0) = (k, ulo) ->
    (k0 = O \/ exists a, context p !! pred k0 = Some a /\
       method_at_is frames k0 (method_of a) = false /\
       method_at_is (context p) k0 (method_of a) = false) ->
    (k <= length (context p))%nat /\ (k <= length frames)%nat /\
    take k (context p) = take k frames /\
    boundary (context p) k /\ boundary frames k /\
    (ulo = true -> (k < length (context p))%nat /\ (k < length frames)%nat)).
  { intros [= <- <-] Hk. split; [exact M1|]. split; [exact M2|]. split; [exact M3|].
    split; [|split; [|apply same_method_at_lt]].
    - destruct (decide (k0 = O)) as [E0|Hnz]; [left; exact E0|].
      destruct Hk as [E0|(a & Ha & _ & Hn)]; [contradiction|]. right.
      destruct (context p !! k0) as [b|] eqn:Eb.
      + right. exists a, b. repeat split; auto. intros E.
        assert (method_at_is (context p) k0 (method_of a) = true) as Ht
          by (apply method_at_is_true; eauto).
        congruence.
      + left. apply lookup_ge_None. exact Eb.
    - destruct (decide (k0 = O)) as [E0|Hnz]; [left; exact E0|].
      destruct Hk as [E0|(a & Ha & Hn & _)]; [contradiction|]. right.
      destruct (frames !! k0) as [b|] eqn:Eb.
      + right. exists a, b. split; [|split; [reflexivity|]].
        * rewrite <- (take_eq_lookup _ _ _ (pred k0) M3) by lia. exact Ha.
        * intros E.
          assert (method_at_is frames k0 (method_of a) = true) as Ht
            by (apply method_at_is_true; eauto).
          congruence.
      + left. apply lookup_ge_None. exact Eb. }
  destruct k0 as [|n] eqn:Ek0.
  - intros H. apply Hplain; auto.
  - destruct (context p !! n) as [a|] eqn:Ea; simpl.
    2:{ apply lookup_ge_None in Ea. lia. }
    destruct (method_at_is frames (S n) (method_of a) || method_at_is (context p) (S n) (method_of a)) eqn:Econd.
    + clear Hplain.
      assert (method_at_is (context p) n (method_of a) = true) as Hn
        by (apply method_at_is_true; eauto).
      simpl. rewrite Hn. intros [= <- <-].
      destruct (exclude_combined_spec (context p) (method_of a) n) as (X1 & X2 & X3).
      set (k := exclude_combined (context p) (method_of a) n) in *.
      assert (Hall : forall i, (k <= i < S n)%nat -> method_at_is (context p) i (method_of a) = true).
      { intros i Hi. destruct (decide (i = n)) as [->|ne]; [exact Hn|apply X3; lia]. }
      assert (Hk : (k <= n)%nat) by exact X1.
      assert (Hbc : boundary (context p) k).
      { destruct X2 as [->|X2]; [left; reflexivity|]. right; right.
        pose proof (Hall k ltac:(lia)) as Hkk. apply method_at_is_true in Hkk.
        destruct Hkk as (b & Hb & Hmb).
        destruct (context p !! pred k) as [a'|] eqn:Ea'.
        2:{ apply lookup_ge_None in Ea'. lia. }
        exists a', b. repeat split; auto. intros E.
        assert (method_at_is (context p) (pred k) (method_of a) = true) as Ht.
        { apply method_at_is_true. exists a'. split; [exact Ea'|congruence]. }
        congruence. }
      repeat split; try lia.
      * apply (take_eq_le _ _ (S n)); [exact M3|lia].
      * exact Hbc.
      * destruct Hbc as [->|[Hbc|(a' & b & Ha' & Hb & Hne)]]; [left; reflexivity|lia|].
        right; right. exists a', b.
        rewrite <- (take_eq_lookup _ _ _ (pred k) M3) by lia.
        rewrite <- (take_eq_lookup _ _ _ k M3) by lia. auto.
    + intros H. apply Hplain; [exact H|]. right. exists a. simpl.
      apply orb_false_iff in Econd. destruct Econd. auto.
Qed.


Lemma close_frames_spec p k ulo :
  depth_inv p ->
  (k <= length (context p))%nat ->
  boundary (context p) k ->
  (ulo = true -> (k < length (context p))%nat) ->
  context (close_frames p k ulo).1 = take k (context p) /\
  inline_depth (close_frames p k ulo).1 =
    runs (take k (context p)) + (if ulo then 1 else 0) /\
  collapse_recursive (close_frames p k ulo).1 = true.
Proof.
  intros (Hc & Hd & Hl) Hk Hb Hu. unfold close_frames.
  pose proof (runs_split _ _ Hb) as Hs.
  pose proof (runs_bounds (take k (context p))) as Ht.
  rewrite length_take in Ht.
  destruct (decide (k < length (context p))%nat) as [Hlt|Hge].
  - unfold count_npops. rewrite Hc.
    pose proof (length_drop (context p) k) as Hld.
    destruct (drop k (context p)) as [|d rest] eqn:Ed; [simpl in Hld; lia|].
    simpl in Hld.
    rewrite npops_loop_runs by lia.
    change (1 + runs_after (method_of d) rest) with (runs (d :: rest)) in *.
    pose proof (runs_bounds (d :: rest)) as Hr. pose proof (runs_cons_pos d rest) as Hp.
    simpl length in Hr.
    set (R := runs (d :: rest)) in *. clearbody R.
    destruct ulo.
    + rewrite wrap32_small by lia.
      destruct (decide (0 < R - 1)); simpl.
      * rewrite wrap32_small by lia. repeat split; auto; lia.
      * repeat split; auto; lia.
    + destruct (decide (0 < R)); [|lia]. simpl.
      rewrite wrap32_small by lia. repeat split; auto; lia.
  - assert (k = length (context p)) as -> by lia.
    destruct ulo; [specialize (Hu eq_refl); lia|].
    simpl. rewrite firstn_all. rewrite firstn_all in Hs.
    rewrite drop_all in Hs. simpl in Hs. repeat split; auto; lia.
Qed.

Lemma nframes_of_le DI : (nframes_of DI <= length DI)%nat.
Proof.
  unfold nframes_of, wrap32.
  pose proof (Z.mod_le (Z.of_nat (length DI)) (2 ^ 32)) as H.
  pose proof (Z.mod_pos_bound (Z.of_nat (length DI)) (2 ^ 32)) as H'. lia.
Qed.

Lemma length_frames_of DI : length (frames_of DI) = nframes_of DI.
Proof.
  unfold frames_of. rewrite length_reverse, length_take.
  pose proof (nframes_of_le DI). lia.
Qed.

Lemma nframes_of_bound DI : Z.of_nat (nframes_of DI) < 2 ^ 32.
Proof.
  unfold nframes_of, wrap32.
  pose proof (Z.mod_pos_bound (Z.of_nat (length DI)) (2 ^ 32)) as H'. lia.
Qed.

Lemma emit_lineinfo_body_spec p DI :
  depth_inv p ->
  context (emit_lineinfo_body p DI).1.1 = frames_of DI /\
  inline_depth (emit_lineinfo_body p DI).1.1 = runs (frames_of DI) /\
  (emit_lineinfo_body p DI).2 = length (frames_of DI) /\
  collapse_recursive (emit_lineinfo_body p DI).1.1 = true.
Proof.
  intros Hinv. unfold emit_lineinfo_body.
  set (frames := frames_of DI).
  destruct (line_only_check p frames (matching_prefix (context p) frames))
    as [k ulo] eqn:Ek.
  destruct Hinv as (Hc & Hd & Hl).
  destruct (line_only_check_spec p frames k ulo Hc Ek) as (K1 & K2 & K3 & K4 & K5 & K6).
  destruct (close_frames_spec p k ulo) as (C1 & C2 & C3);
    [repeat split; auto|exact K1|exact K4|intros E; apply K6; exact E|].
  destruct (close_frames p k ulo) as [p1 closing]. simpl in C1, C2, C3.
  pose proof (runs_split _ _ K5) as Hs.
  pose proof (runs_bounds frames) as Hrf.
  pose proof (runs_bounds (take k frames)) as Hrt.
  pose proof (length_frames_of DI) as Hlf. fold frames in Hlf.
  pose proof (nframes_of_bound DI) as Hnb.
  rewrite K3 in C1, C2.
  assert (Hinc : inc_of None ulo (drop k frames) = runs (drop k frames) - (if ulo then 1 else 0)).
  { pose proof (length_drop frames k) as Hld.
    destruct (drop k frames) as [|d rest]; simpl.
    - destruct ulo; [|lia]. specialize (K6 eq_refl). simpl in Hld. lia.
    - destruct ulo; lia. }
  destruct (print_frames_spec (drop k frames) None p1 ulo k) as (P1 & P2 & P3 & P4).
  - exact C3.
  - intros [x Hx]. discriminate.
  - rewrite C2. destruct ulo; lia.
  - rewrite C2, Hinc. lia.
  - destruct (print_frames (drop k frames) None p1 ulo k) as [[p2 opening] n].
    simpl in *. rewrite P1, P2, P3, C1, C2, Hinc, take_drop, length_drop.
    repeat split; auto; lia.
Qed.

Lemma depth_inv_new ls bo v : depth_inv (SetVerbosity v (new_printer ls bo)).
Proof.
  unfold SetVerbosity. repeat case_decide; repeat split; simpl; auto; lia.
Qed.

Lemma emit_lineinfo_inv p DI : depth_inv p -> depth_inv (emit_lineinfo p DI).1.
Proof.
  intros Hinv. unfold emit_lineinfo.
  destruct (decide (verbosity p = output_none)); [exact Hinv|].
  destruct (decide (nframes_of DI = O)); [exact Hinv|].
  destruct (emit_lineinfo_body_spec p DI Hinv) as (B1 & B2 & B3 & B4).
  destruct (emit_lineinfo_body p DI) as [[p' out] nn]. simpl in *.
  repeat split; auto.
  - now rewrite B1, B2.
  - rewrite B1, length_frames_of. apply nframes_of_bound.
Qed.

Lemma emit_finish_inv p : depth_inv p -> depth_inv (emit_finish p).1.
Proof. intros (Hc & _ & _). repeat split; simpl; auto; lia. Qed.

Lemma run_calls_inv calls : forall p, depth_inv p -> depth_inv (run_calls p calls).1.
Proof.
  induction calls as [|c calls IH]; intros p Hinv; simpl; [exact Hinv|].
  assert (H1 : depth_inv (call_printer p c).1)
    by (destruct c; [apply emit_lineinfo_inv|apply emit_finish_inv]; exact Hinv).
  destruct (call_printer p c) as [p1 out1]. specialize (IH p1 H1).
  destruct (run_calls p1 calls) as [p2 out2]. exact IH.
Qed.

Lemma emit_lineinfo_checked_ok p DI :
  depth_inv p -> emit_lineinfo_checked p DI = Some (emit_lineinfo p DI).
Proof.
  intros Hinv. unfold emit_lineinfo_checked, emit_lineinfo.
  destruct (decide (verbosity p = output_none)); [reflexivity|].
  destruct (decide (nframes_of DI = O)) as [|Hnz]; [reflexivity|].
  destruct (emit_lineinfo_body_spec p DI Hinv) as (B1 & B2 & B3 & B4).
  pose proof (length_frames_of DI) as Hlf.
  pose proof (nframes_of_bound DI) as Hnb.
  destruct (emit_lineinfo_body p DI) as [[p' out] nn]. simpl in *.
  rewrite B1, B2, B3, B4, firstn_all.
  destruct (frames_of DI) as [|d rest]; [simpl in Hlf; lia|].
  simpl drop. rewrite drop_0. rewrite depth2_loop_runs by (simpl in Hlf; lia).
  simpl. rewrite decide_True by reflexivity. reflexivity.
Qed.

(** C3: after every sequence of calls of the printer ([emit_lineinfo] on any
    frame stacks, empty or not, and [emit_finish]), started from a printer
    as the constructor and [SetVerbosity] leave it, [inline_depth] is the
    number of runs of frames of one method name in [context], the names
    compared after [rtrim(';')]; the same holds after one more
    [emit_lineinfo], and the assertion at its end passes: the build with
    assertions returns what the build without them returns. *)
Theorem inline_depth_counts_runs (ls : string) (bo : bool) (v : string)
    (calls : list PrinterCall) (DI : list DILineInfo) :
  let p := (run_calls (SetVerbosity v (new_printer ls bo)) calls).1 in
  inline_depth p = runs (context p) /\
  inline_depth (emit_lineinfo p DI).1 = runs (context (emit_lineinfo p DI).1) /\
  emit_lineinfo_checked p DI = Some (emit_lineinfo p DI).
Proof.
  intros p.
  assert (Hinv : depth_inv p) by (apply run_calls_inv, depth_inv_new).
  split; [apply Hinv|]. split.
  - apply (emit_lineinfo_inv p DI Hinv).
  - apply emit_lineinfo_checked_ok. exact Hinv.
Qed.

(** ** The line-info printer: worked sequences of calls *)






Lemma emit_lineinfo_unfold p DI :
  verbosity p = output_source -> nframes_of DI <> O ->
  emit_lineinfo p DI = ((emit_lineinfo_body p DI).1.1, (emit_lineinfo_body p DI).1.2).
Proof.
  intros Hv Hn. unfold emit_lineinfo. rewrite Hv.
  destruct (decide (output_source = output_none)) as [H|_]; [discriminate H|].
  destruct (decide (nframes_of DI = O)) as [H|_]; [contradiction|].
  destruct (emit_lineinfo_body p DI) as [[p' out] n]. reflexivity.
Qed.

Lemma exclude_combined_all ctx f n :
  Forall (fun d => method_of d = f) ctx -> (n <= length ctx)%nat ->
  exclude_combined ctx f n = O.
Proof.
  intros Hall. induction n as [|n IH]; intros Hn; [reflexivity|].
  simpl. destruct (lookup_lt_is_Some_2 ctx n ltac:(lia)) as [d Hd].
  assert (method_at_is ctx n f = true) as ->.
  { apply method_at_is_true. exists d. split; [exact Hd|].
    rewrite Forall_lookup in Hall. exact (Hall n d Hd). }
  apply IH. lia.
Qed.

Lemma line_only_check_same_method p frames f :
  collapse_recursive p = true ->
  Forall (fun d => method_of d = f) (context p) ->
  Forall (fun d => method_of d = f) frames ->
  context p <> [] -> frames <> [] -> length (context p) <> length frames ->
  line_only_check p frames (matching_prefix (context p) frames) = (O, true).
Proof.
  intros Hc Hctx Hfr Hne1 Hne2 Hlen. unfold line_only_check. rewrite Hc.
  destruct (matching_prefix_spec (context p) frames) as (M1 & M2 & _).
  rewrite Forall_lookup in Hctx, Hfr.
  destruct (matching_prefix (context p) frames) as [|n] eqn:Ek.
  - unfold same_method_at. rewrite Hc.
    destruct (context p) as [|c ctx]; [contradiction|].
    destruct frames as [|d fr]; [contradiction|]. cbn.
    rewrite (Hctx O c eq_refl), (Hfr O d eq_refl).
    rewrite bool_decide_eq_true_2 by reflexivity. reflexivity.
  - destruct (lookup_lt_is_Some_2 (context p) n ltac:(lia)) as [c Hcn].
    rewrite Hcn. cbn. rewrite (Hctx n c Hcn).
    assert (method_at_is frames (S n) f || method_at_is (context p) (S n) f = true) as ->.
    { apply orb_true_iff.
      destruct (decide (S n < length frames)%nat) as [Hl|Hl].
      - left. destruct (lookup_lt_is_Some_2 frames (S n) Hl) as [d Hd].
        apply method_at_is_true. exists d. split; [exact Hd|exact (Hfr _ _ Hd)].
      - right. destruct (lookup_lt_is_Some_2 (context p) (S n) ltac:(lia)) as [d Hd].
        apply method_at_is_true. exists d. split; [exact Hd|exact (Hctx _ _ Hd)]. }
    change (exclude_combined (context p) f (S n)) with
      (if method_at_is (context p) n f then exclude_combined (context p) f n else S n).
    rewrite exclude_combined_all; [|apply Forall_lookup; exact Hctx|lia].
    assert (method_at_is (context p) n f = true) as ->
      by (apply method_at_is_true; exists c; split; [exact Hcn|exact (Hctx _ _ Hcn)]).
    reflexivity.
Qed.

Ltac side_cond := first [lia | reflexivity | discriminate | congruence].

Ltac decide_step :=
  match goal with
  | |- context [@decide ?P ?d] =>
      first [ rewrite (@decide_True _ P d) by side_cond
            | rewrite (@decide_False _ P d) by side_cond ]
  | |- context [@bool_decide ?P ?d] =>
      first [ rewrite (@bool_decide_eq_true_2 P d) by side_cond
            | rewrite (@bool_decide_eq_false_2 P d) by side_cond ]
  end.

Ltac decide_all := repeat decide_step.

Ltac eval_printer :=
  unfold close_frames, open_frame, count_npops, inlining_indent,
         line_only_check, same_method_at, method_at_is;
  repeat (progress (cbn - [line_suffix decide bool_decide]; decide_all)).

(** C5: three calls whose stacks are f, f->f and f->f->f (any files and
    lines, every frame of method [f]) on a fresh printer, which collapses
    recursion.  The first call prints the one line that opens a frame (with
    the glyph when the outer frame is bracketed, as in the disassembler).
    Each later call prints one line without opening glyph, " @ file[:line]
    within `f`" followed by a same-line " @ file:line" for every deeper
    frame.  [inline_depth] is 1 after each call: it rises once, at the first
    call. *)
Theorem recursion_collapses (ls : string) (bo : bool) (f : string)
    (a b1 b2 c1 c2 c3 : DILineInfo) :
  method_of a = f -> method_of b1 = f -> method_of b2 = f ->
  method_of c1 = f -> method_of c2 = f -> method_of c3 = f ->
  let r1 := emit_lineinfo (new_printer ls bo) [a] in
  let r2 := emit_lineinfo r1.1 [b2; b1] in
  let r3 := emit_lineinfo r2.1 [c3; c2; c1] in
  r1.2 = [TLineStart; TIndent 0] ++ (if bo then [TOpen] else []) ++
         [TAt (FileName a)] ++ line_suffix a ++ [TWithin f; TNewline] /\
  r2.2 = [TLineStart; TIndent (indent1 bo); TAt (FileName b1)] ++ line_suffix b1 ++
         [TWithin f; TAt (FileName b2); TLine (Line b2); TNewline] /\
  r3.2 = [TLineStart; TIndent (indent1 bo); TAt (FileName c1)] ++ line_suffix c1 ++
         [TWithin f; TAt (FileName c2); TLine (Line c2);
          TAt (FileName c3); TLine (Line c3); TNewline] /\
  (context r1.1 = [a] /\ context r2.1 = [b1; b2] /\ context r3.1 = [c1; c2; c3]) /\
  (inline_depth r1.1 = 1 /\ inline_depth r2.1 = 1 /\ inline_depth r3.1 = 1).
Proof.
  intros Ha Hb1 Hb2 Hc1 Hc2 Hc3 r1 r2 r3.
  assert (E1 : r1 = (set_state [a] 1 (new_printer ls bo),
                     [TLineStart; TIndent 0] ++ (if bo then [TOpen] else []) ++
                     [TAt (FileName a)] ++ line_suffix a ++ [TWithin f; TNewline])).
  { unfold r1. rewrite emit_lineinfo_unfold by (reflexivity || (vm_compute; discriminate)).
    unfold emit_lineinfo_body, frames_of.
    change (nframes_of [a]) with 1%nat.
    eval_printer. rewrite Ha. destruct bo; cbn - [line_suffix]; rewrite <- ?app_assoc; reflexivity. }
  assert (E2 : r2 = (set_state [b1; b2] 1 (new_printer ls bo),
                     [TLineStart; TIndent (indent1 bo); TAt (FileName b1)] ++ line_suffix b1 ++
                     [TWithin f; TAt (FileName b2); TLine (Line b2); TNewline])).
  { unfold r2. rewrite E1. cbn [fst].
    rewrite emit_lineinfo_unfold by (reflexivity || (vm_compute; discriminate)).
    unfold emit_lineinfo_body, frames_of.
    change (nframes_of [b2; b1]) with 2%nat.
    change (reverse (take 2 [b2; b1])) with [b1; b2].
    rewrite (line_only_check_same_method _ _ f);
      [|reflexivity|repeat constructor; assumption|repeat constructor; assumption
       |discriminate|discriminate|discriminate].
    eval_printer. rewrite ?Ha, ?Hb1, ?Hb2. eval_printer.
    destruct bo; cbn - [line_suffix]; rewrite <- ?app_assoc; reflexivity. }
  assert (E3 : r3 = (set_state [c1; c2; c3] 1 (new_printer ls bo),
                     [TLineStart; TIndent (indent1 bo); TAt (FileName c1)] ++ line_suffix c1 ++
                     [TWithin f; TAt (FileName c2); TLine (Line c2);
                      TAt (FileName c3); TLine (Line c3); TNewline])).
  { unfold r3. rewrite E2. cbn [fst].
    rewrite emit_lineinfo_unfold by (reflexivity || (vm_compute; discriminate)).
    unfold emit_lineinfo_body, frames_of.
    change (nframes_of [c3; c2; c1]) with 3%nat.
    change (reverse (take 3 [c3; c2; c1])) with [c1; c2; c3].
    rewrite (line_only_check_same_method _ _ f);
      [|reflexivity|repeat constructor; assumption|repeat constructor; assumption
       |discriminate|discriminate|discriminate].
    eval_printer. rewrite ?Hb1, ?Hb2, ?Hc1, ?Hc2, ?Hc3. eval_printer.
    destruct bo; cbn - [line_suffix]; rewrite <- ?app_assoc; reflexivity. }
  rewrite E3, E2, E1. cbn [fst snd context inline_depth set_state]. repeat split; reflexivity.
Qed.

(** C6: the calls with stacks [A,B], [A], [A,C] (methods pairwise distinct) on
    a fresh printer print: the line that opens A and the line that opens B;
    then one closing line with one closing glyph; then the line that opens
    C.  The context is [A,B] after the first call, [A] from the closing step
    of the second call until the closing step of the third, and [A,C] after
    the third: B has left it before C enters. *)
Theorem push_pop_sequence (ls : string) (bo : bool) (a b c : DILineInfo) :
  method_of a <> method_of b -> method_of a <> method_of c ->
  method_of b <> method_of c ->
  let r1 := emit_lineinfo (new_printer ls bo) [b; a] in
  let r2 := emit_lineinfo r1.1 [a] in
  let r3 := emit_lineinfo r2.1 [c; a] in
  r1.2 = [TLineStart; TIndent 0] ++ (if bo then [TOpen] else []) ++
         [TAt (FileName a)] ++ line_suffix a ++
         [TWithin (method_of a); TNewline;
          TLineStart; TIndent (indent1 bo); TOpen; TAt (FileName b)] ++ line_suffix b ++
         [TWithin (method_of b); TNewline] /\
  r2.2 = [TLineStart; TIndent (indent1 bo); TPops 1; TNewline] /\
  r3.2 = [TLineStart; TIndent (indent1 bo); TOpen; TAt (FileName c)] ++ line_suffix c ++
         [TWithin (method_of c); TNewline] /\
  (context r1.1 = [a; b] /\
   context_after_closing r1.1 [a] = [a] /\ context r2.1 = [a] /\
   context_after_closing r2.1 [c; a] = [a] /\ context r3.1 = [a; c]) /\
  (inline_depth r1.1 = 2 /\ inline_depth r2.1 = 1 /\ inline_depth r3.1 = 2).
Proof.
  intros Hab Hac Hbc r1 r2 r3.
  assert (Hba : method_of b <> method_of a) by congruence.
  assert (Hca : method_of c <> method_of a) by congruence.
  assert (E1 : r1 = (set_state [a; b] 2 (new_printer ls bo),
     [TLineStart; TIndent 0] ++ (if bo then [TOpen] else []) ++
     [TAt (FileName a)] ++ line_suffix a ++
     [TWithin (method_of a); TNewline;
      TLineStart; TIndent (indent1 bo); TOpen; TAt (FileName b)] ++ line_suffix b ++
     [TWithin (method_of b); TNewline])).
  { unfold r1. rewrite emit_lineinfo_unfold by (reflexivity || (vm_compute; discriminate)).
    unfold emit_lineinfo_body, frames_of.
    change (nframes_of [b; a]) with 2%nat.
    change (reverse (take 2 [b; a])) with [a; b].
    eval_printer. destruct bo; cbn - [line_suffix]; rewrite <- ?app_assoc; reflexivity. }
  assert (C2 : context_after_closing (set_state [a; b] 2 (new_printer ls bo)) [a] = [a]).
  { unfold context_after_closing, frames_of.
    change (nframes_of [a]) with 1%nat. change (reverse (take 1 [a])) with [a].
    eval_printer. reflexivity. }
  assert (E2 : r2 = (set_state [a] 1 (new_printer ls bo),
                     [TLineStart; TIndent (indent1 bo); TPops 1; TNewline])).
  { unfold r2. rewrite E1. cbn [fst].
    rewrite emit_lineinfo_unfold by (reflexivity || (vm_compute; discriminate)).
    unfold emit_lineinfo_body, frames_of.
    change (nframes_of [a]) with 1%nat. change (reverse (take 1 [a])) with [a].
    eval_printer. destruct bo; reflexivity. }
  assert (C3 : context_after_closing (set_state [a] 1 (new_printer ls bo)) [c; a] = [a]).
  { unfold context_after_closing, frames_of.
    change (nframes_of [c; a]) with 2%nat. change (reverse (take 2 [c; a])) with [a; c].
    eval_printer. reflexivity. }
  assert (E3 : r3 = (set_state [a; c] 2 (new_printer ls bo),
     [TLineStart; TIndent (indent1 bo); TOpen; TAt (FileName c)] ++ line_suffix c ++
     [TWithin (method_of c); TNewline])).
  { unfold r3. rewrite E2. cbn [fst].
    rewrite emit_lineinfo_unfold by (reflexivity || (vm_compute; discriminate)).
    unfold emit_lineinfo_body, frames_of.
    change (nframes_of [c; a]) with 2%nat. change (reverse (take 2 [c; a])) with [a; c].
    eval_printer. destruct bo; cbn - [line_suffix]; rewrite <- ?app_assoc; reflexivity. }
  rewrite E3, E2, E1. cbn [fst snd]. rewrite C2, C3.
  cbn [context inline_depth set_state]. repeat split; reflexivity.
Qed.

(** C8: [emit_lineinfo] on an empty frame stack writes nothing and leaves the
    printer (context, inline depth and configuration) as it was, whatever
    the state before. *)
Theorem empty_stack_is_skipped (p : DILineInfoPrinter) :
  emit_lineinfo p [] = (p, []) /\
  render (LineStart p) (emit_lineinfo p []).2 = "".
Proof.
  assert (E : emit_lineinfo p [] = (p, [])).
  { unfold emit_lineinfo. destruct (decide (verbosity p = output_none)); reflexivity. }
  rewrite E. split; reflexivity.
Qed.

(** C9: [SetVerbosity] with a string other than "default", "source" and
    "none" leaves the printer unchanged; on a fresh printer the verbosity
    stays [output_source], so the printer equals the one given "source" or
    "default" and [emit_lineinfo] does the same on both. *)
Theorem SetVerbosity_unrecognized (c : string) (p : DILineInfoPrinter)
    (ls : string) (bo : bool) (DI : list DILineInfo) :
  c <> "default" -> c <> "source" -> c <> "none" ->
  SetVerbosity c p = p /\
  verbosity (SetVerbosity c (new_printer ls bo)) = output_source /\
  SetVerbosity c (new_printer ls bo) = SetVerbosity "source" (new_printer ls bo) /\
  SetVerbosity c (new_printer ls bo) = SetVerbosity "default" (new_printer ls bo) /\
  emit_lineinfo (SetVerbosity c (new_printer ls bo)) DI =
    emit_lineinfo (SetVerbosity "source" (new_printer ls bo)) DI.
Proof.
  intros H1 H2 H3.
  assert (E : forall q, SetVerbosity c q = q).
  { intros q. unfold SetVerbosity.
    destruct (decide ("default" = c)) as [<-|_]; [contradiction|].
    destruct (decide ("source" = c)) as [<-|_]; [contradiction|].
    destruct (decide ("none" = c)) as [<-|_]; [contradiction|]. reflexivity. }
  rewrite !E. repeat split; reflexivity.
Qed.

Lemma recursion_collapses_witness :
  let r1 := emit_lineinfo (new_printer "; " true) [demo_f 3] in
  let r2 := emit_lineinfo r1.1 [demo_f 5; demo_f 3] in
  let r3 := emit_lineinfo r2.1 [demo_f 8; demo_f 5; demo_f 3] in
  render "; " (r1.2 ++ r2.2 ++ r3.2) =
    "; ┌ @ fib.jl:3 within `fib`" +:+ String "010" "" +:+
    "; │ @ fib.jl:3 within `fib` @ fib.jl:5" +:+ String "010" "" +:+
    "; │ @ fib.jl:3 within `fib` @ fib.jl:5 @ fib.jl:8" +:+ String "010" "" /\
  inline_depth r3.1 = 1.
Proof.
  destruct (recursion_collapses "; " true "fib" (demo_f 3) (demo_f 3) (demo_f 5)
              (demo_f 3) (demo_f 5) (demo_f 8)
              eq_refl eq_refl eq_refl eq_refl eq_refl eq_refl)
    as (H1 & H2 & H3 & _ & (_ & _ & D3)).
  cbv zeta. rewrite H1, H2, H3, D3. split; vm_compute; reflexivity.
Defined.

Lemma push_pop_sequence_witness :
  let r1 := emit_lineinfo (new_printer "; " true) [demo_B; demo_A] in
  let r2 := emit_lineinfo r1.1 [demo_A] in
  let r3 := emit_lineinfo r2.1 [demo_C; demo_A] in
  render "; " r1.2 = "; ┌ @ a.jl:1 within `A`" +:+ String "010" "" +:+
                     "; │┌ @ b.jl:7 within `B`" +:+ String "010" "" /\
  render "; " r2.2 = "; │└" +:+ String "010" "" /\
  render "; " r3.2 = "; │┌ @ c.jl:9 within `C`" +:+ String "010" "".
Proof.
  assert (Hab : method_of demo_A <> method_of demo_B) by (vm_compute; discriminate).
  assert (Hac : method_of demo_A <> method_of demo_C) by (vm_compute; discriminate).
  assert (Hbc : method_of demo_B <> method_of demo_C) by (vm_compute; discriminate).
  destruct (push_pop_sequence "; " true demo_A demo_B demo_C Hab Hac Hbc)
    as (H1 & H2 & H3 & _).
  cbv zeta. rewrite H1, H2, H3. repeat split; vm_compute; reflexivity.
Defined.

(** The text of a run: a frame of [A] with [B] inlined, then [A] alone, then
    the end of the function. *)
Example render_open_close :
  render "; " (run_calls (new_printer "; " true)
                 [CallLineinfo [demo_B; demo_A]; CallLineinfo [demo_A]; CallFinish]).2 =
  "; ┌ @ a.jl:1 within `A`" +:+ String "010" "" +:+
  "; │┌ @ b.jl:7 within `B`" +:+ String "010" "" +:+
  "; │└" +:+ String "010" "" +:+
  "; └" +:+ String "010" "".
Proof. vm_compute. reflexivity. Qed.

Lemma SetVerbosity_unrecognized_witness :
  SetVerbosity "verbose" (new_printer "; " true) = new_printer "; " true.
Proof.
  assert (H1 : "verbose" <> "default") by discriminate.
  assert (H2 : "verbose" <> "source") by discriminate.
  assert (H3 : "verbose" <> "none") by discriminate.
  exact (proj1 (SetVerbosity_unrecognized "verbose" (new_printer "; " true)
                  "; " true [] H1 H2 H3)).
Defined.

(** ** The symbol table *)




Section SymbolTableFacts.

Variable object : option (list SymbolRef).
Variable lookupLocalPC : Z -> option string.
Variables (Fptr Fsize slide : Z).

Lemma record_all_ip addrs st : ip (record_all addrs st) = ip st.
Proof. induction addrs as [|a addrs IH]; simpl; auto. Qed.

Lemma record_all_lookup addrs st addr :
  addr ∈ addrs -> Table (record_all addrs st) !! addr = Some "".
Proof.
  induction addrs as [|a addrs IH]; intros Hin.
  - inversion Hin.
  - simpl. destruct (decide (a = addr)) as [->|ne].
    + apply lookup_insert_eq.
    + rewrite lookup_insert_ne by exact ne. apply IH.
      apply elem_of_cons in Hin. destruct Hin as [->|Hin]; [contradiction|exact Hin].
Qed.

Lemma record_all_lookup_not addrs st addr :
  addr ∉ addrs -> Table (record_all addrs st) !! addr = Table st !! addr.
Proof.
  induction addrs as [|a addrs IH]; intros Hin; [reflexivity|].
  simpl. apply not_elem_of_cons in Hin. destruct Hin as [ne Hin].
  rewrite lookup_insert_ne by (intros E; apply ne; symmetry; exact E). apply IH, Hin.
Qed.

Lemma createSymbols_lookup st addr :
  Table (createSymbols lookupLocalPC Fptr Fsize st) !! addr =
  symbol_for lookupLocalPC Fptr Fsize (ip st) addr <$> Table st !! addr.
Proof.
  unfold createSymbols. cbn [Table]. rewrite map_lookup_imap.
  destruct (Table st !! addr); reflexivity.
Qed.

Lemma symbol_for_in_region i addr old :
  0 <= Fptr -> 0 <= Fsize -> Fptr + Fsize < 2 ^ 64 ->
  Fptr <= addr < Fptr + Fsize ->
  symbol_for lookupLocalPC Fptr Fsize i addr old = "L" +:+ pretty (wrap64 (addr - i)).
Proof.
  intros H0 H1 H2 Hin. unfold symbol_for.
  rewrite (wrap64_small (Fptr + Fsize)) by lia.
  rewrite decide_True by lia. reflexivity.
Qed.

Lemma symbol_for_outside i addr old :
  0 <= Fptr -> 0 <= Fsize -> Fptr + Fsize < 2 ^ 64 ->
  ~ (Fptr <= addr < Fptr + Fsize) ->
  symbol_for lookupLocalPC Fptr Fsize i addr old =
  match lookupLocalPC addr with
  | Some global => if decide (global = "") then old else global
  | None => old
  end.
Proof.
  intros H0 H1 H2 Hout. unfold symbol_for.
  rewrite (wrap64_small (Fptr + Fsize)) by lia.
  rewrite decide_False by lia. reflexivity.
Qed.


Lemma c_str_label s : c_str_or_null ("L" +:+ s) = Some ("L" +:+ s).
Proof. reflexivity. Qed.

(** The name [createSymbols] gives a recorded address. *)
Lemma createSymbols_recorded (addrs : list Z) (addr : Z) :
  0 <= Fptr -> 0 <= Fsize -> Fptr + Fsize < 2 ^ 64 ->
  addr ∈ addrs ->
  Table (createSymbols lookupLocalPC Fptr Fsize
           (setIP Fptr (record_all addrs (mkTable ∅ 0)))) !! addr =
  Some (if decide (Fptr <= addr < Fptr + Fsize) then "L" +:+ pretty (addr - Fptr)
        else match lookupLocalPC addr with
             | Some global => if decide (global = "") then "" else global
             | None => ""
             end).
Proof.
  intros H0 H1 H2 Hin. rewrite createSymbols_lookup. cbn [setIP Table ip].
  rewrite (record_all_lookup _ _ _ Hin). cbn [fmap option_fmap option_map].
  f_equal. case_decide as Hr.
  - rewrite symbol_for_in_region by assumption. rewrite wrap64_small by lia. reflexivity.
  - rewrite symbol_for_outside by assumption. reflexivity.
Qed.

(** C1: for a region that does not wrap around the address space, and every
    address recorded in pass 0, [createSymbols] run with the instruction
    pointer at the region base names the address "L" followed by its offset
    from the instruction pointer when it lies in [Fptr, Fptr + Fsize);
    otherwise by the symbolicator's answer when that is not empty; otherwise
    the name stays empty. *)
Theorem createSymbols_names (addrs : list Z) (addr : Z) :
  0 <= Fptr -> 0 <= Fsize -> Fptr + Fsize < 2 ^ 64 ->
  addr ∈ addrs ->
  Table (createSymbols lookupLocalPC Fptr Fsize
           (setIP Fptr (record_all addrs (mkTable ∅ 0)))) !! addr =
  Some (if decide (Fptr <= addr < Fptr + Fsize) then "L" +:+ pretty (addr - Fptr)
        else match lookupLocalPC addr with
             | Some global => if decide (global = "") then "" else global
             | None => ""
             end).
Proof. apply createSymbols_recorded. Qed.

Lemma lookupSymbolName_keeps (st : SymbolTable) (addr : Z) :
  Table st ⊆ Table (lookupSymbolName object lookupLocalPC slide addr st).1.
Proof.
  unfold lookupSymbolName. destruct (Table st !! addr) eqn:E; cbn [fst Table].
  - reflexivity.
  - apply insert_subseteq. exact E.
Qed.





(** C2 (corrected statement): after [createSymbols], [lookupSymbolName] answers a
    recorded address with the name [createSymbols] gave it (the rule of
    finalize).  For an address that was not recorded it makes no offset
    label: the name is the object file's symbol at [addr + slide] when there
    is one, else the symbolicator's answer when it has one, else empty; the
    result is put in the table, and the same lookup again returns the same
    answer and leaves the table as it is. *)
Theorem lookupSymbolName_on_demand (addrs : list Z) (addr : Z) :
  0 <= Fptr -> 0 <= Fsize -> Fptr + Fsize < 2 ^ 64 ->
  let st := createSymbols lookupLocalPC Fptr Fsize
              (setIP Fptr (record_all addrs (mkTable ∅ 0))) in
  let r := lookupSymbolName object lookupLocalPC slide addr st in
  let local_name := getSymbolNameAt object (wrap64 (addr + slide)) in
  (addr ∈ addrs ->
     r.1 = st /\ r.2 = finalize_rule lookupLocalPC Fptr Fsize Fptr addr) /\
  (addr ∉ addrs ->
     r.2 = (if decide (local_name = "") then
              match lookupLocalPC addr with
              | Some global => c_str_or_null global
              | None => None
              end
            else Some local_name) /\
     Table r.1 = <[addr := default "" r.2]> (Table st) /\ ip r.1 = ip st) /\
  lookupSymbolName object lookupLocalPC slide addr r.1 = r.
Proof.
  intros H0 H1 H2 st r local_name. split; [|split].
  - intros Hin.
    pose proof (createSymbols_recorded addrs addr H0 H1 H2 Hin) as Hn. fold st in Hn.
    unfold r, lookupSymbolName. rewrite Hn. cbn [fst snd]. split; [reflexivity|].
    unfold finalize_rule. case_decide; [reflexivity|].
    destruct (lookupLocalPC addr) as [global|]; [|reflexivity].
    unfold c_str_or_null. repeat case_decide; congruence.
  - intros Hout.
    assert (Hn : Table st !! addr = None).
    { unfold st. rewrite createSymbols_lookup. cbn [setIP Table].
      rewrite record_all_lookup_not by exact Hout. reflexivity. }
    unfold r, lookupSymbolName. rewrite Hn. cbn [fst snd Table ip].
    unfold first_seen_name. fold local_name.
    destruct (decide (local_name = "")) as [E|NE].
    + destruct (lookupLocalPC addr) as [global|]; cbn.
      * unfold c_str_or_null. case_decide; subst; auto.
      * auto.
    + unfold c_str_or_null. rewrite decide_False by exact NE. cbn. auto.
  - unfold r, lookupSymbolName.
    destruct (Table st !! addr) as [name|] eqn:E; cbn [fst snd].
    + rewrite E. reflexivity.
    + cbn [Table]. rewrite lookup_insert_eq. reflexivity.
Qed.

End SymbolTableFacts.

Lemma createSymbols_names_witness :
  Table (createSymbols demo_symbolicator 4096 16
           (setIP 4096 (record_all [4100; 9000; 77] (mkTable ∅ 0)))) !! 4100 = Some "L4".
Proof.
  refine (eq_trans (createSymbols_names demo_symbolicator 4096 16 [4100; 9000; 77] 4100 _ _ _ _) _).
  - lia.
  - lia.
  - lia.
  - apply (bool_decide_unpack _). vm_compute. exact I.
  - vm_compute. reflexivity.
Defined.

Lemma lookupSymbolName_on_demand_witness :
  (lookupSymbolName demo_object demo_symbolicator 0 4104
     (createSymbols demo_symbolicator 4096 16
        (setIP 4096 (record_all [4100; 9000] (mkTable ∅ 0))))).2 = Some "julia_f_1.inner".
Proof.
  assert (H0 : 0 <= 4096) by lia.
  assert (H1 : 0 <= 16) by lia.
  assert (H2 : 4096 + 16 < 2 ^ 64) by lia.
  destruct (lookupSymbolName_on_demand demo_object demo_symbolicator 4096 16 0
              [4100; 9000] 4104 H0 H1 H2) as (_ & Hout & _).
  destruct Hout as (Hr & _).
  - apply (bool_decide_unpack _). vm_compute. exact I.
  - rewrite Hr. vm_compute. reflexivity.
Defined.

Lemma lookupSymbolName_no_offset_label :
  ~ lookup_uses_finalize_rule None demo_symbolicator 4096 16 0
      (createSymbols demo_symbolicator 4096 16 (setIP 4096 (record_all [] (mkTable ∅ 0))))
      4100.
Proof.
  unfold lookup_uses_finalize_rule. intros H.
  assert (Hn : Table (createSymbols demo_symbolicator 4096 16
                        (setIP 4096 (record_all [] (mkTable ∅ 0)))) !! 4100 = None)
    by (vm_compute; reflexivity).
  specialize (H Hn). vm_compute in H. discriminate H.
Qed.


Example createSymbols_renames_to_label :
  let st2 := lookup_all demo_object demo_symbolicator 0 [4104]
               (createSymbols demo_symbolicator 4096 16 (setIP 4096 (mkTable ∅ 0))) in
  Table st2 !! 4104 = Some "julia_f_1.inner" /\
  Table (createSymbols demo_symbolicator 4096 16 st2) !! 4104 = Some "L8".
Proof. split; vm_compute; reflexivity. Qed.

(** ** The disassembly loop *)




Section LoopFacts.

Context {Streamer : Type} (E : Env Streamer).

Lemma Index_annotate pass st : Index (annotate E pass st) = Index st.
Proof.
  unfold annotate. case_decide; [|reflexivity].
  destruct (di_ctx E); [|reflexivity].
  destruct (decide _); destruct (emit_lineinfo_buf _ _); reflexivity.
Qed.

Lemma Index_declare_label pass st : Index (declare_label E pass st) = Index st.
Proof.
  unfold declare_label. case_decide; [|reflexivity].
  destruct (lookupSymbol _ _ _) as [[symbol|]|]; reflexivity.
Qed.

Lemma case_Success_sizes pass Inst st :
  Index (case_Success E pass Inst st) = Index st /\
  insSize (case_Success E pass Inst st) = insSize st.
Proof.
  unfold case_Success. case_decide.
  - destruct (MCIA E) as [ev|]; [|auto].
    destruct (isBranch _ || isCall _); [|auto].
    destruct (ev _ _ _); auto.
  - destruct (symbolicate_operands _ _ _ _ _). auto.
Qed.

Lemma warn_SoftFail_sizes pass st :
  Index (warn_SoftFail E pass st) = Index st /\
  insSize (warn_SoftFail E pass st) = insSize st.
Proof. unfold warn_SoftFail. case_decide; auto. Qed.

Lemma after_decode_sizes pass r st :
  Index (after_decode E pass r st) = Index st /\
  insSize (after_decode E pass r st) = d_size r.
Proof. unfold after_decode. case_decide; auto. Qed.

Lemma min_step_bounds : 1 <= min_step E <= 4.
Proof. unfold min_step. destruct (fixed_width_cpu E); lia. Qed.

(** The defined symbols and the flag change in [declare_label] only. *)
Lemma annotate_Ctx pass st :
  Ctx (annotate E pass st) = Ctx st /\ Aborted (annotate E pass st) = Aborted st.
Proof.
  unfold annotate. case_decide; [|auto].
  destruct (di_ctx E); [|auto].
  destruct (decide _); destruct (emit_lineinfo_buf _ _); auto.
Qed.

Lemma switch_status_Ctx pass Status Inst st :
  Ctx (switch_status E pass Status Inst st) = Ctx st /\
  Aborted (switch_status E pass Status Inst st) = Aborted st.
Proof.
  assert (Hs : forall s, Ctx (case_Success E pass Inst s) = Ctx s /\
                         Aborted (case_Success E pass Inst s) = Aborted s).
  { intros s. unfold case_Success. case_decide.
    - destruct (MCIA E) as [ev|]; [|auto].
      destruct (isBranch _ || isCall _); [|auto].
      destruct (ev _ _ _); auto.
    - destruct (symbolicate_operands _ _ _ _ _). auto. }
  destruct Status; cbn [switch_status].
  - auto.
  - destruct (Hs (warn_SoftFail E pass st)) as [A B]. rewrite A, B.
    unfold warn_SoftFail. case_decide; auto.
  - apply Hs.
Qed.

Lemma after_decode_Ctx pass r st :
  Ctx (after_decode E pass r st) = Ctx st /\
  Aborted (after_decode E pass r st) = Aborted st.
Proof. unfold after_decode. case_decide; auto. Qed.

Lemma loop_body_Aborted pass st :
  Aborted (loop_body E pass st) = Aborted (declare_label E pass (annotate E pass st)).
Proof.
  unfold loop_body.
  destruct (Aborted (declare_label E pass (annotate E pass st))) eqn:Ea; [exact Ea|].
  destruct (switch_status_Ctx pass
              (d_status (decode E pass (declare_label E pass (annotate E pass st))))
              (d_inst (decode E pass (declare_label E pass (annotate E pass st))))
              (after_decode E pass (decode E pass (declare_label E pass (annotate E pass st)))
                 (declare_label E pass (annotate E pass st)))) as [_ B].
  rewrite B. destruct (after_decode_Ctx pass
              (decode E pass (declare_label E pass (annotate E pass st)))
              (declare_label E pass (annotate E pass st))) as [_ C].
  rewrite C. exact Ea.
Qed.

Lemma declare_label_pass0 st :
  declare_label E O st =
  mkLoop (Index st) (insSize st) (setIP (wrap64 (Fptr E + Index st)) (DisInfo st))
         (Lines st) (Out st) (Ctx st) (Aborted st).
Proof.
  unfold declare_label. destruct (decide (O <> O)) as [H|_]; [|reflexivity].
  exfalso. apply H. reflexivity.
Qed.

Lemma loop_body_pass0_Aborted st : Aborted (loop_body E O st) = Aborted st.
Proof.
  rewrite loop_body_Aborted, declare_label_pass0. cbn [Aborted].
  apply annotate_Ctx.
Qed.

Lemma loop_body_Index pass st : Index (loop_body E pass st) = Index st.
Proof.
  unfold loop_body.
  set (st1 := declare_label E pass (annotate E pass st)).
  assert (H1 : Index st1 = Index st).
  { unfold st1. rewrite Index_declare_label. apply Index_annotate. }
  destruct (Aborted st1); [exact H1|]. unfold switch_status.
  destruct (after_decode_sizes pass (decode E pass st1) st1) as [A1 A2].
  destruct (d_status (decode E pass st1)).
  - unfold case_Fail. cbn [Index]. congruence.
  - destruct (case_Success_sizes pass (d_inst (decode E pass st1))
                (warn_SoftFail E pass (after_decode E pass (decode E pass st1) st1))) as [C1 _].
    destruct (warn_SoftFail_sizes pass (after_decode E pass (decode E pass st1) st1)) as [W1 _].
    congruence.
  - destruct (case_Success_sizes pass (d_inst (decode E pass st1))
                (after_decode E pass (decode E pass st1) st1)) as [C1 _].
    congruence.
Qed.

Lemma loop_body_size pass st :
  Aborted (loop_body E pass st) = false ->
  insSize (loop_body E pass st) =
  let r := decode E pass (declare_label E pass (annotate E pass st)) in
  match d_status r with
  | Fail => if decide (d_size r = 0) then min_step E else d_size r
  | _ => d_size r
  end.
Proof.
  intros Ha. rewrite loop_body_Aborted in Ha.
  unfold loop_body, switch_status. cbv zeta. rewrite Ha.
  set (st1 := declare_label E pass (annotate E pass st)).
  destruct (after_decode_sizes pass (decode E pass st1) st1) as [A1 A2].
  destruct (d_status (decode E pass st1)).
  - unfold case_Fail. cbn [insSize]. rewrite A2. reflexivity.
  - destruct (case_Success_sizes pass (d_inst (decode E pass st1))
                (warn_SoftFail E pass (after_decode E pass (decode E pass st1) st1))) as [_ C2].
    destruct (warn_SoftFail_sizes pass (after_decode E pass (decode E pass st1) st1)) as [_ W2].
    congruence.
  - destruct (case_Success_sizes pass (d_inst (decode E pass st1))
                (after_decode E pass (decode E pass st1) st1)) as [_ C2].
    congruence.
Qed.

Lemma loop_body_insSize pass st :
  decoder_progresses E pass -> 0 <= Index st < Fsize E ->
  Aborted (loop_body E pass st) = false ->
  1 <= insSize (loop_body E pass st) /\
  Index st + insSize (loop_body E pass st) < 2 ^ 64.
Proof.
  intros Hdec Hi Ha. rewrite (loop_body_size pass st Ha). cbv zeta.
  set (st1 := declare_label E pass (annotate E pass st)).
  assert (H1 : Index st1 = Index st).
  { unfold st1. rewrite Index_declare_label. apply Index_annotate. }
  assert (Hr := Hdec (Index st1) (insSize st1) (DisInfo st1) (Out st1)).
  specialize (Hr ltac:(rewrite H1; exact Hi)). cbv zeta in Hr.
  fold (decode E pass st1) in Hr. destruct Hr as (R1 & R2 & R3). rewrite H1 in R3.
  pose proof min_step_bounds as Hm.
  destruct (d_status (decode E pass st1)) eqn:Es.
  - case_decide; lia.
  - specialize (R1 ltac:(discriminate)). lia.
  - specialize (R1 ltac:(discriminate)). lia.
Qed.

Lemma disasm_loop_enough_fuel pass :
  decoder_progresses E pass ->
  forall fuel st, 0 <= Index st -> Fsize E - Index st <= Z.of_nat fuel ->
  exists n st', disasm_loop E fuel pass st = Some (n, st') /\
                Z.of_nat n <= Z.max 0 (Fsize E - Index st) /\
                (Aborted st' = false -> Fsize E <= Index st').
Proof.
  intros Hdec. induction fuel as [|fuel IH]; intros st H0 Hf.
  - simpl. rewrite decide_False by lia. exists O, st. repeat split; lia.
  - simpl. destruct (decide (Index st < Fsize E)) as [Hlt|Hge].
    + destruct (Aborted (loop_body E pass st)) eqn:Ha.
      { exists 1%nat, (loop_body E pass st). split; [reflexivity|]. split; [lia|].
        rewrite Ha. discriminate. }
      destruct (loop_body_insSize pass st Hdec ltac:(lia) Ha) as [B1 B2].
      pose proof (loop_body_Index pass st) as BI.
      destruct (IH (advance (loop_body E pass st))) as (n & st' & Hrun & Hn & Hend).
      * unfold advance. cbn [Index]. rewrite BI, wrap64_small by lia. lia.
      * unfold advance. cbn [Index]. rewrite BI, wrap64_small by lia. lia.
      * rewrite Hrun. exists (S n), st'. split; [reflexivity|].
        unfold advance in Hn. cbn [Index] in Hn. rewrite BI, wrap64_small in Hn by lia.
        split; [lia|exact Hend].
    + exists O, st. repeat split; lia.
Qed.

Lemma disasm_loop_more_fuel pass fuel : forall st n st',
  disasm_loop E fuel pass st = Some (n, st') ->
  forall fuel', (fuel <= fuel')%nat -> disasm_loop E fuel' pass st = Some (n, st').
Proof.
  induction fuel as [|fuel IH]; intros st n st' Hrun fuel' Hle.
  - simpl in Hrun. destruct (decide (Index st < Fsize E)); [discriminate|].
    destruct fuel'; simpl; rewrite decide_False by assumption; exact Hrun.
  - destruct fuel' as [|fuel']; [lia|]. simpl in *.
    destruct (decide (Index st < Fsize E)); [|exact Hrun].
    destruct (Aborted (loop_body E pass st)); [exact Hrun|].
    destruct (disasm_loop E fuel pass (advance (loop_body E pass st))) as [[m st1]|] eqn:Em;
      [|discriminate].
    rewrite (IH _ _ _ Em fuel') by lia. exact Hrun.
Qed.

(** Pass 0 calls no [lookupSymbol]: the flag stays as it is. *)
Lemma disasm_loop_pass0_Aborted fuel : forall st n st',
  disasm_loop E fuel O st = Some (n, st') -> Aborted st' = Aborted st.
Proof.
  induction fuel as [|fuel IH]; intros st n st' Hrun; simpl in Hrun.
  - destruct (decide (Index st < Fsize E)); [discriminate|]. now injection Hrun as _ <-.
  - destruct (decide (Index st < Fsize E)); [|now injection Hrun as _ <-].
    pose proof (loop_body_pass0_Aborted st) as Hb.
    destruct (Aborted (loop_body E O st)) eqn:Ha.
    + injection Hrun as _ <-. congruence.
    + destruct (disasm_loop E fuel O (advance (loop_body E O st))) as [[m st1]|] eqn:Em;
        [|discriminate].
      injection Hrun as _ <-. rewrite (IH _ _ _ Em). unfold advance. cbn [Aborted]. congruence.
Qed.

Lemma pass_init_start pass info OS :
  Index (pass_init E pass info OS) = 0 /\ Ctx (pass_init E pass info OS) = ∅ /\
  Aborted (pass_init E pass info OS) = false /\ DisInfo (pass_init E pass info OS) = info.
Proof.
  unfold pass_init. destruct (decide (pass <> O)); [|auto].
  destruct (di_ctx E); [|auto]. destruct (di_lineinfo E); [auto|].
  destruct (decide _); [|auto]. destruct (emit_lineinfo_buf _ _). auto.
Qed.

Lemma loop_body_abort_here pass st :
  Aborted st = false -> Aborted (loop_body E pass st) = true ->
  exists name,
    Table (DisInfo (loop_body E pass st)) !! wrap64 (Fptr E + Index (loop_body E pass st)) =
      Some name /\
    name ∈ Ctx (loop_body E pass st).
Proof.
  intros Hst Hab. pose proof Hab as Hab'. rewrite loop_body_Aborted in Hab'.
  assert (Hb : loop_body E pass st = declare_label E pass (annotate E pass st)).
  { unfold loop_body. rewrite Hab'. reflexivity. }
  rewrite Hb. clear Hb Hab.
  destruct (annotate_Ctx pass st) as [_ Ha]. rewrite Hst in Ha.
  pose proof (Index_annotate pass st) as Hi.
  revert Hab'. unfold declare_label.
  destruct (decide (pass <> O)) as [Hp|Hp]; [|cbn [Aborted]; congruence].
  unfold lookupSymbol. cbn [Table setIP].
  destruct (Table (DisInfo (annotate E pass st)) !! wrap64 (Fptr E + Index (annotate E pass st)))
    as [name|] eqn:Et; [|cbn [Aborted]; congruence].
  unfold c_str_or_null. destruct (decide (name = "")); [cbn [Aborted]; congruence|].
  destruct (decide (name ∈ Ctx (annotate E pass st))) as [Hin|Hin]; [|cbn [Aborted]; congruence].
  intros _. exists name. cbn [DisInfo Index Ctx Table setIP]. split; [exact Et|exact Hin].
Qed.

Lemma disasm_loop_abort pass fuel : forall st n st',
  Aborted st = false ->
  disasm_loop E fuel pass st = Some (n, st') -> Aborted st' = true ->
  Index st' < Fsize E /\
  exists name, Table (DisInfo st') !! wrap64 (Fptr E + Index st') = Some name /\
               name ∈ Ctx st'.
Proof.
  induction fuel as [|fuel IH]; intros st n st' Hst Hrun Hab; simpl in Hrun.
  - destruct (decide (Index st < Fsize E)); [discriminate|].
    injection Hrun as _ <-. congruence.
  - destruct (decide (Index st < Fsize E)) as [Hlt|Hge].
    + destruct (Aborted (loop_body E pass st)) eqn:Eb.
      * injection Hrun as _ <-. split; [rewrite loop_body_Index; exact Hlt|].
        apply loop_body_abort_here; assumption.
      * destruct (disasm_loop E fuel pass (advance (loop_body E pass st))) as [[m st1]|] eqn:Em;
          [|discriminate].
        injection Hrun as _ <-. apply (IH (advance (loop_body E pass st)) _ _ Eb Em Hab).
    + injection Hrun as _ <-. congruence.
Qed.

(** C4 (corrected statement): when the decoder reports a positive size for every
    instruction it does not fail on (and no size that wraps [Index] around),
    the loop of a pass ends after at most [Fsize] rounds, whatever the
    statuses: a failure advances by the size reported or, when that is zero,
    by the minimum step.  Any fuel from [Fsize] on gives the same result.
    The loop ends past the range, or, in the build with assertions, in the
    round in which the assertion of [lookupSymbol] fails, which only cuts
    the pass short: then it stops inside the range, at an address whose name
    in the table is the name of a symbol that is already defined.  Pass 0
    calls no [lookupSymbol] and ends past the range. *)
Theorem disasm_loop_terminates (pass : nat) (info : SymbolTable) (OS : Streamer) :
  decoder_progresses E pass ->
  exists n st',
    (forall fuel, (Z.to_nat (Fsize E) <= fuel)%nat ->
       disasm_loop E fuel pass (pass_init E pass info OS) = Some (n, st')) /\
    Z.of_nat n <= Z.max 0 (Fsize E) /\
    (Aborted st' = false -> Fsize E <= Index st') /\
    (pass = O -> Aborted st' = false /\ Fsize E <= Index st') /\
    (Aborted st' = true ->
     Index st' < Fsize E /\
     exists name, Table (DisInfo st') !! wrap64 (Fptr E + Index st') = Some name /\
                  name ∈ Ctx st').
Proof.
  intros Hdec.
  destruct (pass_init_start pass info OS) as (Hi & _ & Hab & _).
  destruct (disasm_loop_enough_fuel pass Hdec (Z.to_nat (Fsize E)) (pass_init E pass info OS))
    as (n & st' & Hrun & Hn & Hend).
  - lia.
  - lia.
  - exists n, st'. split; [|split; [|split; [|split]]].
    + intros fuel Hle. apply (disasm_loop_more_fuel pass _ _ _ _ Hrun). exact Hle.
    + rewrite Hi in Hn. replace (Fsize E - 0) with (Fsize E) in Hn by lia. exact Hn.
    + exact Hend.
    + intros ->. rewrite (disasm_loop_pass0_Aborted _ _ _ _ Hrun) in Hend |- *.
      split; [exact Hab|exact (Hend Hab)].
    + apply (disasm_loop_abort pass _ _ _ _ Hab Hrun).
Qed.

(** The lookups of the operands: the table after them and the comments. *)
Lemma symbolicate_operands_spec (Inst : MCInst) (Index : Z) (info : SymbolTable)
    (OS : Streamer) :
  symbolicate_operands E Inst Index info OS =
  (lookup_all (object E) (lookupLocalPC E) (slide E) (operand_targets E Inst Index) info,
   foldl (fun OS name => AddComment E name OS) OS
         (names_found (object E) (lookupLocalPC E) (slide E)
                      (operand_targets E Inst Index) info)).
Proof.
  unfold symbolicate_operands, operand_targets.
  generalize (seq 0 (NumOperands (MCII_get E (Opcode Inst)))). intros ops.
  revert info OS. induction ops as [|Op ops IH]; intros info OS; [reflexivity|].
  cbn [foldl omap list_omap]. unfold symbolicate_operand at 2. cbn [fst snd].
  destruct (Operands Inst !! Op) as [[imm|]|]; cbn [mbind option_bind].
  - cbn [lookup_all foldl names_found].
    destruct (lookupSymbolName (object E) (lookupLocalPC E) (slide E) _ info)
      as [info' name] eqn:El.
    rewrite IH. cbn [fst]. destruct name as [n|]; cbn [app]; reflexivity.
  - apply IH.
  - apply IH.
Qed.

Lemma rawCodeComment_text (Index insSize : Z) :
  rawCodeComment E Index insSize = raw_bytes_text E Index insSize.
Proof.
  unfold rawCodeComment, raw_bytes_text, hex_bytes.
  destruct (FixedLength E), (isLittleEndian E); reflexivity.
Qed.

(** C10: on [SoftFail] the switch does what it does on [Success], after the
    warning line in the emission pass.  In the emission pass that is: the
    warning; then every operand the opcode declares that is an immediate is
    looked up with [lookupSymbolName] (from the address of the instruction
    when it is relative to the program counter), which leaves the table
    after these lookups, and every name found is added as a comment, in the
    order of the operands; then the raw-bytes comment when [binary] is set
    (the address, and the bytes in the layout of the machine); then the
    instruction.  In pass 0 it is what [Success] does: the target of a
    branch or call that [evaluateBranch] finds is inserted in the table, and
    nothing is written. *)
Theorem SoftFail_falls_through (pass : nat) (Inst : MCInst) (st : LoopState Streamer) :
  switch_status E pass SoftFail Inst st =
    switch_status E pass Success Inst (warn_SoftFail E pass st) /\
  (let r := switch_status E (S pass) SoftFail Inst st in
   let targets := operand_targets E Inst (Index st) in
   let OS0 := emitRawText E "potentially undefined instruction encoding:" (Out st) in
   let OS1 := foldl (fun OS name => AddComment E name OS) OS0
                (names_found (object E) (lookupLocalPC E) (slide E) targets (DisInfo st)) in
   let OS2 := if binary E
              then emitRawText E (raw_bytes_text E (Index st) (insSize st)) OS1
              else OS1 in
   DisInfo r = lookup_all (object E) (lookupLocalPC E) (slide E) targets (DisInfo st) /\
   Out r = emitInstruction E Inst OS2 /\
   Index r = Index st /\ insSize r = insSize st /\ Lines r = Lines st) /\
  switch_status E O SoftFail Inst st = switch_status E O Success Inst st /\
  DisInfo (switch_status E O SoftFail Inst st) =
    match MCIA E with
    | Some evaluateBranch =>
        if isBranch (MCII_get E (Opcode Inst)) || isCall (MCII_get E (Opcode Inst)) then
          match evaluateBranch Inst (wrap64 (Fptr E + Index st)) (insSize st) with
          | Some addr => insertAddress addr (DisInfo st)
          | None => DisInfo st
          end
        else DisInfo st
    | None => DisInfo st
    end /\
  Out (switch_status E O SoftFail Inst st) = Out st.
Proof.
  split; [reflexivity|]. split; [|split; [|split]].
  - cbv zeta. cbn [switch_status]. unfold warn_SoftFail, case_Success.
    destruct (decide (S pass <> O)) as [_|H]; [|exfalso; apply H; discriminate].
    destruct (decide (S pass = O)) as [H|_]; [discriminate H|].
    cbn [Index insSize DisInfo Lines Out].
    rewrite symbolicate_operands_spec, rawCodeComment_text.
    cbn [Index insSize DisInfo Lines Out]. repeat split.
  - reflexivity.
  - cbn [switch_status]. unfold warn_SoftFail, case_Success.
    destruct (decide (O <> O)) as [H|_]; [exfalso; apply H; reflexivity|].
    destruct (decide (O = O)) as [_|H]; [|exfalso; apply H; reflexivity].
    destruct (MCIA E) as [ev|]; [|reflexivity].
    destruct (isBranch _ || isCall _); [|reflexivity].
    destruct (ev _ _ _); reflexivity.
  - cbn [switch_status]. unfold warn_SoftFail, case_Success.
    destruct (decide (O <> O)) as [H|_]; [exfalso; apply H; reflexivity|].
    destruct (decide (O = O)) as [_|H]; [|exfalso; apply H; reflexivity].
    destruct (MCIA E) as [ev|]; [|reflexivity].
    destruct (isBranch _ || isCall _); [|reflexivity].
    destruct (ev _ _ _); reflexivity.
Qed.

(** Pass 0 changes the table by [insertAddress] only: after its loop the
    table holds the recorded addresses, each with an empty name, on top of
    the table the pass began with. *)
Lemma record_all_table addrs : forall st st',
  Table st = Table st' -> Table (record_all addrs st) = Table (record_all addrs st').
Proof.
  induction addrs as [|a addrs IH]; intros st st' Ht; [exact Ht|].
  cbn [record_all foldr insertAddress Table]. f_equal. apply (IH st st' Ht).
Qed.

Lemma record_all_app l1 l2 st :
  record_all (l1 ++ l2) st = record_all l1 (record_all l2 st).
Proof. unfold record_all. apply foldr_app. Qed.

Lemma Table_annotate pass st : DisInfo (annotate E pass st) = DisInfo st.
Proof.
  unfold annotate. case_decide; [|reflexivity].
  destruct (di_ctx E); [|reflexivity].
  destruct (decide _); destruct (emit_lineinfo_buf _ _); reflexivity.
Qed.

Lemma loop_body_pass0_table st :
  exists addrs, Table (DisInfo (loop_body E O st)) = Table (record_all addrs (DisInfo st)).
Proof.
  unfold loop_body, switch_status.
  set (st1 := declare_label E O (annotate E O st)).
  assert (H1 : Table (DisInfo st1) = Table (DisInfo st)).
  { unfold st1. rewrite declare_label_pass0. cbn [DisInfo setIP Table].
    now rewrite Table_annotate. }
  destruct (Aborted st1); [exists []; exact H1|].
  set (r := decode E O st1).
  assert (Ha : DisInfo (after_decode E O r st1) = DisInfo st1).
  { unfold after_decode. destruct (decide (O <> O)) as [H|_]; [|reflexivity].
    exfalso. apply H. reflexivity. }
  assert (Hw : warn_SoftFail E O (after_decode E O r st1) = after_decode E O r st1).
  { unfold warn_SoftFail. destruct (decide (O <> O)) as [H|_]; [|reflexivity].
    exfalso. apply H. reflexivity. }
  assert (Hs : exists addrs,
             Table (DisInfo (case_Success E O (d_inst r) (after_decode E O r st1))) =
             Table (record_all addrs (DisInfo st))).
  { unfold case_Success. destruct (decide (O = O)) as [_|H]; [|exfalso; apply H; reflexivity].
    destruct (MCIA E) as [ev|]; [|exists []; cbn; congruence].
    destruct (isBranch _ || isCall _); [|exists []; cbn; congruence].
    destruct (ev _ _ _) as [addr|]; [|exists []; cbn; congruence].
    exists [addr]. cbn [DisInfo record_all foldr insertAddress Table]. congruence. }
  destruct (d_status r).
  - exists []. unfold case_Fail. cbn [DisInfo record_all foldr]. congruence.
  - rewrite Hw. exact Hs.
  - exact Hs.
Qed.

Lemma disasm_loop_pass0_table fuel : forall st n st',
  disasm_loop E fuel O st = Some (n, st') ->
  exists addrs, Table (DisInfo st') = Table (record_all addrs (DisInfo st)).
Proof.
  induction fuel as [|fuel IH]; intros st n st' Hrun; simpl in Hrun.
  - destruct (decide (Index st < Fsize E)); [discriminate|].
    injection Hrun as _ <-. exists []. reflexivity.
  - destruct (decide (Index st < Fsize E)).
    + destruct (loop_body_pass0_table st) as [l2 H2].
      destruct (Aborted (loop_body E O st)).
      { injection Hrun as _ <-. exists l2. exact H2. }
      destruct (disasm_loop E fuel O (advance (loop_body E O st))) as [[m st1]|] eqn:Em;
        [|discriminate].
      injection Hrun as _ <-.
      destruct (IH _ _ _ Em) as [l1 H1].
      exists (l1 ++ l2). rewrite record_all_app, H1.
      apply record_all_table. exact H2.
    + injection Hrun as _ <-. exists []. reflexivity.
Qed.

Lemma run_pass0_table fuel OS n info OS' :
  run_pass E fuel O (mkTable ∅ 0) OS = Some (n, (info, OS')) ->
  exists addrs,
    info = createSymbols (lookupLocalPC E) (Fptr E) (Fsize E)
             (setIP (Fptr E) (record_all addrs (mkTable ∅ 0))).
Proof.
  unfold run_pass.
  destruct (disasm_loop E fuel O (pass_init E O (mkTable ∅ 0) OS)) as [[m st]|] eqn:Em;
    [|discriminate].
  destruct (pass_init_start O (mkTable ∅ 0) OS) as (_ & _ & Hab & Hinfo).
  pose proof (disasm_loop_pass0_Aborted fuel _ _ _ Em) as Ha. rewrite Hab in Ha.
  unfold pass_finish. rewrite Ha. intros [= _ <- _].
  destruct (disasm_loop_pass0_table fuel _ _ _ Em) as [addrs Ht].
  exists addrs. rewrite Hinfo in Ht.
  destruct (decide (O = O)) as [_|H]; [|exfalso; apply H; reflexivity].
  unfold createSymbols, setIP. cbn [Table ip]. now rewrite Ht.
Qed.

End LoopFacts.

Lemma stuck_loop fuel : forall st,
  Index st = 0 -> Aborted st = false ->
  disasm_loop (text_env 1 false stuck_decoder) fuel 0 st = None.
Proof.
  induction fuel as [|fuel IH]; intros st Hi Ha; simpl.
  - rewrite decide_True by (rewrite Hi; simpl; lia). reflexivity.
  - rewrite decide_True by (rewrite Hi; simpl; lia).
    assert (Hb : Aborted (loop_body (text_env 1 false stuck_decoder) 0 st) = false)
      by (rewrite loop_body_pass0_Aborted; exact Ha).
    rewrite Hb. rewrite IH; [reflexivity| |exact Hb].
    unfold advance. cbn [Index]. rewrite loop_body_Index, Hi.
    rewrite (loop_body_size _ _ _ Hb). reflexivity.
Qed.

Lemma zero_size_success_never_ends :
  ~ pass_terminates (text_env 1 false stuck_decoder) 0 (mkTable ∅ 0) [].
Proof.
  intros (fuel & n & st' & Hrun & _).
  rewrite stuck_loop in Hrun by reflexivity. discriminate Hrun.
Qed.

Lemma scenario_progresses pass : decoder_progresses (text_env 8 true scenario_decoder) pass.
Proof.
  intros idx sz info OS Hi. cbn. unfold scenario_decoder.
  destruct (decide (idx = 4)); cbn in *; repeat split; try lia; try discriminate.
  intros H. exfalso. apply H. reflexivity.
Qed.

Lemma disasm_loop_terminates_witness :
  exists n st',
    (forall fuel, (Z.to_nat 8 <= fuel)%nat ->
       disasm_loop (text_env 8 true scenario_decoder) fuel 1
         (pass_init (text_env 8 true scenario_decoder) 1 (mkTable ∅ 0) []) = Some (n, st')) /\
    Z.of_nat n <= Z.max 0 8 /\ 8 <= Index st'.
Proof.
  destruct (disasm_loop_terminates (text_env 8 true scenario_decoder) 1 (mkTable ∅ 0) []
              (scenario_progresses 1)) as (n & st' & Hrun & Hn & Hend & _).
  exists n, st'. split; [exact Hrun|]. split; [exact Hn|].
  apply Hend. pose proof (Hrun 8%nat (Nat.le_refl 8)) as H8.
  vm_compute in H8. injection H8 as _ <-. reflexivity.
Defined.

(** The scenario of the design document, run through both passes: pass 0
    records offset 0, and pass 1 declares the label at offset 0, writes the
    raw directive for the bytes it cannot decode, and gives the call the
    label as its comment. *)
Example scenario_two_passes :
  (fun r : SymbolTable * list string => (map_to_list (Table r.1), reverse r.2)) <$>
    two_passes (text_env 8 true scenario_decoder) 8 [] =
  Some ([(4096, "L0")],
        ["L0:"; tab +:+ ".long" +:+ tab +:+ "0";
         "potentially undefined instruction encoding:"; "# L0"; "inst 7"]).
Proof. vm_compute. reflexivity. Qed.

(** * Further properties of the code *)

(** ** [compute_obj_symsize] *)

Section ObjSymsizeFacts.

Variables (SAddr SSize : Z).
Variable containsSymbol : SymbolRef -> bool.

Lemma elem_of_snoc (seen : list SymbolRef) (Sym S' : SymbolRef) :
  S' ∈ seen ++ [Sym] <-> S' ∈ seen \/ S' = Sym.
Proof. rewrite elem_of_app, list_elem_of_singleton. reflexivity. Qed.

Lemma symsize_step_inv offset seen acc Sym :
  0 <= sym_address Sym ->
  scan_inv SAddr SSize containsSymbol offset seen acc ->
  scan_inv SAddr SSize containsSymbol offset (seen ++ [Sym]) (symsize_step containsSymbol offset acc Sym).
Proof.
  destruct acc as [[lo hi] setlo]. intros Hnn (Hlo & Hhi & Hzero & Hex & Hexh & Hall).
  unfold symsize_step. destruct (containsSymbol Sym) eqn:Ec.
  - set (Addr := sym_address Sym) in *.
    assert (Hold : forall S', S' ∈ seen -> S' ∈ seen ++ [Sym])
      by (intros S' H; apply elem_of_snoc; left; exact H).
    assert (Hnew : Sym ∈ seen ++ [Sym]) by (apply elem_of_snoc; right; reflexivity).
    destruct (decide (Addr <= offset /\ lo <= Addr)) as [[A1 A2]|NA].
    + rewrite decide_False by lia. cbn.
      split; [lia|]. split; [lia|]. split; [discriminate|]. split; [|split].
      * intros _. exists Sym. auto.
      * intros Hh. destruct (Hexh Hh) as (S' & Hin & Hc & Ha). exists S'. auto.
      * intros S' Hin Hc. apply elem_of_snoc in Hin. destruct Hin as [Hin| ->].
        -- destruct (Hall S' Hin Hc) as [H1 H2]. split; [|exact H2].
           intros H. destruct (H1 H). split; [reflexivity|lia].
        -- fold Addr. split; [intros _; split; [reflexivity|lia]|lia].
    + destruct (decide (offset < Addr /\ Addr < hi)) as [[B1 B2]|NB]; cbn.
      * split; [lia|]. split; [lia|]. split; [exact Hzero|]. split; [|split].
        -- intros Hs. destruct (Hex Hs) as (S' & Hin & Hc & Ha). exists S'. auto.
        -- intros _. exists Sym. auto.
        -- intros S' Hin Hc. apply elem_of_snoc in Hin. destruct Hin as [Hin| ->].
           ++ destruct (Hall S' Hin Hc) as [H1 H2]. split; [exact H1|].
              intros H. specialize (H2 H). lia.
           ++ fold Addr. split; [lia|lia].
      * split; [lia|]. split; [lia|]. split; [exact Hzero|]. split; [|split].
        -- intros Hs. destruct (Hex Hs) as (S' & Hin & Hc & Ha). exists S'. auto.
        -- intros Hh. destruct (Hexh Hh) as (S' & Hin & Hc & Ha). exists S'. auto.
        -- intros S' Hin Hc. apply elem_of_snoc in Hin. destruct Hin as [Hin| ->].
           ++ exact (Hall S' Hin Hc).
           ++ fold Addr. split; [|lia].
              intros Ha. destruct setlo; [split; [reflexivity|lia]|].
              specialize (Hzero eq_refl). lia.
  - cbn. split; [lia|]. split; [lia|]. split; [exact Hzero|].
    assert (Hold : forall S', S' ∈ seen -> S' ∈ seen ++ [Sym])
      by (intros S' H; apply elem_of_snoc; left; exact H).
    split; [|split].
    + intros Hs. destruct (Hex Hs) as (S' & Hin & Hc & Ha). exists S'. auto.
    + intros Hh. destruct (Hexh Hh) as (S' & Hin & Hc & Ha). exists S'. auto.
    + intros S' Hin Hc. apply elem_of_snoc in Hin. destruct Hin as [Hin| ->].
      * exact (Hall S' Hin Hc).
      * congruence.
Qed.

Lemma symsize_scan_inv offset syms : forall seen acc,
  Forall (fun Sym => 0 <= sym_address Sym) syms ->
  scan_inv SAddr SSize containsSymbol offset seen acc ->
  scan_inv SAddr SSize containsSymbol offset (seen ++ syms) (foldl (symsize_step containsSymbol offset) acc syms).
Proof.
  induction syms as [|Sym syms IH]; intros seen acc Hnn Hinv.
  - rewrite app_nil_r. exact Hinv.
  - cbn [foldl]. replace (seen ++ Sym :: syms) with ((seen ++ [Sym]) ++ syms)
      by (rewrite <- app_assoc; reflexivity).
    apply Forall_cons in Hnn. destruct Hnn as [H1 H2].
    apply IH; [exact H2|]. apply symsize_step_inv; assumption.
Qed.

(** X1.  When [compute_obj_symsize] finds a size for [offset] (a result other
    than 0), the size is the distance between the closest symbols of the
    section around the offset: there is a symbol of the section at an address
    [lo <= offset], the size ends at [hi > offset] inside the section, [hi] is
    the end of the section or the address of a symbol of the section, and no
    symbol of the section lies strictly between [lo] and [hi].  The section is
    a range of 64-bit addresses ([SAddr + SSize] does not wrap). *)
Theorem compute_obj_symsize_bracket (syms : list SymbolRef) (offset : Z) :
  0 <= SAddr -> 0 <= SSize -> SAddr + SSize < 2 ^ 64 ->
  Forall (fun Sym => 0 <= sym_address Sym) syms ->
  compute_obj_symsize SAddr SSize containsSymbol syms offset <> 0 ->
  exists lo,
    let hi := lo + compute_obj_symsize SAddr SSize containsSymbol syms offset in
    (exists Sym, Sym ∈ syms /\ containsSymbol Sym = true /\ sym_address Sym = lo) /\
    lo <= offset < hi /\ SAddr <= offset /\ hi <= SAddr + SSize /\
    (hi = SAddr + SSize \/
     exists Sym, Sym ∈ syms /\ containsSymbol Sym = true /\ sym_address Sym = hi) /\
    (forall Sym, Sym ∈ syms -> containsSymbol Sym = true ->
       sym_address Sym <= lo \/ hi <= sym_address Sym).
Proof.
  intros H0 H1 H2 Hnn. unfold compute_obj_symsize.
  rewrite (wrap64_small (SAddr + SSize)) by lia.
  destruct (decide (offset < SAddr \/ SAddr + SSize <= offset)) as [|Hin];
    [intros H; contradiction|].
  assert (Hinit : scan_inv SAddr SSize containsSymbol offset [] (0, SAddr + SSize, false)).
  { cbn. split; [lia|]. split; [lia|]. split; [reflexivity|]. split; [discriminate|].
    split; [lia|]. intros Sym Hs. inversion Hs. }
  pose proof (symsize_scan_inv offset syms [] _ Hnn Hinit) as Hinv.
  rewrite app_nil_l in Hinv.
  destruct (foldl _ _ syms) as [[lo hi] setlo].
  destruct Hinv as (Hlo & Hhi & Hzero & Hex & Hexh & Hall).
  destruct setlo; [|intros H; contradiction]. intros _.
  rewrite wrap64_small by lia.
  exists lo. cbv zeta. replace (lo + (hi - lo)) with hi by lia.
  split; [apply Hex; reflexivity|]. split; [lia|]. split; [lia|]. split; [lia|].
  split.
  - destruct (decide (hi = SAddr + SSize)) as [E|NE]; [left; exact E|right].
    apply Hexh. lia.
  - intros Sym Hs Hc. destruct (Hall Sym Hs Hc) as [A B].
    destruct (decide (sym_address Sym <= offset)) as [L|G].
    + left. apply A. exact L.
    + right. apply B. lia.
Qed.

(** X2.  [compute_obj_symsize] answers 0 exactly when the offset is outside
    the section or every symbol of the section lies above the offset. *)
Theorem compute_obj_symsize_zero (syms : list SymbolRef) (offset : Z) :
  0 <= SAddr -> 0 <= SSize -> SAddr + SSize < 2 ^ 64 ->
  Forall (fun Sym => 0 <= sym_address Sym) syms ->
  (compute_obj_symsize SAddr SSize containsSymbol syms offset = 0 <->
   ~ (SAddr <= offset < SAddr + SSize) \/
   forall Sym, Sym ∈ syms -> containsSymbol Sym = true -> offset < sym_address Sym).
Proof.
  intros H0 H1 H2 Hnn. unfold compute_obj_symsize.
  rewrite (wrap64_small (SAddr + SSize)) by lia.
  destruct (decide (offset < SAddr \/ SAddr + SSize <= offset)) as [Hout|Hin].
  { split; [intros _; left; lia|reflexivity]. }
  assert (Hinit : scan_inv SAddr SSize containsSymbol offset [] (0, SAddr + SSize, false)).
  { cbn. split; [lia|]. split; [lia|]. split; [reflexivity|]. split; [discriminate|].
    split; [lia|]. intros Sym Hs. inversion Hs. }
  pose proof (symsize_scan_inv offset syms [] _ Hnn Hinit) as Hinv.
  rewrite app_nil_l in Hinv.
  destruct (foldl _ _ syms) as [[lo hi] setlo].
  destruct Hinv as (Hlo & Hhi & Hzero & Hex & Hexh & Hall).
  destruct setlo.
  - rewrite wrap64_small by lia. split; [lia|].
    intros [Hn|Hn]; [lia|].
    destruct (Hex eq_refl) as (Sym & Hs & Hc & Ha). specialize (Hn Sym Hs Hc). lia.
  - split; [intros _; right|reflexivity].
    intros Sym Hs Hc. destruct (Hall Sym Hs Hc) as [A _].
    destruct (decide (sym_address Sym <= offset)) as [L|G]; [|lia].
    destruct (A L) as [E _]. discriminate E.
Qed.

End ObjSymsizeFacts.

Lemma compute_obj_symsize_bracket_witness :
  exists lo,
    (exists Sym, Sym ∈ demo_section_symbols /\ demo_contains Sym = true /\
                 sym_address Sym = lo) /\
    lo <= 4170 < lo + 64.
Proof.
  assert (Hnn : Forall (fun Sym => 0 <= sym_address Sym) demo_section_symbols)
    by (repeat constructor; cbn; lia).
  assert (Hr : compute_obj_symsize 4096 256 demo_contains demo_section_symbols 4170 = 64)
    by (vm_compute; reflexivity).
  destruct (compute_obj_symsize_bracket 4096 256 demo_contains demo_section_symbols 4170)
    as (lo & Hs & Hb & _); [lia|lia|lia|exact Hnn|rewrite Hr; discriminate|].
  cbv zeta in Hb. rewrite Hr in Hb. exists lo. split; [exact Hs|exact Hb].
Defined.

Lemma compute_obj_symsize_zero_witness :
  compute_obj_symsize 4096 256 demo_contains demo_section_symbols 5000 = 0.
Proof.
  assert (Hnn : Forall (fun Sym => 0 <= sym_address Sym) demo_section_symbols)
    by (repeat constructor; cbn; lia).
  apply (compute_obj_symsize_zero 4096 256 demo_contains demo_section_symbols 5000);
    [lia|lia|lia|exact Hnn|].
  left. lia.
Defined.

(** ** The filter of the line table *)

Lemma last_of_runs_cons x y l :
  last_of_runs (x :: y :: l) =
  if decide (x.1 = y.1) then last_of_runs (y :: l) else x :: last_of_runs (y :: l).
Proof. reflexivity. Qed.

Lemma last_of_runs_nonempty x l : last_of_runs (x :: l) <> [].
Proof.
  revert x. induction l as [|y l IH]; intros x; [discriminate|].
  rewrite last_of_runs_cons. case_decide; [apply IH|discriminate].
Qed.

Lemma last_of_runs_snoc p : forall x y B,
  last_of_runs (p ++ [x]) = B ++ [x] ->
  last_of_runs (p ++ [x; y]) = if decide (x.1 = y.1) then B ++ [y] else B ++ [x; y].
Proof.
  induction p as [|a p IH]; intros x y B HB.
  - cbn in HB. destruct B as [|b B]; [|destruct B; discriminate HB].
    cbn. case_decide; reflexivity.
  - destruct (p ++ [x]) as [|h t] eqn:Eh; [destruct p; discriminate Eh|].
    assert (Eh2 : p ++ [x; y] = h :: (t ++ [y])).
    { change [x; y] with ([x] ++ [y]). rewrite app_assoc, Eh. reflexivity. }
    cbn [app] in *. rewrite Eh in HB. rewrite Eh2.
    rewrite last_of_runs_cons in HB. rewrite last_of_runs_cons.
    rewrite <- Eh in HB. rewrite <- Eh2.
    destruct (decide (a.1 = h.1)).
    + apply IH. exact HB.
    + destruct B as [|b B].
      * cbn in HB. injection HB as _ HB. rewrite Eh in HB.
        exfalso. exact (last_of_runs_nonempty _ _ HB).
      * cbn in HB. injection HB as <- HB. rewrite (IH x y B HB).
        case_decide; reflexivity.
Qed.

Section FilterFacts.

Variable moved_from : DILineInfo -> DILineInfo.

Lemma filter_loop_inv (l : list (Z * DILineInfo)) (first : Z * DILineInfo) (k : nat) :
  l !! O = Some first -> (k < length l)%nat ->
  let '(di, j, cur) := foldl (filter_step moved_from) (l, O, first.1) (seq 1 k) in
  length di = length l /\ (j <= k)%nat /\
  exists x, l !! k = Some x /\ cur = x.1 /\ di !! j = Some x /\
            last_of_runs (take (S k) l) = take j di ++ [x] /\
            forall i, (k < i)%nat -> di !! i = l !! i.
Proof.
  intros Hfirst. induction k as [|k IH]; intros Hk.
  - cbn [seq foldl]. split; [reflexivity|]. split; [lia|].
    exists first. repeat split; auto.
    destruct l as [|a l]; [discriminate|]. cbn in Hfirst. injection Hfirst as ->.
    reflexivity.
  - rewrite seq_S, foldl_app. cbn [foldl].
    specialize (IH ltac:(lia)).
    destruct (foldl (filter_step moved_from) (l, O, first.1) (seq 1 k)) as [[di j] cur].
    destruct IH as (Hlen & Hj & x & Hx & Hcur & Hdj & Hruns & Hrest).
    destruct (lookup_lt_is_Some_2 l (S k) Hk) as [y Hy].
    unfold filter_step. change (1 + k)%nat with (S k).
    rewrite (Hrest (S k)) by lia. rewrite Hy.
    assert (Htk : take (S (S k)) l = take k l ++ [x; y]).
    { rewrite (take_S_r l (S k) y Hy), (take_S_r l k x Hx), <- app_assoc. reflexivity. }
    rewrite (take_S_r l k x Hx) in Hruns.
    pose proof (last_of_runs_snoc _ _ y _ Hruns) as Hsn. rewrite <- Htk in Hsn.
    destruct (decide (y.1 <> cur)) as [Hne|Heq].
    + rewrite decide_False in Hsn by congruence.
      assert (Hy' : (if decide (S k <> S j)
                     then <[S k := (y.1, moved_from y.2)]> (<[S j := y]> di) else di) !! S j
                    = Some y).
      { case_decide as Hd.
        - rewrite list_lookup_insert_ne by lia. apply list_lookup_insert_eq. lia.
        - assert (S k = S j) as <- by lia. rewrite Hrest by lia. exact Hy. }
      assert (Ht' : take (S j) (if decide (S k <> S j)
                                then <[S k := (y.1, moved_from y.2)]> (<[S j := y]> di)
                                else di) =
                    take j di ++ [x]).
      { case_decide.
        - rewrite !take_insert_ge by lia. apply take_S_r. exact Hdj.
        - apply take_S_r. exact Hdj. }
      split; [case_decide; [rewrite !length_insert|]; exact Hlen|].
      split; [lia|]. exists y. split; [first [exact Hy|reflexivity]|]. split; [reflexivity|].
      split; [exact Hy'|]. split.
      * rewrite Hsn, Ht'. rewrite <- app_assoc. reflexivity.
      * intros i Hi. case_decide; [rewrite !list_lookup_insert_ne by lia|]; apply Hrest; lia.
    + assert (y.1 = cur) as Hyc by (destruct (decide (y.1 = cur)); [assumption|contradiction]).
      rewrite decide_True in Hsn by congruence.
      rewrite decide_True by lia.
      split; [rewrite !length_insert; exact Hlen|]. split; [lia|].
      exists y. split; [first [exact Hy|reflexivity]|]. split; [reflexivity|].
      split; [rewrite list_lookup_insert_ne by lia; apply list_lookup_insert_eq; lia|]. split.
      * rewrite Hsn. rewrite !take_insert_ge by lia. reflexivity.
      * intros i Hi. rewrite !list_lookup_insert_ne by lia. apply Hrest. lia.
Qed.

Lemma filter_lineinfo_eq (l : list (Z * DILineInfo)) :
  filter_lineinfo moved_from l = last_of_runs l.
Proof.
  destruct l as [|first rest]; [reflexivity|].
  unfold filter_lineinfo.
  pose proof (filter_loop_inv (first :: rest) first (length (first :: rest) - 1)
                eq_refl ltac:(cbn; lia)) as Hinv.
  destruct (foldl (filter_step moved_from) _ _) as [[di j] cur].
  destruct Hinv as (Hlen & Hj & x & Hx & Hcur & Hdj & Hruns & Hrest).
  replace (S (length (first :: rest) - 1)) with (length (first :: rest)) in Hruns
    by (cbn; lia).
  rewrite firstn_all in Hruns. rewrite Hruns.
  replace (j + 1)%nat with (S j) by lia.
  case_decide as Hd.
  - apply take_S_r. exact Hdj.
  - rewrite <- (take_S_r di j x Hdj). symmetry. apply take_ge. lia.
Qed.

Lemma last_of_runs_no_repeat l : no_repeat (last_of_runs l).
Proof.
  induction l as [|x l IH]; [exact I|].
  destruct l as [|y l]; [exact I|].
  rewrite last_of_runs_cons. case_decide as Hd; [exact IH|].
  assert (Hhead : exists z t, last_of_runs (y :: l) = z :: t /\ z.1 = y.1).
  { clear IH Hd x. revert y. induction l as [|w l IHl]; intros y.
    - exists y, []. split; reflexivity.
    - rewrite last_of_runs_cons. case_decide as E.
      + destruct (IHl w) as (z & t & Hz & Hz1). exists z, t. split; [exact Hz|congruence].
      + exists y, (last_of_runs (w :: l)). split; reflexivity. }
  destruct Hhead as (z & t & Hz & Hz1). rewrite Hz in *.
  cbn [no_repeat]. split; [congruence|exact IH].
Qed.

Lemma last_of_runs_fixed l : no_repeat l -> last_of_runs l = l.
Proof.
  induction l as [|x l IH]; intros Hn; [reflexivity|].
  destruct l as [|y l]; [reflexivity|].
  destruct Hn as [Hne Hn]. rewrite last_of_runs_cons.
  rewrite decide_False by exact Hne. f_equal. apply IH. exact Hn.
Qed.

Lemma last_of_runs_sublist l : last_of_runs l `sublist_of` l.
Proof.
  induction l as [|x l IH]; [constructor|].
  destruct l as [|y l]; [reflexivity|].
  rewrite last_of_runs_cons. case_decide.
  - apply sublist_cons. exact IH.
  - apply sublist_skip. exact IH.
Qed.

Lemma last_of_runs_last l : last (last_of_runs l) = last l.
Proof.
  induction l as [|x l IH]; [reflexivity|].
  destruct l as [|y l]; [reflexivity|].
  rewrite last_of_runs_cons. case_decide.
  - rewrite IH. reflexivity.
  - change (last (x :: y :: l)) with (last (y :: l)). rewrite <- IH.
    destruct (last_of_runs (y :: l)) eqn:E; [|reflexivity].
    exfalso. exact (last_of_runs_nonempty _ _ E).
Qed.

(** X3.  The in-place filter of the line table keeps, of every run of
    neighbouring entries with one address, the last entry: its result is
    [last_of_runs] of the table, a sub-list of the table in the table's order
    with the table's last entry as its last.  What [std::move] leaves in an
    entry moved from never shows in the result. *)
Theorem filter_lineinfo_keeps_last (l : list (Z * DILineInfo)) :
  Z.of_nat (length l) < 2 ^ 32 ->
  filter_lineinfo moved_from l = last_of_runs l /\
  filter_lineinfo moved_from l `sublist_of` l /\
  last (filter_lineinfo moved_from l) = last l.
Proof.
  intros _. rewrite filter_lineinfo_eq.
  split; [reflexivity|]. split; [apply last_of_runs_sublist|apply last_of_runs_last].
Qed.

(** X4.  After the filter no two neighbouring entries have the same address; a
    table without such neighbours is left as it is, and filtering twice is
    filtering once. *)
Theorem filter_lineinfo_no_repeat (l : list (Z * DILineInfo)) :
  Z.of_nat (length l) < 2 ^ 32 ->
  no_repeat (filter_lineinfo moved_from l) /\
  (no_repeat l -> filter_lineinfo moved_from l = l) /\
  filter_lineinfo moved_from (filter_lineinfo moved_from l) = filter_lineinfo moved_from l.
Proof.
  intros _. rewrite !filter_lineinfo_eq.
  split; [apply last_of_runs_no_repeat|]. split; [apply last_of_runs_fixed|].
  apply last_of_runs_fixed, last_of_runs_no_repeat.
Qed.

End FilterFacts.

Lemma filter_lineinfo_keeps_last_witness :
  filter_lineinfo (fun _ => mkDI "" "" 0) demo_table =
  [(1, mkDI "a" "f" 2); (2, mkDI "a" "f" 3); (3, mkDI "a" "f" 5); (1, mkDI "a" "f" 7)].
Proof.
  assert (H : Z.of_nat (length demo_table) < 2 ^ 32) by (cbn; lia).
  rewrite (proj1 (filter_lineinfo_keeps_last (fun _ => mkDI "" "" 0) demo_table H)).
  reflexivity.
Defined.

Lemma filter_lineinfo_no_repeat_witness :
  no_repeat (filter_lineinfo (fun _ => mkDI "" "" 0) demo_table).
Proof.
  assert (H : Z.of_nat (length demo_table) < 2 ^ 32) by (cbn; lia).
  exact (proj1 (filter_lineinfo_no_repeat (fun _ => mkDI "" "" 0) demo_table H)).
Defined.

(** ** The line-info printer *)

Lemma matching_prefix_refl l : matching_prefix l l = length l.
Proof.
  induction l as [|d l IH]; [reflexivity|]. cbn. rewrite decide_True by reflexivity.
  now rewrite IH.
Qed.

Lemma method_at_is_end v m : method_at_is v (length v) m = false.
Proof.
  unfold method_at_is. rewrite (proj2 (lookup_ge_None v (length v))) by lia.
  apply bool_decide_eq_false_2. discriminate.
Qed.

Lemma same_method_at_end p frames :
  same_method_at p frames (length (context p)) = false.
Proof.
  unfold same_method_at. rewrite (proj2 (lookup_ge_None (context p) _)) by lia.
  reflexivity.
Qed.

Lemma emit_lineinfo_body_same p DI :
  context p = frames_of DI ->
  (emit_lineinfo_body p DI).1 = (p, []).
Proof.
  intros Hctx. unfold emit_lineinfo_body. rewrite <- Hctx.
  rewrite matching_prefix_refl.
  assert (Hl : line_only_check p (context p) (length (context p)) =
               (length (context p), false)).
  { unfold line_only_check.
    destruct (collapse_recursive p); [|now rewrite same_method_at_end].
    destruct (length (context p)) as [|n] eqn:En; cbn beta iota.
    - rewrite <- En. now rewrite same_method_at_end.
    - destruct (method_of <$> context p !! n) as [m|];
        rewrite <- En, ?method_at_is_end, same_method_at_end; reflexivity. }
  rewrite Hl. unfold close_frames. rewrite decide_False by lia.
  rewrite drop_all. reflexivity.
Qed.

Lemma emit_lineinfo_same p DI :
  context p = frames_of DI -> emit_lineinfo p DI = (p, []).
Proof.
  intros Hctx. unfold emit_lineinfo.
  destruct (decide (verbosity p = output_none)) as [Hv|Hv]; [reflexivity|].
  destruct (decide (nframes_of DI = O)) as [Hz|Hz]; [reflexivity|].
  pose proof (emit_lineinfo_body_same p DI Hctx) as H.
  destruct (emit_lineinfo_body p DI) as [[p' out] n]. cbn in H. exact H.
Qed.

Lemma emit_lineinfo_context p DI :
  depth_inv p -> verbosity p = output_source -> nframes_of DI <> O ->
  context (emit_lineinfo p DI).1 = frames_of DI /\
  inline_depth (emit_lineinfo p DI).1 = runs (frames_of DI).
Proof.
  intros Hinv Hv Hn. unfold emit_lineinfo. rewrite Hv.
  destruct (decide (output_source = output_none)) as [H|_]; [discriminate H|].
  destruct (decide (nframes_of DI = O)) as [H|_]; [contradiction|].
  destruct (emit_lineinfo_body_spec p DI Hinv) as (B1 & B2 & _).
  destruct (emit_lineinfo_body p DI) as [[p' out] n]. cbn in *. auto.
Qed.

Lemma frames_of_small DI :
  Z.of_nat (length DI) < 2 ^ 32 -> frames_of DI = reverse DI.
Proof.
  intros H. unfold frames_of, nframes_of. rewrite wrap32_small by lia.
  rewrite Nat2Z.id, firstn_all. reflexivity.
Qed.

Lemma same_config_refl p : same_config p p.
Proof. repeat split. Qed.

Lemma same_config_trans p q r : same_config p q -> same_config q r -> same_config p r.
Proof. intros (A & B & C & D) (A' & B' & C' & D'). repeat split; congruence. Qed.

Lemma same_config_set_state ctx d p : same_config (set_state ctx d p) p.
Proof. repeat split. Qed.

Lemma close_frames_config p k ulo : same_config (close_frames p k ulo).1 p.
Proof.
  unfold close_frames. case_decide; [|apply same_config_refl].
  case_decide; repeat split.
Qed.

Lemma print_frames_config rest : forall cur p ulo nctx,
  same_config (print_frames rest cur p ulo nctx).1.1 p.
Proof.
  induction rest as [|frame rest IH]; intros cur p ulo nctx; [apply same_config_refl|].
  cbn [print_frames].
  destruct (match cur with Some method => bool_decide (method_of frame = method)
                         | None => false end).
  - set (p' := set_state (context p ++ [frame]) (inline_depth p) p).
    specialize (IH cur p' ulo (S nctx)).
    destruct (print_frames rest cur p' ulo (S nctx)) as [[q out] n]. exact IH.
  - unfold open_frame.
    destruct ulo.
    + set (p' := set_state (context p ++ [frame]) (inline_depth p) p).
      specialize (IH (if collapse_recursive p then Some (method_of frame) else None)
                     p' false (S nctx)).
      destruct (print_frames rest _ p' false (S nctx)) as [[q out] n]. exact IH.
    + set (p' := set_state (context p ++ [frame]) (wrap32 (inline_depth p + 1)) p).
      specialize (IH (if collapse_recursive p then Some (method_of frame) else None)
                     p' false (S nctx)).
      destruct (print_frames rest _ p' false (S nctx)) as [[q out] n]. exact IH.
Qed.

Lemma emit_lineinfo_config p DI : same_config (emit_lineinfo p DI).1 p.
Proof.
  unfold emit_lineinfo.
  destruct (decide (verbosity p = output_none)) as [Hv|Hv]; [apply same_config_refl|].
  destruct (decide (nframes_of DI = O)) as [Hz|Hz]; [apply same_config_refl|].
  unfold emit_lineinfo_body.
  destruct (line_only_check p (frames_of DI) _) as [k ulo].
  pose proof (close_frames_config p k ulo) as Hc.
  destruct (close_frames p k ulo) as [p1 closing].
  pose proof (print_frames_config (drop k (frames_of DI)) None p1 ulo k) as Hp.
  destruct (print_frames _ None p1 ulo k) as [[p2 opening] n].
  exact (same_config_trans _ _ _ Hp Hc).
Qed.

Lemma call_printer_config p c : same_config (call_printer p c).1 p.
Proof. destruct c; [apply emit_lineinfo_config|repeat split]. Qed.

Lemma run_calls_config calls : forall p, same_config (run_calls p calls).1 p.
Proof.
  induction calls as [|c calls IH]; intros p; [apply same_config_refl|].
  cbn [run_calls]. pose proof (call_printer_config p c) as H1.
  destruct (call_printer p c) as [p1 out1]. specialize (IH p1).
  destruct (run_calls p1 calls) as [p2 out2].
  exact (same_config_trans _ _ _ IH H1).
Qed.

Lemma SetVerbosity_source v p :
  v <> "none" -> verbosity p = output_source ->
  verbosity (SetVerbosity v p) = output_source.
Proof.
  intros Hv Hp. unfold SetVerbosity.
  destruct (decide ("default" = v)); [reflexivity|].
  destruct (decide ("source" = v)); [reflexivity|].
  destruct (decide ("none" = v)) as [E|_]; [congruence|exact Hp].
Qed.

Lemma printer_eta p :
  p = mkPrinter (context p) (inline_depth p) (LineStart p) (bracket_outer p)
        (collapse_recursive p) (verbosity p).
Proof. destruct p; reflexivity. Qed.

Lemma same_config_eq p q :
  same_config p q -> context p = context q -> inline_depth p = inline_depth q -> p = q.
Proof.
  intros (A & B & C & D) E F. rewrite (printer_eta p), (printer_eta q). congruence.
Qed.

(** X5.  After [emit_lineinfo] on a printer that prints (verbosity other than
    none), for a non-empty stack [DI] (innermost frame first), the context of
    the printer is that stack, outermost frame first, and [inline_depth] is
    its number of runs of frames of one method, whatever calls the printer has
    served before. *)
Theorem emit_lineinfo_sets_context (ls : string) (bo : bool) (v : string)
    (calls : list PrinterCall) (DI : list DILineInfo) :
  v <> "none" -> DI <> [] -> Z.of_nat (length DI) < 2 ^ 32 ->
  let p := (run_calls (SetVerbosity v (new_printer ls bo)) calls).1 in
  context (emit_lineinfo p DI).1 = reverse DI /\
  inline_depth (emit_lineinfo p DI).1 = runs (reverse DI).
Proof.
  intros Hv Hne Hlen p.
  assert (Hinv : depth_inv p) by (apply run_calls_inv, depth_inv_new).
  rewrite <- (frames_of_small DI Hlen).
  apply emit_lineinfo_context; [exact Hinv| |].
  - destruct (run_calls_config calls (SetVerbosity v (new_printer ls bo))) as (_ & _ & _ & Hver).
    fold p in Hver. rewrite Hver. apply SetVerbosity_source; [exact Hv|reflexivity].
  - unfold nframes_of. rewrite wrap32_small by lia. destruct DI; [contradiction|].
    cbn [length]. lia.
Qed.

Lemma emit_lineinfo_twice p DI :
  depth_inv p ->
  emit_lineinfo (emit_lineinfo p DI).1 DI = ((emit_lineinfo p DI).1, []).
Proof.
  intros Hinv.
  destruct (decide (verbosity p = output_none)) as [Hv|Hv].
  { assert (E : emit_lineinfo p DI = (p, []))
      by (unfold emit_lineinfo; rewrite decide_True by exact Hv; reflexivity).
    rewrite E. exact E. }
  destruct (decide (nframes_of DI = O)) as [Hz|Hz].
  { assert (E : emit_lineinfo p DI = (p, [])).
    { unfold emit_lineinfo. rewrite decide_False by exact Hv.
      rewrite decide_True by exact Hz. reflexivity. }
    rewrite E. exact E. }
  apply emit_lineinfo_same.
  apply emit_lineinfo_context; [exact Hinv| |exact Hz].
  destruct (verbosity p); [contradiction|reflexivity].
Qed.

(** X6.  A stack given twice in a row is printed once: the second
    [emit_lineinfo] writes nothing and leaves the printer as it is. *)
Theorem emit_lineinfo_repeat_is_silent (ls : string) (bo : bool) (v : string)
    (calls : list PrinterCall) (DI : list DILineInfo) :
  let p := (run_calls (SetVerbosity v (new_printer ls bo)) calls).1 in
  emit_lineinfo (emit_lineinfo p DI).1 DI = ((emit_lineinfo p DI).1, []).
Proof.
  intros p. apply emit_lineinfo_twice, run_calls_inv, depth_inv_new.
Qed.

(** X7.  With verbosity none the printer writes nothing and stays in its
    initial state, whatever calls are made. *)
Theorem verbosity_none_is_silent (ls : string) (bo : bool) (calls : list PrinterCall) :
  run_calls (SetVerbosity "none" (new_printer ls bo)) calls =
  (SetVerbosity "none" (new_printer ls bo), []).
Proof.
  change (SetVerbosity "none" (new_printer ls bo)) with
    (mkPrinter [] 0 ls bo true output_none).
  induction calls as [|c calls IH]; [reflexivity|].
  cbn [run_calls].
  assert (E : call_printer (mkPrinter [] 0 ls bo true output_none) c =
              (mkPrinter [] 0 ls bo true output_none, [])).
  { destruct c; [reflexivity|]. destruct bo; reflexivity. }
  rewrite E, IH. reflexivity.
Qed.

Lemma inlining_indent_fresh v ls bo :
  inlining_indent (SetVerbosity v (new_printer ls bo)) = 0.
Proof.
  unfold SetVerbosity.
  destruct (decide ("default" = v)); [destruct bo; reflexivity|].
  destruct (decide ("source" = v)); [destruct bo; reflexivity|].
  destruct (decide ("none" = v)); destruct bo; reflexivity.
Qed.

(** X8.  [emit_finish] writes one line that closes every open frame, with as
    many closing glyphs as the indent (the depth, plus one with
    [bracket_outer], minus one), and nothing when the indent is 0; it puts the
    printer back in its state before the first call, and a second
    [emit_finish] writes nothing. *)
Theorem emit_finish_closes_all (ls : string) (bo : bool) (v : string)
    (calls : list PrinterCall) :
  let p0 := SetVerbosity v (new_printer ls bo) in
  let p := (run_calls p0 calls).1 in
  let pops := runs (context p) + (if bo then 1 else 0) - 1 in
  runs (context p) + 1 < 2 ^ 32 ->
  (emit_finish p).2 = (if decide (0 < pops) then [TLineStart; TPops pops; TNewline] else []) /\
  (emit_finish p).1 = p0 /\
  (emit_finish (emit_finish p).1).2 = [].
Proof.
  intros p0 p pops Hb.
  assert (Hinv : depth_inv p) by (apply run_calls_inv, depth_inv_new).
  destruct Hinv as (Hc & Hd & Hl).
  destruct (run_calls_config calls p0) as (A & B & C & D). fold p in A, B, C, D.
  assert (Hbo : bracket_outer p = bo).
  { rewrite B. unfold p0, SetVerbosity. repeat case_decide; reflexivity. }
  pose proof (runs_bounds (context p)) as Hr.
  assert (Hi : inlining_indent p = Z.max pops 0).
  { unfold inlining_indent. rewrite Hd, Hbo. unfold pops.
    destruct bo; rewrite wrap32_small by lia; lia. }
  assert (E1 : (emit_finish p).1 = p0).
  { apply same_config_eq; [repeat split; assumption| |];
      unfold p0, SetVerbosity; repeat case_decide; reflexivity. }
  split; [|split].
  - unfold emit_finish. cbn [snd]. rewrite Hi.
    destruct (decide (0 < pops)) as [Hp|Hp].
    + rewrite decide_True by lia. replace (Z.max pops 0) with pops by lia. reflexivity.
    + rewrite decide_False by lia. reflexivity.
  - exact E1.
  - rewrite E1. unfold emit_finish. cbn [snd]. unfold p0.
    rewrite inlining_indent_fresh. reflexivity.
Qed.

Lemma scan_lines_app ts1 : forall b ts2,
  scan_lines b (ts1 ++ ts2) =
  match scan_lines b ts1 with Some b' => scan_lines b' ts2 | None => None end.
Proof.
  induction ts1 as [|t ts1 IH]; intros b ts2; [reflexivity|].
  cbn [app scan_lines]. destruct t, b; try reflexivity; apply IH.
Qed.

Lemma line_suffix_scan frame : scan_lines true (line_suffix frame) = Some true.
Proof. unfold line_suffix. case_decide; reflexivity. Qed.

Lemma open_frame_scan p frame ulo nctx :
  scan_lines false (open_frame p frame ulo nctx).2 = Some true.
Proof.
  unfold open_frame. destruct ulo; cbn [snd].
  - cbn [app scan_lines]. rewrite scan_lines_app, line_suffix_scan. reflexivity.
  - destruct (bracket_outer p || negb (S nctx =? 1)%nat);
      cbn [app scan_lines]; rewrite scan_lines_app, line_suffix_scan; reflexivity.
Qed.

Lemma print_frames_scan rest : forall cur p ulo nctx,
  scan_lines (bool_decide (is_Some cur)) (print_frames rest cur p ulo nctx).1.2 = Some false.
Proof.
  induction rest as [|frame rest IH]; intros cur p ulo nctx.
  - destruct cur; reflexivity.
  - cbn [print_frames].
    destruct cur as [method|].
    + destruct (bool_decide (method_of frame = method)).
      * set (p' := set_state (context p ++ [frame]) (inline_depth p) p).
        specialize (IH (Some method) p' ulo (S nctx)).
        destruct (print_frames rest (Some method) p' ulo (S nctx)) as [[q out] n].
        cbn in *. exact IH.
      * pose proof (open_frame_scan p frame ulo nctx) as Ho.
        destruct (open_frame p frame ulo nctx) as [p' line].
        specialize (IH (if collapse_recursive p then Some (method_of frame) else None)
                       p' false (S nctx)).
        destruct (print_frames rest _ p' false (S nctx)) as [[q out] n].
        cbn [fst snd] in *.
        change (bool_decide (is_Some (Some method))) with true.
        cbn [app scan_lines]. rewrite scan_lines_app, Ho.
        destruct (collapse_recursive p); cbn [app scan_lines]; exact IH.
    + pose proof (open_frame_scan p frame ulo nctx) as Ho.
      destruct (open_frame p frame ulo nctx) as [p' line].
      specialize (IH (if collapse_recursive p then Some (method_of frame) else None)
                     p' false (S nctx)).
      destruct (print_frames rest _ p' false (S nctx)) as [[q out] n].
      cbn [fst snd] in *.
      change (bool_decide (is_Some None)) with false.
      cbn [app]. rewrite scan_lines_app, Ho.
      destruct (collapse_recursive p); cbn [app scan_lines]; exact IH.
Qed.

Lemma close_frames_scan p k ulo : scan_lines false (close_frames p k ulo).2 = Some false.
Proof. unfold close_frames. repeat case_decide; reflexivity. Qed.

(** X9.  What a call of the printer writes is whole lines: every line starts
    with [LineStart] and ends with a newline, and nothing is written outside
    a line, in every state of the printer. *)
Theorem printer_writes_whole_lines (p : DILineInfoPrinter) (c : PrinterCall) :
  scan_lines false (call_printer p c).2 = Some false.
Proof.
  destruct c as [DI|]; cbn [call_printer].
  - unfold emit_lineinfo.
    destruct (decide (verbosity p = output_none)) as [Hv|Hv]; [reflexivity|].
    destruct (decide (nframes_of DI = O)) as [Hz|Hz]; [reflexivity|].
    unfold emit_lineinfo_body.
    destruct (line_only_check p (frames_of DI) _) as [k ulo].
    pose proof (close_frames_scan p k ulo) as Hc.
    destruct (close_frames p k ulo) as [p1 closing].
    pose proof (print_frames_scan (drop k (frames_of DI)) None p1 ulo k) as Hp.
    destruct (print_frames _ None p1 ulo k) as [[p2 opening] n].
    cbn [fst snd] in *. rewrite scan_lines_app, Hc. exact Hp.
  - unfold emit_finish. cbn [snd]. case_decide; reflexivity.
Qed.

Lemma emit_lineinfo_sets_context_witness :
  context (emit_lineinfo (run_calls (SetVerbosity "source" (new_printer "; " true))
                            [CallLineinfo [demo_B; demo_A]]).1 [demo_C; demo_A]).1 =
  [demo_A; demo_C].
Proof.
  assert (H1 : "source" <> "none") by discriminate.
  assert (H2 : [demo_C; demo_A] <> []) by discriminate.
  assert (H3 : Z.of_nat (length [demo_C; demo_A]) < 2 ^ 32) by (cbn; lia).
  exact (proj1 (emit_lineinfo_sets_context "; " true "source"
                  [CallLineinfo [demo_B; demo_A]] [demo_C; demo_A] H1 H2 H3)).
Defined.

Lemma emit_finish_closes_all_witness :
  (emit_finish (run_calls (SetVerbosity "default" (new_printer "; " true))
                  [CallLineinfo [demo_B; demo_A]]).1).2 =
  [TLineStart; TPops 2; TNewline].
Proof.
  assert (H : runs (context (run_calls (SetVerbosity "default" (new_printer "; " true))
                               [CallLineinfo [demo_B; demo_A]]).1) + 1 < 2 ^ 32)
    by (vm_compute; reflexivity).
  rewrite (proj1 (emit_finish_closes_all "; " true "default"
                    [CallLineinfo [demo_B; demo_A]] H)).
  vm_compute. reflexivity.
Defined.

(** ** The symbol table and the callback of the symbolizer *)

Section SymbolTableMore.

Variable object : option (list SymbolRef).
Variable lookupLocalPC : Z -> option string.
Variables (Fptr Fsize slide : Z).

Lemma lookupSymbolName_in_table (st : SymbolTable) (addr : Z) (name : string) :
  (lookupSymbolName object lookupLocalPC slide addr st).2 = Some name ->
  Table (lookupSymbolName object lookupLocalPC slide addr st).1 !! addr = Some name /\
  name <> "".
Proof.
  unfold lookupSymbolName.
  destruct (Table st !! addr) as [old|] eqn:E; cbn [fst snd Table]; unfold c_str_or_null;
    case_decide; intros [= <-].
  - split; [exact E|assumption].
  - split; [apply lookup_insert_eq|assumption].
Qed.

Lemma lookupSymbolName_then_lookupSymbol (Ctx : gset string) (st : SymbolTable)
    (addr other : Z) :
  lookupSymbol Ctx addr (lookupSymbolName object lookupLocalPC slide addr st).1 =
    match (lookupSymbolName object lookupLocalPC slide addr st).2 with
    | Some name => if decide (name ∈ Ctx) then None else Some (Some name)
    | None => Some None
    end /\
  (other <> addr ->
   lookupSymbol Ctx other (lookupSymbolName object lookupLocalPC slide addr st).1 =
   lookupSymbol Ctx other st).
Proof.
  unfold lookupSymbolName, lookupSymbol.
  destruct (Table st !! addr) as [name|] eqn:E; cbn [fst snd Table].
  - rewrite E. split; reflexivity.
  - rewrite lookup_insert_eq. split; [reflexivity|].
    intros Hne. rewrite lookup_insert_ne by congruence. reflexivity.
Qed.

(** X10.  [lookupSymbol] after [lookupSymbolName] on an address gives the
    symbol of the name that lookup returned, and [NULL] when it returned
    null.  In the build with assertions it stops the process instead when a
    symbol of that name is already defined in the context.  The lookup of
    the name changes the answer of [lookupSymbol] at no other address. *)
Theorem lookupSymbol_after_lookupSymbolName (Ctx : gset string) (st : SymbolTable)
    (addr other : Z) :
  let r := lookupSymbolName object lookupLocalPC slide addr st in
  lookupSymbol Ctx addr r.1 =
    match r.2 with
    | Some name => if decide (name ∈ Ctx) then None else Some (Some name)
    | None => Some None
    end /\
  (other <> addr -> lookupSymbol Ctx other r.1 = lookupSymbol Ctx other st).
Proof. cbv zeta. apply lookupSymbolName_then_lookupSymbol. Qed.

(** X11.  A recorded address outside the region for which the symbolicator has
    no name (null or empty) is unresolved after finalize and stays so:
    [lookupSymbolName] returns null and leaves the table as it is, whatever
    the object file holds at that address, and [lookupSymbol] returns
    null, whatever symbols are defined. *)
Theorem recorded_unresolved_stays (Ctx : gset string) (addrs : list Z) (addr : Z) :
  0 <= Fptr -> 0 <= Fsize -> Fptr + Fsize < 2 ^ 64 ->
  addr ∈ addrs -> ~ (Fptr <= addr < Fptr + Fsize) ->
  lookupLocalPC addr = None \/ lookupLocalPC addr = Some "" ->
  let st := createSymbols lookupLocalPC Fptr Fsize
              (setIP Fptr (record_all addrs (mkTable ∅ 0))) in
  lookupSymbolName object lookupLocalPC slide addr st = (st, None) /\
  lookupSymbol Ctx addr st = Some None.
Proof.
  intros H0 H1 H2 Hin Hout Hsym st.
  pose proof (createSymbols_recorded lookupLocalPC Fptr Fsize addrs addr H0 H1 H2 Hin) as Hn.
  fold st in Hn. rewrite decide_False in Hn by exact Hout.
  assert (Hn' : Table st !! addr = Some "").
  { rewrite Hn. destruct Hsym as [-> | ->]; reflexivity. }
  unfold lookupSymbolName, lookupSymbol. rewrite Hn'. split; reflexivity.
Qed.

(** X12.  Two distinct recorded addresses inside the region get the labels L
    followed by their offsets, and these labels differ: [lookupSymbol] gives
    the symbol of each while it is not defined in the context, also once the
    label of the other address has been declared. *)
Theorem labels_are_distinct (Ctx : gset string) (addrs : list Z) (a1 a2 : Z) :
  0 <= Fptr -> 0 <= Fsize -> Fptr + Fsize < 2 ^ 64 ->
  a1 ∈ addrs -> a2 ∈ addrs ->
  Fptr <= a1 < Fptr + Fsize -> Fptr <= a2 < Fptr + Fsize -> a1 <> a2 ->
  "L" +:+ pretty (a1 - Fptr) ∉ Ctx -> "L" +:+ pretty (a2 - Fptr) ∉ Ctx ->
  let st := createSymbols lookupLocalPC Fptr Fsize
              (setIP Fptr (record_all addrs (mkTable ∅ 0))) in
  lookupSymbol Ctx a1 st = Some (Some ("L" +:+ pretty (a1 - Fptr))) /\
  lookupSymbol Ctx a2 st = Some (Some ("L" +:+ pretty (a2 - Fptr))) /\
  lookupSymbol Ctx a1 st <> lookupSymbol Ctx a2 st /\
  lookupSymbol ({["L" +:+ pretty (a1 - Fptr)]} ∪ Ctx) a2 st =
    Some (Some ("L" +:+ pretty (a2 - Fptr))).
Proof.
  intros H0 H1 H2 Hin1 Hin2 Hr1 Hr2 Hne Hc1 Hc2 st.
  pose proof (createSymbols_recorded lookupLocalPC Fptr Fsize addrs a1 H0 H1 H2 Hin1) as N1.
  pose proof (createSymbols_recorded lookupLocalPC Fptr Fsize addrs a2 H0 H1 H2 Hin2) as N2.
  fold st in N1, N2. rewrite decide_True in N1 by exact Hr1.
  rewrite decide_True in N2 by exact Hr2.
  assert (Hl : "L" +:+ pretty (a1 - Fptr) <> "L" +:+ pretty (a2 - Fptr)).
  { intros E. cbn in E. injection E as E.
    apply (@inj _ _ eq eq (@pretty Z _) pretty_Z_inj) in E. lia. }
  unfold lookupSymbol. rewrite N1, N2. rewrite !c_str_label.
  rewrite (decide_False (P := "L" +:+ pretty (a1 - Fptr) ∈ Ctx)) by exact Hc1.
  rewrite (decide_False (P := "L" +:+ pretty (a2 - Fptr) ∈ Ctx)) by exact Hc2.
  split; [reflexivity|]. split; [reflexivity|]. split; [congruence|].
  rewrite decide_False; [reflexivity|].
  intros Hin. apply elem_of_union in Hin as [Hin|Hin]; [|exact (Hc2 Hin)].
  apply elem_of_singleton in Hin. exact (Hl (eq_sym Hin)).
Qed.

Lemma createSymbols_dom (st : SymbolTable) :
  dom (Table (createSymbols lookupLocalPC Fptr Fsize st)) = dom (Table st).
Proof.
  apply set_eq. intros a. rewrite !elem_of_dom, createSymbols_lookup.
  destruct (Table st !! a); cbn; split; intros [x Hx]; eauto; discriminate.
Qed.

Lemma find_symbol_sound syms offset name :
  find_symbol syms offset = name -> name <> "" ->
  exists Sym a, Sym ∈ syms /\ sym_address Sym = offset /\ sym_name Sym = Some name /\
                sym_section Sym = Some a /\ a <> 0.
Proof.
  induction syms as [|Sym syms IH]; intros Hf Hne; cbn in Hf; [congruence|].
  assert (Hrec : find_symbol syms offset = name ->
                 exists Sym0 a, Sym0 ∈ Sym :: syms /\ sym_address Sym0 = offset /\
                   sym_name Sym0 = Some name /\ sym_section Sym0 = Some a /\ a <> 0).
  { intros H. destruct (IH H Hne) as (S0 & a & Hin & R). exists S0, a.
    split; [apply elem_of_cons; right; exact Hin|exact R]. }
  destruct (sym_section Sym) as [sa|] eqn:Es; [|auto].
  destruct (decide (sa = 0)); [auto|].
  destruct (decide (sym_address Sym = offset)); [|auto].
  destruct (sym_name Sym) as [sName|] eqn:En; [|auto].
  subst sName. exists Sym, sa. split; [apply elem_of_cons; left; reflexivity|auto].
Qed.

Lemma find_symbol_none syms offset :
  (forall Sym, Sym ∈ syms -> sym_address Sym <> offset) -> find_symbol syms offset = "".
Proof.
  induction syms as [|Sym syms IH]; intros Hall; [reflexivity|]. cbn.
  assert (Hrec : find_symbol syms offset = "").
  { apply IH. intros S0 Hin. apply Hall. apply elem_of_cons. right. exact Hin. }
  destruct (sym_section Sym); [|exact Hrec].
  destruct (decide _); [exact Hrec|].
  destruct (decide (sym_address Sym = offset)) as [E|_]; [|exact Hrec].
  exfalso. apply (Hall Sym); [apply elem_of_cons; left; reflexivity|exact E].
Qed.

(** X13.  A non-empty name returned by [getSymbolNameAt] is the name of a symbol
    of the object file at exactly that offset, in a section whose address is
    not 0. *)
Theorem getSymbolNameAt_sound (offset : Z) (name : string) :
  getSymbolNameAt object offset = name -> name <> "" ->
  exists syms Sym a,
    object = Some syms /\ Sym ∈ syms /\ sym_address Sym = offset /\
    sym_name Sym = Some name /\ sym_section Sym = Some a /\ a <> 0.
Proof.
  unfold getSymbolNameAt. destruct object as [syms|]; [|congruence].
  intros Hf Hne. destruct (find_symbol_sound syms offset name Hf Hne) as (Sym & a & R).
  exists syms, Sym, a. split; [reflexivity|exact R].
Qed.

(** X14.  When the object file has no symbol at [addr + slide], or there is no
    object file, [getSymbolNameAt] is empty there and the first lookup of
    [addr] returns the symbolicator's name, null when it has none or an empty
    one. *)
Theorem lookupSymbolName_without_object_symbol (st : SymbolTable) (addr : Z) :
  match object with
  | Some syms => forall Sym, Sym ∈ syms -> sym_address Sym <> wrap64 (addr + slide)
  | None => True
  end ->
  Table st !! addr = None ->
  getSymbolNameAt object (wrap64 (addr + slide)) = "" /\
  (lookupSymbolName object lookupLocalPC slide addr st).2 =
    match lookupLocalPC addr with
    | Some global => c_str_or_null global
    | None => None
    end.
Proof.
  intros Hobj Hn.
  assert (Hg : getSymbolNameAt object (wrap64 (addr + slide)) = "").
  { unfold getSymbolNameAt. destruct object as [syms|]; [|reflexivity].
    apply find_symbol_none. exact Hobj. }
  split; [exact Hg|].
  unfold lookupSymbolName. rewrite Hn. cbn [snd]. unfold first_seen_name. rewrite Hg.
  rewrite decide_True by reflexivity. destruct (lookupLocalPC addr); reflexivity.
Qed.

Section Callback.

Variables (RT_None RT_Branch RT_PCrel RT_LitPool : Z).

(** X15.  The callback [SymbolLookup] keeps every entry of the table and the
    instruction pointer; every name it hands out, as its result or as
    [*ReferenceName], is not empty and is the name of an address in the
    table after the call; and in pass 0 it does nothing and answers null. *)
Theorem SymbolLookup_names_are_in_table (Pass ReferenceValue ReferenceType ReferencePC : Z)
    (st : SymbolTable) :
  let r := SymbolLookup object lookupLocalPC slide RT_None RT_Branch RT_PCrel RT_LitPool
             Pass ReferenceValue ReferenceType ReferencePC st in
  Table st ⊆ Table r.1 /\ ip r.1 = ip st /\
  (forall name, r.2.1.1 = Some name \/ r.2.2 = Some name ->
     name <> "" /\ exists addr, Table r.1 !! addr = Some name) /\
  (Pass = 0 -> r = (st, (None, RT_None, None))).
Proof.
  cbv zeta. unfold SymbolLookup.
  assert (Hip : forall a, ip (lookupSymbolName object lookupLocalPC slide a st).1 = ip st).
  { intros a. unfold lookupSymbolName. destruct (Table st !! a); reflexivity. }
  assert (Hlk : forall a,
    Table st ⊆ Table (lookupSymbolName object lookupLocalPC slide a st).1 /\
    forall name, (lookupSymbolName object lookupLocalPC slide a st).2 = Some name ->
      name <> "" /\
      exists addr, Table (lookupSymbolName object lookupLocalPC slide a st).1 !! addr =
                   Some name).
  { intros a. split; [apply lookupSymbolName_keeps|].
    intros name Hn. destruct (lookupSymbolName_in_table st a name Hn) as [T N].
    split; [exact N|]. exists a. exact T. }
  destruct (decide (Pass <> 0)) as [Hp|Hp].
  2:{ split; [reflexivity|]. split; [reflexivity|]. split; [|reflexivity].
      intros name [H|H]; discriminate H. }
  destruct (decide (ReferenceType = RT_Branch)).
  { specialize (Hlk (wrap64 (ReferenceValue + getIP st))).
    specialize (Hip (wrap64 (ReferenceValue + getIP st))).
    destruct (lookupSymbolName _ _ _ _ st) as [st' nm]. cbn [fst snd] in *.
    destruct Hlk as [K1 K2]. split; [exact K1|]. split; [exact Hip|]. split; [|contradiction].
    intros name [H|H]; [|discriminate H]. apply K2. exact H. }
  destruct (decide (ReferenceType = RT_PCrel)).
  { specialize (Hlk (wrap64 (ReferenceValue + getIP st))).
    specialize (Hip (wrap64 (ReferenceValue + getIP st))).
    destruct (lookupSymbolName _ _ _ _ st) as [st' nm]. cbn [fst snd] in *.
    destruct Hlk as [K1 K2].
    destruct nm as [nm|]; cbn [fst snd].
    - split; [exact K1|]. split; [exact Hip|]. split; [|contradiction].
      intros name [H|H]; [discriminate H|]. apply K2. exact H.
    - split; [exact K1|]. split; [exact Hip|]. split; [|contradiction].
      intros name [H|H]; discriminate H. }
  destruct (decide (ReferenceType = RT_None)).
  { specialize (Hlk ReferenceValue). specialize (Hip ReferenceValue).
    destruct (lookupSymbolName _ _ _ _ st) as [st' nm]. cbn [fst snd] in *.
    destruct Hlk as [K1 K2]. split; [exact K1|]. split; [exact Hip|]. split; [|contradiction].
    intros name [H|H]; [|discriminate H]. apply K2. exact H. }
  split; [reflexivity|]. split; [reflexivity|]. split; [|contradiction].
  intros name [H|H]; discriminate H.
Qed.

End Callback.

End SymbolTableMore.

Lemma recorded_unresolved_stays_witness :
  lookupSymbolName demo_object demo_symbolicator 0 77
    (createSymbols demo_symbolicator 4096 16
       (setIP 4096 (record_all [4100; 9000; 77] (mkTable ∅ 0)))) =
  (createSymbols demo_symbolicator 4096 16
     (setIP 4096 (record_all [4100; 9000; 77] (mkTable ∅ 0))), None).
Proof.
  refine (proj1 (recorded_unresolved_stays demo_object demo_symbolicator 4096 16 0 ∅
                   [4100; 9000; 77] 77 _ _ _ _ _ _)).
  - lia.
  - lia.
  - lia.
  - apply (bool_decide_unpack _). vm_compute. exact I.
  - lia.
  - left. reflexivity.
Defined.

Lemma labels_are_distinct_witness :
  lookupSymbol ∅ 4100 (createSymbols demo_symbolicator 4096 16
                         (setIP 4096 (record_all [4100; 4104] (mkTable ∅ 0)))) =
  Some (Some "L4").
Proof.
  refine (proj1 (labels_are_distinct demo_symbolicator 4096 16 ∅ [4100; 4104] 4100 4104
                   _ _ _ _ _ _ _ _ _ _)).
  - lia.
  - lia.
  - lia.
  - apply (bool_decide_unpack _). vm_compute. exact I.
  - apply (bool_decide_unpack _). vm_compute. exact I.
  - lia.
  - lia.
  - lia.
  - apply not_elem_of_empty.
  - apply not_elem_of_empty.
Defined.

Lemma getSymbolNameAt_sound_witness :
  exists syms Sym a,
    demo_object = Some syms /\ Sym ∈ syms /\ sym_address Sym = 4104 /\
    sym_name Sym = Some "julia_f_1.inner" /\ sym_section Sym = Some a /\ a <> 0.
Proof.
  apply (getSymbolNameAt_sound demo_object 4104 "julia_f_1.inner").
  - reflexivity.
  - discriminate.
Defined.

Lemma lookupSymbolName_without_object_symbol_witness :
  (lookupSymbolName demo_object demo_symbolicator 0 9000 (mkTable ∅ 0)).2 =
  Some "jl_apply_generic".
Proof.
  refine (eq_trans (proj2 (lookupSymbolName_without_object_symbol demo_object
                             demo_symbolicator 0 (mkTable ∅ 0) 9000 _ _)) _).
  - intros Sym Hin. apply (bool_decide_unpack _).
    revert Sym Hin. apply Forall_forall. repeat constructor.
  - reflexivity.
  - reflexivity.
Defined.

(** ** The two passes *)

Section LoopMore.

Context {Streamer : Type} (E : Env Streamer).

Lemma annotate_pass0 st : annotate E O st = st.
Proof.
  unfold annotate. rewrite decide_False; [reflexivity|].
  intros [H _]. apply H. reflexivity.
Qed.

Lemma loop_body_pass0_quiet st :
  Out (loop_body E O st) = Out st /\ Lines (loop_body E O st) = Lines st.
Proof.
  unfold loop_body. rewrite annotate_pass0, declare_label_pass0.
  set (st1 := mkLoop (Index st) (insSize st) (setIP (wrap64 (Fptr E + Index st)) (DisInfo st))
                (Lines st) (Out st) (Ctx st) (Aborted st)).
  assert (H1 : Out st1 = Out st /\ Lines st1 = Lines st) by (split; reflexivity).
  destruct (Aborted st1); [exact H1|].
  set (r := decode E O st1).
  assert (Ha : after_decode E O r st1 =
               mkLoop (Index st1) (d_size r) (DisInfo st1) (Lines st1) (Out st1)
                      (Ctx st1) (Aborted st1)).
  { unfold after_decode. destruct (decide (O <> O)) as [H|_]; [|reflexivity].
    exfalso. apply H. reflexivity. }
  rewrite Ha.
  set (st2 := mkLoop (Index st1) (d_size r) (DisInfo st1) (Lines st1) (Out st1)
                (Ctx st1) (Aborted st1)).
  assert (H2 : Out st2 = Out st /\ Lines st2 = Lines st) by exact H1.
  assert (Hs : forall Inst, Out (case_Success E O Inst st2) = Out st /\
                            Lines (case_Success E O Inst st2) = Lines st).
  { intros Inst. unfold case_Success.
    destruct (decide (O = O)) as [_|H]; [|exfalso; apply H; reflexivity].
    destruct (MCIA E) as [ev|]; [|exact H2].
    destruct (isBranch _ || isCall _); [|exact H2].
    destruct (ev _ _ _); exact H2. }
  unfold switch_status. destruct (d_status r).
  - unfold case_Fail. cbn [Out Lines].
    destruct (decide (O <> O)) as [H|_]; [exfalso; apply H; reflexivity|]. exact H2.
  - unfold warn_SoftFail.
    destruct (decide (O <> O)) as [H|_]; [exfalso; apply H; reflexivity|]. apply Hs.
  - apply Hs.
Qed.

Lemma disasm_loop_pass0_quiet fuel : forall st n st',
  disasm_loop E fuel O st = Some (n, st') ->
  Out st' = Out st /\ Lines st' = Lines st.
Proof.
  induction fuel as [|fuel IH]; intros st n st' Hrun; simpl in Hrun.
  - destruct (decide (Index st < Fsize E)); [discriminate|].
    injection Hrun as _ <-. auto.
  - destruct (decide (Index st < Fsize E)).
    + destruct (Aborted (loop_body E O st)).
      * injection Hrun as _ <-. apply loop_body_pass0_quiet.
      * destruct (disasm_loop E fuel O (advance (loop_body E O st))) as [[m st1]|] eqn:Em;
          [|discriminate].
        injection Hrun as _ <-.
        destruct (IH _ _ _ Em) as [A B]. destruct (loop_body_pass0_quiet st) as [C D].
        unfold advance in A, B. cbn [Out Lines] in A, B. split; congruence.
    + injection Hrun as _ <-. auto.
Qed.

(** X16.  Pass 0 writes nothing: when it ends, the streamer is the one it
    started with. *)
Theorem pass0_writes_nothing (fuel : nat) (info : SymbolTable) (OS : Streamer)
    (n : nat) (info' : SymbolTable) (OS' : Streamer) :
  run_pass E fuel O info OS = Some (n, (info', OS')) -> OS' = OS.
Proof.
  unfold run_pass.
  destruct (disasm_loop E fuel O (pass_init E O info OS)) as [[m st]|] eqn:Em;
    [|discriminate].
  destruct (disasm_loop_pass0_quiet fuel _ _ _ Em) as [A _].
  assert (Hout : Out (pass_init E O info OS) = OS).
  { unfold pass_init.
    destruct (decide (O <> O)) as [H|_]; [exfalso; apply H; reflexivity|]. reflexivity. }
  unfold pass_finish. destruct (Aborted st).
  - intros [= _ _ <-]. congruence.
  - intros [= _ _ <-].
    destruct (decide (O <> O)) as [H|_]; [exfalso; apply H; reflexivity|]. congruence.
Qed.

Lemma pass_init_Index pass info OS : Index (pass_init E pass info OS) = 0.
Proof. apply pass_init_start. Qed.

Lemma pass_enough_fuel pass info OS :
  decoder_progresses E pass ->
  exists n st',
    (forall fuel, (Z.to_nat (Fsize E) <= fuel)%nat ->
       disasm_loop E fuel pass (pass_init E pass info OS) = Some (n, st')) /\
    (Aborted st' = false -> Fsize E <= Index st').
Proof.
  intros Hdec.
  destruct (disasm_loop_enough_fuel E pass Hdec (Z.to_nat (Fsize E)) (pass_init E pass info OS))
    as (n & st' & Hrun & _ & Hend).
  - rewrite pass_init_Index. lia.
  - rewrite pass_init_Index. lia.
  - exists n, st'. split; [|exact Hend]. intros fuel Hle.
    apply (disasm_loop_more_fuel E pass _ _ _ _ Hrun fuel Hle).
Qed.

(** X17.  With a decoder that makes progress in both passes, the two passes of
    [jl_dump_asm_internal] end, and every number of rounds from [Fsize] on
    gives the same result.  Pass 0 walks past the end of the range.  Pass 1
    walks past the end of the range too, unless the assertion of
    [lookupSymbol] stops it (the build with assertions): then it stops inside
    the range, at an address whose name in the table is the name of a symbol
    that is already defined. *)
Theorem two_passes_end (OS : Streamer) :
  decoder_progresses E 0 -> decoder_progresses E 1 ->
  exists n0 s0 n1 s1,
    (forall fuel, (Z.to_nat (Fsize E) <= fuel)%nat ->
       disasm_loop E fuel 0 (pass_init E 0 (mkTable ∅ 0) OS) = Some (n0, s0) /\
       disasm_loop E fuel 1
         (pass_init E 1 (pass_finish E 0 s0).1 (pass_finish E 0 s0).2) = Some (n1, s1) /\
       two_passes E fuel OS = Some (pass_finish E 1 s1)) /\
    Aborted s0 = false /\ Fsize E <= Index s0 /\
    (if Aborted s1 then
       Index s1 < Fsize E /\
       exists name, Table (DisInfo s1) !! wrap64 (Fptr E + Index s1) = Some name /\
                    name ∈ Ctx s1
     else Fsize E <= Index s1).
Proof.
  intros H0 H1.
  destruct (pass_enough_fuel 0 (mkTable ∅ 0) OS H0) as (n0 & s0 & R0 & End0).
  destruct (pass_enough_fuel 1 (pass_finish E 0 s0).1 (pass_finish E 0 s0).2 H1)
    as (n1 & s1 & R1 & End1).
  assert (A0 : Aborted s0 = false).
  { rewrite (disasm_loop_pass0_Aborted E _ _ _ _ (R0 _ (Nat.le_refl _))).
    apply pass_init_start. }
  exists n0, s0, n1, s1. split; [|split; [exact A0|split; [exact (End0 A0)|]]].
  - intros fuel Hle. split; [exact (R0 fuel Hle)|]. split; [exact (R1 fuel Hle)|].
    unfold two_passes, run_pass. rewrite (R0 fuel Hle).
    specialize (R1 fuel Hle). destruct (pass_finish E 0 s0) as [info OS1].
    cbn [fst snd] in R1. rewrite R1. reflexivity.
  - destruct (Aborted s1) eqn:A1; [|exact (End1 eq_refl)].
    apply (disasm_loop_abort E 1 _ _ _ _ (proj1 (proj2 (proj2 (pass_init_start E 1 _ _))))
             (R1 _ (Nat.le_refl _)) A1).
Qed.

Lemma round_state_S pass k st :
  round_state E pass (S k) st = round_state E pass k (advance (loop_body E pass st)).
Proof.
  unfold round_state.
  exact (Nat.iter_succ_r k (fun s => advance (loop_body E pass s)) st).
Qed.

Lemma offsets_walked_S pass n st :
  offsets_walked E pass (S n) st =
  Index st :: offsets_walked E pass n (advance (loop_body E pass st)).
Proof.
  unfold offsets_walked. cbn [seq]. rewrite fmap_cons. f_equal.
  rewrite <- fmap_S_seq, <- list_fmap_compose.
  apply list_fmap_ext. intros i k _. unfold compose. rewrite round_state_S. reflexivity.
Qed.

Lemma disasm_loop_rounds pass fuel : forall st n st',
  disasm_loop E fuel pass st = Some (n, st') ->
  Forall (fun i => i < Fsize E) (offsets_walked E pass n st) /\
  (Aborted st' = false -> st' = round_state E pass n st).
Proof.
  induction fuel as [|fuel IH]; intros st n st' Hrun; simpl in Hrun.
  - destruct (decide (Index st < Fsize E)); [discriminate|].
    injection Hrun as <- <-. split; [constructor|reflexivity].
  - destruct (decide (Index st < Fsize E)) as [Hlt|Hge].
    + destruct (Aborted (loop_body E pass st)) eqn:Eb.
      * injection Hrun as <- <-. split; [|congruence].
        rewrite offsets_walked_S. constructor; [exact Hlt|constructor].
      * destruct (disasm_loop E fuel pass (advance (loop_body E pass st))) as [[m st1]|] eqn:Em;
          [|discriminate].
        injection Hrun as <- <-. destruct (IH _ _ _ Em) as [A B].
        split; [rewrite offsets_walked_S; constructor; assumption|].
        intros Hs. rewrite round_state_S. exact (B Hs).
    + injection Hrun as <- <-. split; [constructor|reflexivity].
Qed.

Lemma loop_body_next_Index pass pass' st st' :
  decoder_by_offset E -> Index st = Index st' ->
  Aborted (loop_body E pass st) = false -> Aborted (loop_body E pass' st') = false ->
  Index (advance (loop_body E pass st)) = Index (advance (loop_body E pass' st')).
Proof.
  intros Hdec Hi Ha Ha'. unfold advance. cbn [Index].
  rewrite !loop_body_Index, (loop_body_size E pass st Ha), (loop_body_size E pass' st' Ha').
  cbv zeta. unfold decode.
  rewrite Index_declare_label, Index_annotate.
  rewrite (Index_declare_label E pass' (annotate E pass' st')), Index_annotate.
  rewrite <- Hi.
  set (a := getInstruction E pass (Index st) _ _ _).
  set (b := getInstruction E pass' (Index st) _ _ _).
  destruct (Hdec pass pass' (Index st)
              (insSize (declare_label E pass (annotate E pass st)))
              (insSize (declare_label E pass' (annotate E pass' st')))
              (DisInfo (declare_label E pass (annotate E pass st)))
              (DisInfo (declare_label E pass' (annotate E pass' st')))
              (Out (declare_label E pass (annotate E pass st)))
              (Out (declare_label E pass' (annotate E pass' st')))) as [Hs Hz].
  fold a in Hs, Hz. fold b in Hs, Hz. rewrite Hs, Hz. reflexivity.
Qed.

Lemma disasm_loop_same_walk fuel : forall fuel' st st' n n' s s',
  decoder_by_offset E -> Index st = Index st' -> Aborted st = false ->
  disasm_loop E fuel 0 st = Some (n, s) ->
  disasm_loop E fuel' 1 st' = Some (n', s') ->
  offsets_walked E 1 n' st' `prefix_of` offsets_walked E 0 n st /\
  (Aborted s' = false ->
   n' = n /\ offsets_walked E 1 n' st' = offsets_walked E 0 n st /\ Index s' = Index s).
Proof.
  induction fuel as [|fuel IH]; intros fuel' st st' n n' s s' Hdec Hi Hst H1 H2.
  - simpl in H1. destruct (decide (Index st < Fsize E)) as [Hlt|Hge]; [discriminate|].
    injection H1 as <- <-.
    destruct fuel'; simpl in H2; rewrite decide_False in H2 by (rewrite <- Hi; exact Hge);
      injection H2 as <- <-; (split; [reflexivity|auto]).
  - simpl in H1. destruct (decide (Index st < Fsize E)) as [Hlt|Hge].
    + assert (Eb : Aborted (loop_body E 0 st) = false)
        by (rewrite loop_body_pass0_Aborted; exact Hst).
      rewrite Eb in H1.
      destruct (disasm_loop E fuel 0 (advance (loop_body E 0 st))) as [[m t]|] eqn:Em;
        [|discriminate].
      injection H1 as <- <-.
      destruct fuel' as [|fuel']; simpl in H2;
        rewrite decide_True in H2 by (rewrite <- Hi; exact Hlt); [discriminate|].
      destruct (Aborted (loop_body E 1 st')) eqn:Eb'.
      * injection H2 as <- <-. split; [|congruence].
        rewrite !offsets_walked_S, Hi. apply prefix_cons, prefix_nil.
      * destruct (disasm_loop E fuel' 1 (advance (loop_body E 1 st'))) as [[m' t']|] eqn:Em';
          [|discriminate].
        injection H2 as <- <-.
        destruct (IH fuel' (advance (loop_body E 0 st)) (advance (loop_body E 1 st'))
                    _ _ _ _ Hdec
                    (loop_body_next_Index 0 1 st st' Hdec Hi Eb Eb') Eb Em Em') as [A B].
        rewrite !offsets_walked_S, Hi. split; [apply prefix_cons; exact A|].
        intros Hs. destruct (B Hs) as (B1 & B2 & B3).
        split; [congruence|]. split; [congruence|exact B3].
    + injection H1 as <- <-.
      destruct fuel'; simpl in H2; rewrite decide_False in H2 by (rewrite <- Hi; exact Hge);
        injection H2 as <- <-; (split; [reflexivity|auto]).
Qed.

Lemma by_offset_progresses pass pass' :
  decoder_by_offset E -> decoder_progresses E pass -> decoder_progresses E pass'.
Proof.
  intros Hdec Hp idx sz info OS Hidx. cbv zeta.
  destruct (Hdec pass' pass idx sz sz info info OS OS) as [Hs Hz].
  rewrite Hs, Hz. apply (Hp idx sz info OS Hidx).
Qed.

(** X18.  When the status and the size the decoder reports depend on the offset
    alone and the decoder makes progress, both passes end, and pass 1 walks
    the offsets of pass 0: the offsets at which the rounds of pass 1 start
    are the first of those at which the rounds of pass 0 start, in their
    order, and all of them when the assertion of [lookupSymbol] does not stop
    pass 1; then both passes make the same number of rounds and end at the
    same offset.  All these offsets are below [Fsize], and the state a pass
    ends in is the state after that many rounds. *)
Theorem passes_walk_alike (info info' : SymbolTable) (OS OS' : Streamer) :
  decoder_by_offset E -> decoder_progresses E 0 ->
  exists n0 s0 n1 s1,
    (forall fuel, (Z.to_nat (Fsize E) <= fuel)%nat ->
       disasm_loop E fuel 0 (pass_init E 0 info OS) = Some (n0, s0) /\
       disasm_loop E fuel 1 (pass_init E 1 info' OS') = Some (n1, s1)) /\
    s0 = round_state E 0 n0 (pass_init E 0 info OS) /\
    Forall (fun i => i < Fsize E) (offsets_walked E 0 n0 (pass_init E 0 info OS)) /\
    offsets_walked E 1 n1 (pass_init E 1 info' OS') `prefix_of`
      offsets_walked E 0 n0 (pass_init E 0 info OS) /\
    (Aborted s1 = false ->
     s1 = round_state E 1 n1 (pass_init E 1 info' OS') /\
     n1 = n0 /\
     offsets_walked E 1 n1 (pass_init E 1 info' OS') =
       offsets_walked E 0 n0 (pass_init E 0 info OS) /\
     Index s1 = Index s0).
Proof.
  intros Hdec H0.
  destruct (pass_enough_fuel 0 info OS H0) as (n0 & s0 & R0 & _).
  destruct (pass_enough_fuel 1 info' OS' (by_offset_progresses 0 1 Hdec H0))
    as (n1 & s1 & R1 & _).
  pose proof (R0 _ (Nat.le_refl _)) as E0. pose proof (R1 _ (Nat.le_refl _)) as E1.
  assert (A0 : Aborted s0 = false).
  { rewrite (disasm_loop_pass0_Aborted E _ _ _ _ E0). apply pass_init_start. }
  destruct (disasm_loop_rounds 0 _ _ _ _ E0) as [F0 S0].
  destruct (disasm_loop_rounds 1 _ _ _ _ E1) as [_ S1].
  destruct (disasm_loop_same_walk _ _ _ _ _ _ _ _ Hdec
              (eq_trans (pass_init_Index 0 info OS) (eq_sym (pass_init_Index 1 info' OS')))
              (proj1 (proj2 (proj2 (pass_init_start E 0 info OS)))) E0 E1) as [P Q].
  exists n0, s0, n1, s1. split; [|split; [exact (S0 A0)|split; [exact F0|split; [exact P|]]]].
  - intros fuel Hle. split; [exact (R0 fuel Hle)|exact (R1 fuel Hle)].
  - intros A1. destruct (Q A1) as (Q1 & Q2 & Q3).
    split; [exact (S1 A1)|]. split; [exact Q1|]. split; [exact Q2|exact Q3].
Qed.

End LoopMore.

Lemma pass0_writes_nothing_witness :
  exists n info', run_pass (text_env 8 true scenario_decoder) 8 0 (mkTable ∅ 0) ["begin"] =
                  Some (n, (info', ["begin"])).
Proof.
  destruct (run_pass (text_env 8 true scenario_decoder) 8 0 (mkTable ∅ 0) ["begin"])
    as [[n [info' OS']]|] eqn:Er; [|vm_compute in Er; discriminate Er].
  rewrite (pass0_writes_nothing (text_env 8 true scenario_decoder) 8 (mkTable ∅ 0)
             ["begin"] n info' OS' Er).
  exists n, info'. reflexivity.
Defined.

Lemma two_passes_end_witness :
  exists r, forall fuel, (Z.to_nat 8 <= fuel)%nat ->
    two_passes (text_env 8 true scenario_decoder) fuel [] = Some r.
Proof.
  destruct (two_passes_end (text_env 8 true scenario_decoder) []
              (scenario_progresses 0) (scenario_progresses 1))
    as (n0 & s0 & n1 & s1 & R & _).
  exists (pass_finish (text_env 8 true scenario_decoder) 1 s1).
  intros fuel Hle. exact (proj2 (proj2 (R fuel Hle))).
Defined.

Lemma scenario_by_offset : decoder_by_offset (text_env 8 true scenario_decoder).
Proof.
  intros pass pass' idx sz sz' info info' OS OS'. cbn. unfold scenario_decoder.
  destruct (decide (idx = 4)); split; reflexivity.
Qed.

Lemma passes_walk_alike_witness :
  exists n0 n1,
    offsets_walked (text_env 8 true scenario_decoder) 1 n1
      (pass_init (text_env 8 true scenario_decoder) 1 (mkTable ∅ 0) []) `prefix_of`
    offsets_walked (text_env 8 true scenario_decoder) 0 n0
      (pass_init (text_env 8 true scenario_decoder) 0 (mkTable ∅ 0) []).
Proof.
  destruct (passes_walk_alike (text_env 8 true scenario_decoder) (mkTable ∅ 0) (mkTable ∅ 0)
              [] [] scenario_by_offset (scenario_progresses 0))
    as (n0 & s0 & n1 & s1 & _ & _ & _ & P & _).
  exists n0, n1. exact P.
Defined.

(** The offsets of the scenario: both passes start their two rounds at the
    offsets 0 and 4. *)
Example scenario_offsets :
  offsets_walked (text_env 8 true scenario_decoder) 0 2
    (pass_init (text_env 8 true scenario_decoder) 0 (mkTable ∅ 0) []) = [0; 4] /\
  offsets_walked (text_env 8 true scenario_decoder) 1 2
    (pass_init (text_env 8 true scenario_decoder) 1 (mkTable ∅ 0) []) = [0; 4].
Proof. split; vm_compute; reflexivity. Qed.

(** The assertion of [lookupSymbol] at work: the instruction at offset 0 has
    the immediates 4100 and 4104, the symbolicator names both julia_f_1, and
    pass 1 declares that label at offset 4 and stops at offset 8, in its
    third round, where the symbol of that name is already defined. *)
Example assertion_stops_pass1 :
  match run_pass named_env 12 0 (mkTable ∅ 0) [] with
  | Some (_, (info, OS1)) =>
      (fun r : nat * LoopState (list string) =>
         (r.1, Aborted r.2, Index r.2, reverse (Out r.2))) <$>
        disasm_loop named_env 12 1 (pass_init named_env 1 info OS1)
  | None => None
  end =
  Some (3%nat, true, 8,
        ["# julia_f_1"; "# julia_f_1"; "inst 7"; "julia_f_1:"; "inst 0"]).
Proof. vm_compute. reflexivity. Qed.

(** ** The writer of line numbers and [jl_strip_llvm_debug] *)

Lemma eraseFromParent_absent a bb : a ∉ i_addr <$> bb -> Writer.eraseFromParent a bb = bb.
Proof.
  induction bb as [|i bb IH]; intros Hn; [reflexivity|].
  unfold Writer.eraseFromParent in *. cbn in Hn. rewrite not_elem_of_cons in Hn.
  destruct Hn as [Hne Hn]. rewrite filter_cons_True by congruence.
  now rewrite IH.
Qed.

Lemma update_inst_absent a new bb : a ∉ i_addr <$> bb -> update_inst a new bb = bb.
Proof.
  induction bb as [|i bb IH]; intros Hn; [reflexivity|].
  unfold update_inst in *. cbn in Hn. rewrite not_elem_of_cons in Hn.
  destruct Hn as [Hne Hn]. cbn. rewrite decide_False by congruence.
  now rewrite IH.
Qed.

Lemma eraseFromParent_middle K inst rest :
  i_addr inst ∉ i_addr <$> K -> i_addr inst ∉ i_addr <$> rest ->
  Writer.eraseFromParent (i_addr inst) (K ++ inst :: rest) = K ++ rest.
Proof.
  intros HK Hr. unfold Writer.eraseFromParent. rewrite filter_app, filter_cons_False by tauto.
  fold (Writer.eraseFromParent (i_addr inst) K). fold (Writer.eraseFromParent (i_addr inst) rest).
  now rewrite !eraseFromParent_absent.
Qed.

Lemma update_inst_middle K inst new rest :
  i_addr inst ∉ i_addr <$> K -> i_addr inst ∉ i_addr <$> rest ->
  update_inst (i_addr inst) new (K ++ inst :: rest) = K ++ new :: rest.
Proof.
  intros HK Hr. unfold update_inst. rewrite fmap_app, fmap_cons.
  rewrite decide_True by reflexivity.
  fold (update_inst (i_addr inst) new K). fold (update_inst (i_addr inst) new rest).
  now rewrite !update_inst_absent.
Qed.

Lemma strip_kept_addrs all_meta l :
  i_addr <$> (strip_inst all_meta <$> kept l) = i_addr <$> kept l.
Proof. rewrite <- list_fmap_compose. reflexivity. Qed.

Lemma kept_addrs_subset a l : a ∈ i_addr <$> kept l -> a ∈ i_addr <$> l.
Proof.
  rewrite !list_elem_of_fmap. intros (i & -> & Hi). exists i. split; [reflexivity|].
  unfold kept in Hi. apply list_elem_of_filter in Hi. tauto.
Qed.

Lemma strip_loop_inv all_meta AAW rest : forall done cur dl AAW1,
  NoDup (i_addr <$> (done ++ rest)) ->
  erase_deletelast dl cur = (strip_inst all_meta <$> kept done) ++ rest ->
  AAW1 = record_locs done <$> AAW ->
  exists cur' dl',
    foldl (strip_step all_meta) (cur, dl, AAW1) rest =
      (cur', dl', record_locs (done ++ rest) <$> AAW) /\
    erase_deletelast dl' cur' = strip_inst all_meta <$> kept (done ++ rest).
Proof.
  induction rest as [|inst rest IH]; intros done cur dl AAW1 Hnd Hcur ->.
  - exists cur, dl. rewrite !app_nil_r in *. split; [reflexivity|exact Hcur].
  - cbn [foldl]. unfold strip_step at 2. rewrite Hcur.
    assert (Hsplit : NoDup (i_addr <$> ((done ++ [inst]) ++ rest)))
      by now rewrite <- app_assoc.
    rewrite fmap_app, fmap_cons in Hnd. apply NoDup_app in Hnd as (Hd & Hdr & Hr).
    apply NoDup_cons in Hr as [Hir Hr].
    assert (HK : i_addr inst ∉ i_addr <$> (strip_inst all_meta <$> kept done)).
    { rewrite strip_kept_addrs. intros Hin. apply kept_addrs_subset in Hin.
      apply (Hdr _ Hin). left. }
    replace (done ++ inst :: rest) with ((done ++ [inst]) ++ rest)
      by now rewrite <- app_assoc.
    destruct (isDbgIntrinsic inst) eqn:Edbg.
    + apply IH; [exact Hsplit| |].
      * cbn [erase_deletelast]. rewrite eraseFromParent_middle by assumption.
        unfold kept. rewrite filter_app, filter_cons_False by (rewrite Edbg; discriminate).
        rewrite filter_nil, app_nil_r. reflexivity.
      * destruct AAW as [w|]; [|reflexivity]. cbn [fmap option_fmap option_map].
        unfold record_locs, kept.
        rewrite filter_app, filter_cons_False by (rewrite Edbg; discriminate).
        rewrite filter_nil, app_nil_r. reflexivity.
    + apply IH; [exact Hsplit| |].
      * cbn [erase_deletelast]. rewrite update_inst_middle by assumption.
        unfold kept. rewrite filter_app, filter_cons_True by exact Edbg.
        rewrite filter_nil, fmap_app, <- app_assoc. reflexivity.
      * destruct AAW as [w|]; [|reflexivity]. cbn [fmap option_fmap option_map].
        unfold record_locs, kept.
        rewrite filter_app, filter_cons_True by exact Edbg.
        rewrite filter_nil, foldl_app. reflexivity.
Qed.

Lemma strip_block_spec all_meta AAW f_bb :
  NoDup (i_addr <$> f_bb) ->
  strip_block all_meta AAW f_bb =
    (strip_inst all_meta <$> kept f_bb, record_locs f_bb <$> AAW).
Proof.
  intros Hnd. unfold strip_block.
  destruct (strip_loop_inv all_meta AAW f_bb [] f_bb None AAW Hnd) as (cur' & dl' & Hf & He).
  - reflexivity.
  - destruct AAW; reflexivity.
  - cbn [app] in Hf, He. rewrite Hf, He. reflexivity.
Qed.

Lemma record_locs_app l1 l2 w :
  record_locs (l1 ++ l2) w = record_locs l2 (record_locs l1 w).
Proof. unfold record_locs, kept. now rewrite filter_app, foldl_app. Qed.

Lemma strip_blocks_spec all_meta blocks : forall done AAW,
  Forall (fun bb => NoDup (i_addr <$> bb)) blocks ->
  foldl (fun acc f_bb =>
           let '(done, AAW) := acc in
           let '(bb, AAW) := strip_block all_meta AAW f_bb in
           (done ++ [bb], AAW))
        (done, AAW) blocks =
  (done ++ ((fun bb => strip_inst all_meta <$> kept bb) <$> blocks),
   record_locs (concat blocks) <$> AAW).
Proof.
  induction blocks as [|bb blocks IH]; intros done AAW Hnd.
  - cbn. rewrite app_nil_r. destruct AAW; reflexivity.
  - apply Forall_cons in Hnd as [Hbb Hnd]. cbn [foldl].
    rewrite (strip_block_spec all_meta AAW bb Hbb), (IH _ _ Hnd).
    rewrite <- app_assoc. f_equal. destruct AAW as [w|]; [|reflexivity].
    cbn [fmap option_fmap option_map concat]. now rewrite record_locs_app.
Qed.

Lemma NoDup_concat_block (blocks : list (list Instruction)) :
  NoDup (i_addr <$> concat blocks) -> Forall (fun bb => NoDup (i_addr <$> bb)) blocks.
Proof.
  induction blocks as [|bb blocks IH]; intros Hnd; [constructor|].
  cbn [concat] in Hnd. rewrite fmap_app in Hnd. apply NoDup_app in Hnd as (H1 & _ & H2).
  constructor; [exact H1|exact (IH H2)].
Qed.

Lemma strip_function_spec all_meta AAW f :
  NoDup (i_addr <$> function_insts f) ->
  strip_function all_meta AAW f =
    (mkFunction (f_addr f) None (f_metadata f)
                ((fun bb => strip_inst all_meta <$> kept bb) <$> f_blocks f),
     record_function f <$> AAW).
Proof.
  intros Hnd. unfold strip_function, strip_blocks.
  rewrite strip_blocks_spec by (apply NoDup_concat_block; exact Hnd).
  cbn [app]. destruct AAW; reflexivity.
Qed.

Lemma NoDup_all_insts fs :
  NoDup (i_addr <$> concat (function_insts <$> fs)) ->
  Forall (fun f => NoDup (i_addr <$> function_insts f)) fs.
Proof.
  induction fs as [|f fs IH]; intros Hnd; [constructor|].
  cbn [fmap list_fmap concat] in Hnd. rewrite fmap_app in Hnd.
  apply NoDup_app in Hnd as (H1 & _ & H2).
  constructor; [exact H1|exact (IH H2)].
Qed.

Lemma strip_functions_spec all_meta fs : forall done AAW,
  Forall (fun f => NoDup (i_addr <$> function_insts f)) fs ->
  foldl (fun acc f =>
           let '(done, AAW) := acc in
           let '(f', AAW) := strip_function all_meta AAW f in
           (done ++ [f'], AAW))
        (done, AAW) fs =
  (done ++ ((fun f => mkFunction (f_addr f) None (f_metadata f)
                        ((fun bb => strip_inst all_meta <$> kept bb) <$> f_blocks f)) <$> fs),
   record_functions fs <$> AAW).
Proof.
  induction fs as [|f fs IH]; intros done AAW Hnd.
  - cbn. rewrite app_nil_r. destruct AAW; reflexivity.
  - apply Forall_cons in Hnd as [Hf Hnd]. cbn [foldl].
    rewrite (strip_function_spec all_meta AAW f Hf), (IH _ _ Hnd).
    rewrite <- app_assoc. f_equal. destruct AAW; reflexivity.
Qed.

Lemma jl_strip_llvm_debug_spec m all_meta AAW :
  NoDup (i_addr <$> all_insts m) ->
  jl_strip_llvm_debug m all_meta AAW =
    (mkModule
       ((fun f => mkFunction (f_addr f) None (if all_meta then [] else f_metadata f)
                    ((fun bb => strip_inst all_meta <$> kept bb) <$> f_blocks f))
          <$> functions m)
       (if all_meta then (fun _ => []) <$> global_metadata m else global_metadata m)
       (filter (fun name => name <> "llvm.dbg.cu") (named_metadata m)),
     record_functions (functions m) <$> AAW).
Proof.
  intros Hnd. unfold jl_strip_llvm_debug.
  rewrite strip_functions_spec by (apply NoDup_all_insts; exact Hnd).
  cbn [app]. destruct all_meta; [|reflexivity].
  rewrite <- list_fmap_compose. reflexivity.
Qed.

(** X19.  After [jl_strip_llvm_debug] every function is stripped: it has no
    subprogram, its debug intrinsics are erased (also one that ends a block,
    which is deleted after the loop), and the other instructions are left in
    their order, each without debug location and, with [all_meta], without
    metadata.  The named metadata llvm.dbg.cu is gone and the others are kept;
    the metadata of the global objects is cleared exactly with [all_meta].
    The instructions of the module have distinct addresses. *)
Theorem jl_strip_llvm_debug_result (m : IRModule) (all_meta : bool)
    (AAW : option LineNumberAnnotatedWriter) :
  NoDup (i_addr <$> all_insts m) ->
  let m' := (jl_strip_llvm_debug m all_meta AAW).1 in
  Forall2 (stripped_function all_meta) (functions m) (functions m') /\
  Forall (stripped_inst all_meta) (all_insts m') /\
  i_addr <$> all_insts m' = i_addr <$> kept (all_insts m) /\
  ("llvm.dbg.cu" ∉ named_metadata m') /\
  (forall name, name <> "llvm.dbg.cu" -> name ∈ named_metadata m -> name ∈ named_metadata m') /\
  (all_meta = true -> Forall (fun md => md = []) (global_metadata m')) /\
  (all_meta = false -> global_metadata m' = global_metadata m).
Proof.
  intros Hnd m'. subst m'. rewrite (jl_strip_llvm_debug_spec m all_meta AAW Hnd).
  cbn [fst functions named_metadata global_metadata]. clear Hnd.
  split; [|split; [|split; [|split; [|split; [|split]]]]].
  - apply Forall2_fmap_r, Forall_Forall2_diag, Forall_forall. intros f _.
    repeat split.
  - unfold all_insts. cbn [functions]. rewrite <- list_fmap_compose.
    apply Forall_concat, Forall_fmap, Forall_forall. intros f _. cbn.
    unfold function_insts. cbn [f_blocks].
    apply Forall_concat, Forall_fmap, Forall_forall. intros bb _. cbn.
    apply Forall_fmap, Forall_forall. intros i Hi.
    apply list_elem_of_filter in Hi as [Hk _]. repeat split; cbn.
    + exact Hk.
    + now intros ->.
  - unfold all_insts. cbn [functions]. rewrite <- list_fmap_compose.
    induction (functions m) as [|f fs IH]; [reflexivity|].
    cbn [fmap list_fmap concat]. unfold kept in *.
    rewrite !fmap_app, filter_app, fmap_app. rewrite <- IH. f_equal.
    cbn. unfold function_insts. cbn [f_blocks].
    induction (f_blocks f) as [|bb bbs IHb]; [reflexivity|].
    cbn [fmap list_fmap concat]. rewrite !fmap_app, filter_app, fmap_app, <- IHb.
    f_equal. rewrite <- list_fmap_compose. reflexivity.
  - intros Hin. apply list_elem_of_filter in Hin as [Hne _]. now apply Hne.
  - intros name Hne Hin. apply list_elem_of_filter. split; assumption.
  - intros ->. apply Forall_fmap, Forall_forall. intros md _. reflexivity.
  - now intros ->.
Qed.

Lemma NoDup_kept_addrs l : NoDup (i_addr <$> l) -> NoDup (i_addr <$> kept l).
Proof.
  induction l as [|i l IH]; intros Hnd; [constructor|].
  cbn in Hnd. apply NoDup_cons in Hnd as [Hi Hnd]. unfold kept in *.
  destruct (decide (isDbgIntrinsic i = false)) as [Hk|Hk].
  - rewrite filter_cons_True by exact Hk. cbn. apply NoDup_cons. split; [|exact (IH Hnd)].
    intros Hin. apply Hi, kept_addrs_subset. exact Hin.
  - rewrite filter_cons_False by exact Hk. exact (IH Hnd).
Qed.

Lemma foldl_insert_lookup {A V : Type} (key : A -> Z) (val : A -> V) (l : list A) :
  forall (M : gmap Z V) (x : A),
    NoDup (key <$> l) -> x ∈ l ->
    foldl (fun M i => <[key i := val i]> M) M l !! key x = Some (val x).
Proof.
  induction l as [|y l IH] using rev_ind; intros M x Hnd Hin.
  - inversion Hin.
  - rewrite foldl_app. cbn [foldl]. rewrite fmap_app in Hnd.
    apply NoDup_app in Hnd as (Hl & Hdis & _).
    apply elem_of_app in Hin as [Hin|Hin].
    + rewrite lookup_insert_ne; [exact (IH M x Hl Hin)|].
      intros E. apply (Hdis (key x)).
      * apply list_elem_of_fmap. exists x. auto.
      * rewrite <- E. cbn. left.
    + apply list_elem_of_singleton in Hin as ->. apply lookup_insert_eq.
Qed.

Lemma record_locs_fields l : forall w,
  InstrLoc (record_locs l w) = InstrLoc w /\
  LinePrinter (record_locs l w) = LinePrinter w /\
  Subprogram (record_locs l w) = Subprogram w /\
  DebugLoc (record_locs l w) =
    foldl (fun M i => <[i_addr i := getDebugLoc i]> M) (DebugLoc w) (kept l).
Proof.
  unfold record_locs. induction (kept l) as [|i k IH]; intros w; [auto|].
  cbn [foldl]. destruct (IH (addDebugLoc (i_addr i) (getDebugLoc i) w)) as (A & B & C & D).
  rewrite A, B, C, D. auto.
Qed.

Lemma record_functions_fields fs : forall w,
  InstrLoc (record_functions fs w) = InstrLoc w /\
  LinePrinter (record_functions fs w) = LinePrinter w /\
  Subprogram (record_functions fs w) =
    foldl (fun M f => <[f_addr f := getSubprogram f]> M) (Subprogram w) fs /\
  DebugLoc (record_functions fs w) =
    foldl (fun M i => <[i_addr i := getDebugLoc i]> M) (DebugLoc w)
          (kept (concat (function_insts <$> fs))).
Proof.
  unfold record_functions. induction fs as [|f fs IH]; intros w; [auto|].
  cbn [foldl fmap list_fmap concat].
  destruct (IH (record_function f w)) as (A & B & C & D). rewrite A, B, C, D.
  unfold record_function.
  destruct (record_locs_fields (function_insts f)
              (addSubprogram (f_addr f) (getSubprogram f) w)) as (A' & B' & C' & D').
  rewrite A', B', C', D'. cbn [InstrLoc LinePrinter Subprogram DebugLoc addSubprogram].
  repeat split. unfold kept. now rewrite filter_app, foldl_app.
Qed.

Section WriterFacts.

Variable BadString : string.

(** X20.  Stripping keeps the annotations: with the writer that
    [jl_strip_llvm_debug] has fed, a stripped function and a stripped
    instruction are annotated as the original ones are (the same text and the
    same writer afterwards), in whatever state of printing the writer is.
    Stripping leaves the printer and the last location of the writer as they
    are. *)
Theorem strip_keeps_annotations (m : IRModule) (all_meta : bool)
    (AAW : LineNumberAnnotatedWriter) :
  NoDup (i_addr <$> all_insts m) -> NoDup (f_addr <$> functions m) ->
  exists AAW',
    (jl_strip_llvm_debug m all_meta (Some AAW)).2 = Some AAW' /\
    InstrLoc AAW' = InstrLoc AAW /\ LinePrinter AAW' = LinePrinter AAW /\
    forall w, DebugLoc w = DebugLoc AAW' -> Subprogram w = Subprogram AAW' ->
      (forall f f', f ∈ functions m -> stripped_function all_meta f f' ->
         emitFunctionAnnot w f' = emitFunctionAnnot w f) /\
      (forall i, i ∈ kept (all_insts m) ->
         emitInstructionAnnot BadString w (strip_inst all_meta i) =
         emitInstructionAnnot BadString w i).
Proof.
  intros Hi Hf. exists (record_functions (functions m) AAW).
  rewrite (jl_strip_llvm_debug_spec m all_meta (Some AAW) Hi).
  destruct (record_functions_fields (functions m) AAW) as (A & B & C & D).
  split; [reflexivity|]. split; [exact A|]. split; [exact B|].
  intros w HD HS. split.
  - intros f f' Hin (Ha & Hs & _ & _). unfold emitFunctionAnnot.
    rewrite Hs, Ha, HS, C.
    rewrite (foldl_insert_lookup f_addr getSubprogram (functions m) _ f Hf Hin).
    destruct (getSubprogram f); reflexivity.
  - intros i Hin. unfold emitInstructionAnnot. cbn [strip_inst getDebugLoc i_addr].
    rewrite HD, D.
    rewrite (foldl_insert_lookup i_addr getDebugLoc (kept (all_insts m)) _ i
               (NoDup_kept_addrs _ Hi) Hin).
    destruct (getDebugLoc i); reflexivity.
Qed.

(** The state of a writer between calls. *)
Lemma writer_inv_step (w : LineNumberAnnotatedWriter) (c : WriterCall) :
  (depth_inv (LinePrinter w) /\
   forall l, InstrLoc w = Some l ->
     emit_lineinfo (LinePrinter w) (DIvec_of BadString l) = (LinePrinter w, [])) ->
  let w' := (call_writer BadString w c).1 in
  depth_inv (LinePrinter w') /\
  forall l, InstrLoc w' = Some l ->
    emit_lineinfo (LinePrinter w') (DIvec_of BadString l) = (LinePrinter w', []).
Proof.
  intros [Hd Hc] w'. subst w'.
  assert (Hend : let w' := (emitEnd w).1 in
                 depth_inv (LinePrinter w') /\
                 forall l, InstrLoc w' = Some l ->
                   emit_lineinfo (LinePrinter w') (DIvec_of BadString l) = (LinePrinter w', [])).
  { unfold emitEnd. pose proof (emit_finish_inv _ Hd) as H.
    destruct (emit_finish (LinePrinter w)) as [p out]. cbn in *. split; [exact H|discriminate]. }
  destruct c as [F|inst|is_back| |F SP|inst Loc]; cbn [call_writer].
  - unfold emitFunctionAnnot.
    destruct (match getSubprogram F with Some SP => Some SP | None => _ end) as [FuncLoc|].
    + pose proof (emit_lineinfo_inv _ [mkDI (sp_getFilename FuncLoc) (sp_getName FuncLoc)
                                         (sp_getLine FuncLoc)] Hd) as H.
      destruct (emit_lineinfo _ _) as [p out]. cbn in *. split; [exact H|discriminate].
    + cbn. split; [exact Hd|discriminate].
  - unfold emitInstructionAnnot.
    set (NewInstrLoc := match getDebugLoc inst with Some loc => Some loc | None => _ end).
    assert (H : let w' := (emitInstructionAnnot_loc BadString w NewInstrLoc).1 in
                depth_inv (LinePrinter w') /\
                forall l, InstrLoc w' = Some l ->
                  emit_lineinfo (LinePrinter w') (DIvec_of BadString l) = (LinePrinter w', [])).
    { unfold emitInstructionAnnot_loc. destruct NewInstrLoc as [loc|]; [|cbn; auto].
      destruct (decide _) as [_|_]; [|cbn; auto].
      pose proof (emit_lineinfo_inv _ (DIvec_of BadString loc) Hd) as H1.
      pose proof (emit_lineinfo_twice _ (DIvec_of BadString loc) Hd) as H2.
      destruct (emit_lineinfo (LinePrinter w) (DIvec_of BadString loc)) as [p out].
      cbn in *. split; [exact H1|]. intros l [= <-]. exact H2. }
    destruct (emitInstructionAnnot_loc BadString w NewInstrLoc) as [w1 out]. exact H.
  - unfold emitBasicBlockEndAnnot. destruct is_back; [exact Hend|cbn; auto].
  - exact Hend.
  - cbn. auto.
  - cbn. auto.
Qed.

Lemma writer_inv_run (calls : list WriterCall) : forall w,
  (depth_inv (LinePrinter w) /\
   forall l, InstrLoc w = Some l ->
     emit_lineinfo (LinePrinter w) (DIvec_of BadString l) = (LinePrinter w, [])) ->
  let w' := (run_writer BadString w calls).1 in
  depth_inv (LinePrinter w') /\
  forall l, InstrLoc w' = Some l ->
    emit_lineinfo (LinePrinter w') (DIvec_of BadString l) = (LinePrinter w', []).
Proof.
  induction calls as [|c calls IH]; intros w Hw; [exact Hw|].
  cbn [run_writer]. pose proof (writer_inv_step w c Hw) as H1.
  destruct (call_writer BadString w c) as [w1 out1]. specialize (IH w1 H1).
  destruct (run_writer BadString w1 calls) as [w2 out2]. exact IH.
Qed.

(** X21.  The location a writer skips, because it is the one [InstrLoc] holds,
    would print nothing: in every state a writer reaches,
    [emitInstructionAnnot] writes no line info for it, and [emit_lineinfo] on
    its stack writes nothing and leaves the printer as it is. *)
Theorem skipped_location_is_silent (ls : string) (bo : bool)
    (debuginfo : string) (calls : list WriterCall) (l : DILocation) :
  let w := (run_writer BadString (new_writer ls bo debuginfo) calls).1 in
  InstrLoc w = Some l ->
  emitInstructionAnnot_loc BadString w (Some l) = (w, []) /\
  emit_lineinfo (LinePrinter w) (DIvec_of BadString l) = (LinePrinter w, []).
Proof.
  intros w Hl. split.
  - unfold emitInstructionAnnot_loc. rewrite Hl. cbn [fmap option_fmap option_map].
    rewrite decide_False; [reflexivity|]. intros H. now apply H.
  - assert (H : depth_inv (LinePrinter w) /\
                forall l, InstrLoc w = Some l ->
                  emit_lineinfo (LinePrinter w) (DIvec_of BadString l) = (LinePrinter w, [])).
    { apply writer_inv_run. cbn. split; [apply depth_inv_new|discriminate]. }
    exact (proj2 H l Hl).
Qed.

End WriterFacts.

Lemma demo_module_NoDup : NoDup (i_addr <$> all_insts demo_module).
Proof. apply (bool_decide_unpack _). vm_compute. exact I. Qed.

Lemma jl_strip_llvm_debug_result_witness :
  i_addr <$> all_insts (jl_strip_llvm_debug demo_module true None).1 = [10; 13] /\
  Forall (stripped_inst true) (all_insts (jl_strip_llvm_debug demo_module true None).1).
Proof.
  destruct (jl_strip_llvm_debug_result demo_module true None demo_module_NoDup)
    as (_ & H & E & _).
  split; [rewrite E; reflexivity|exact H].
Defined.

Lemma strip_keeps_annotations_witness :
  exists AAW',
    (jl_strip_llvm_debug demo_module true (Some (new_writer "; " false "source"))).2 = Some AAW' /\
    emitInstructionAnnot "<invalid>" AAW' (mkInstr 10 false [] None) =
    emitInstructionAnnot "<invalid>" AAW' (mkInstr 10 false [(1, 2)] (Some demo_loc)).
Proof.
  destruct (strip_keeps_annotations "<invalid>" demo_module true
              (new_writer "; " false "source") demo_module_NoDup) as (AAW' & E & _ & _ & H).
  - apply (bool_decide_unpack _). vm_compute. exact I.
  - exists AAW'. split; [exact E|].
    destruct (H AAW' eq_refl eq_refl) as [_ Hi].
    apply (Hi (mkInstr 10 false [(1, 2)] (Some demo_loc))).
    apply list_elem_of_filter. split; [reflexivity|]. apply list_elem_of_here.
Defined.

Lemma skipped_location_is_silent_witness :
  emitInstructionAnnot_loc "<invalid>"
    (run_writer "<invalid>" (new_writer "; " false "source")
       [CallInstructionAnnot (mkInstr 10 false [] (Some demo_loc))]).1 (Some demo_loc) =
  ((run_writer "<invalid>" (new_writer "; " false "source")
       [CallInstructionAnnot (mkInstr 10 false [] (Some demo_loc))]).1, []).
Proof.
  apply (skipped_location_is_silent "<invalid>" "; " false "source"
           [CallInstructionAnnot (mkInstr 10 false [] (Some demo_loc))] demo_loc).
  vm_compute. reflexivity.
Defined.

(** ** [runJuliaLICM] *)

Section LICMFacts.

Variable properlyDominates : Z -> Z -> bool.
Variables (gc_preserve_begin_func gc_preserve_end_func : option Z).
Variable L : Loop.

#[local] Abbreviation visit_call :=
  (visit_call properlyDominates gc_preserve_begin_func gc_preserve_end_func L).
#[local] Abbreviation visit :=
  (visit properlyDominates gc_preserve_begin_func gc_preserve_end_func L).
#[local] Abbreviation edits_of_calls :=
  (edits_of_calls gc_preserve_begin_func gc_preserve_end_func L).

Lemma foldl_visit_concat (blocks : list (list Instr)) : forall st,
  foldl (fun st bb => foldl visit st bb) st blocks = foldl visit st (concat blocks).
Proof.
  induction blocks as [|bb blocks IH]; intros st; [reflexivity|].
  cbn [foldl concat]. now rewrite foldl_app, IH.
Qed.

Lemma clones_edits call others : forall st,
  let st' := foldl (fun st pt => clone call pt st) st others in
  getParent st' = getParent st /\ changed st' = changed st /\
  edits st' = edits st ++ (Clone call <$> others).
Proof.
  induction others as [|pt others IH]; intros st; cbn [foldl fmap list_fmap].
  - now rewrite app_nil_r.
  - destruct (IH (clone call pt st)) as (A & B & C). rewrite A, B, C. cbn.
    now rewrite <- app_assoc.
Qed.

Lemma sink_edits_nonempty call : sink_edits L call <> [].
Proof. unfold sink_edits. destruct (exit_pts L); discriminate. Qed.

(** One call: the result, the changes it adds and what it leaves as it is. *)
Lemma visit_call_spec (call : CallInst) (st : State) :
  (Some (getCalledOperand call) = gc_preserve_end_func ->
   exists begin rest, arg_operands call = VInstruction begin :: rest) ->
  exists st' es1,
    visit_call call st = Some st' /\ edits st' = edits st ++ es1 /\
    (forall a, a <> call_addr call -> getParent st' a = getParent st a) /\
    (es1 = [] /\ changed st' = changed st \/ es1 <> [] /\ changed st' = true) /\
    (es1 = [] \/
     (Some (getCalledOperand call) = gc_preserve_begin_func /\
      es1 = [MoveBefore (call_addr call) (preheader_getTerminator L)]) \/
     (Some (getCalledOperand call) <> gc_preserve_begin_func /\
      Some (getCalledOperand call) = gc_preserve_end_func /\
      es1 = sink_edits L (call_addr call))).
Proof.
  intros Hwf. unfold JuliaLICM.visit_call.
  destruct (decide (Some (getCalledOperand call) = gc_preserve_begin_func)) as [Hb|Hb].
  - destruct (canhoist properlyDominates L call st).
    + eexists _, [MoveBefore (call_addr call) (preheader_getTerminator L)].
      split; [reflexivity|]. split; [reflexivity|]. split.
      { intros a Ha. cbn. now rewrite decide_False. }
      split; [right; split; [discriminate|reflexivity]|]. right. left. auto.
    + exists st, []. rewrite app_nil_r. repeat split; auto.
  - destruct (decide (Some (getCalledOperand call) = gc_preserve_end_func)) as [He|He].
    + destruct (Hwf He) as (begin & rest & ->).
      destruct (properlyDominates (getParent st begin) (getHeader L)).
      * exists (match exit_pts L with
                | [] => JuliaLICM.eraseFromParent (call_addr call) (set_changed st)
                | first :: others =>
                    foldl (fun st pt => clone (call_addr call) pt st)
                          (moveBefore (call_addr call) first (set_changed st)) others
                end), (sink_edits L (call_addr call)).
        unfold sink_edits. destruct (exit_pts L) as [|first others].
        -- split; [reflexivity|]. split; [reflexivity|]. split; [reflexivity|].
           split; [right; split; [discriminate|reflexivity]|]. right. right. auto.
        -- destruct (clones_edits (call_addr call) others
                       (moveBefore (call_addr call) first (set_changed st))) as (A & B & C).
           split; [reflexivity|]. rewrite A, B, C. cbn. rewrite <- app_assoc.
           split; [reflexivity|]. split.
           { intros a Ha. now rewrite decide_False. }
           split; [right; split; [discriminate|reflexivity]|]. right. right. auto.
      * exists st, []. rewrite app_nil_r. repeat split; auto.
    + exists st, []. rewrite app_nil_r. repeat split; auto.
Qed.

Lemma ends_have_begin_cons call calls :
  ends_have_begin gc_preserve_end_func (call :: calls) ->
  (Some (getCalledOperand call) = gc_preserve_end_func ->
   exists begin rest, arg_operands call = VInstruction begin :: rest) /\
  ends_have_begin gc_preserve_end_func calls.
Proof.
  intros H. split.
  - apply H. left.
  - intros c Hc. apply H. now right.
Qed.

(** A run of the scan. *)
Lemma scan_spec (instrs : list Instr) : forall st,
  ends_have_begin gc_preserve_end_func (calls_of instrs) ->
  exists st' es,
    foldl visit (Some st) instrs = Some st' /\ edits st' = edits st ++ es /\
    edits_of_calls (calls_of instrs) es /\
    (forall a, a ∉ call_addr <$> calls_of instrs -> getParent st' a = getParent st a) /\
    (es = [] /\ changed st' = changed st \/ es <> [] /\ changed st' = true).
Proof.
  induction instrs as [|II instrs IH]; intros st Hwf.
  - exists st, []. rewrite app_nil_r. cbn. repeat split; auto.
  - destruct II as [call|addr].
    + cbn [calls_of omap list_omap] in Hwf |- *. fold (calls_of instrs) in Hwf |- *.
      apply ends_have_begin_cons in Hwf as [Hc Hwf].
      destruct (visit_call_spec call st Hc) as (st1 & es1 & Hv & He & Hp & Hch & Hform).
      cbn [foldl JuliaLICM.visit]. rewrite Hv.
      destruct (IH st1 Hwf) as (st' & es2 & Hf & He2 & Hec & Hp2 & Hch2).
      exists st', (es1 ++ es2). split; [exact Hf|]. split.
      { rewrite He2, He. now rewrite app_assoc. }
      split; [exists es1, es2; auto|]. split.
      { intros a Ha. cbn in Ha. apply not_elem_of_cons in Ha as [Hne Ha].
        rewrite (Hp2 a Ha). apply Hp. exact Hne. }
      destruct Hch as [[-> Hc1]|[Hn1 Hc1]].
      * cbn [app]. destruct Hch2 as [[-> Hc2]|[Hn2 Hc2]].
        -- left. split; [reflexivity|congruence].
        -- right. auto.
      * right. split.
        -- destruct es1; [contradiction|discriminate].
        -- destruct Hch2 as [[_ Hc2]|[_ Hc2]]; congruence.
    + cbn [calls_of omap list_omap foldl JuliaLICM.visit]. fold (calls_of instrs).
      exact (IH st Hwf).
Qed.

Lemma edits_of_calls_no_change (calls : list CallInst) : edits_of_calls calls [].
Proof.
  induction calls as [|call calls IH]; [reflexivity|].
  exists [], []. auto.
Qed.

End LICMFacts.

(** X22.  [runJuliaLICM] reports a change exactly when it makes one.  Its
    changes are, call by call in the order of the scan, the move of a
    [gc_preserve_begin] before the terminator of the preheader, or the sinking
    of a [gc_preserve_end]: moved to the first exit point and cloned at the
    others, erased when the loop has no exit.  No other instruction changes
    its block, and without a preheader or without [gc_preserve_begin] nothing
    is changed.  Every [gc_preserve_end] of the loop has an instruction as its
    first operand. *)
Theorem runJuliaLICM_reports_changes (properlyDominates : Z -> Z -> bool)
    (gc_preserve_begin_func gc_preserve_end_func : option Z) (L : Loop)
    (getParent0 : Z -> Z) :
  ends_have_begin gc_preserve_end_func (loop_calls L) ->
  exists changed st,
    runJuliaLICM properlyDominates gc_preserve_begin_func gc_preserve_end_func L getParent0 =
      Some (changed, st) /\
    (changed = false <-> edits st = []) /\
    edits_of_calls gc_preserve_begin_func gc_preserve_end_func L (loop_calls L) (edits st) /\
    (forall a, a ∉ call_addr <$> loop_calls L -> getParent st a = getParent0 a) /\
    (getLoopPreheader L = None \/ gc_preserve_begin_func = None -> changed = false).
Proof.
  intros Hwf. unfold runJuliaLICM.
  destruct (getLoopPreheader L) as [preheader|].
  - destruct gc_preserve_begin_func as [bf|].
    + rewrite foldl_visit_concat.
      destruct (scan_spec properlyDominates (Some bf) gc_preserve_end_func L
                  (concat (worklist L)) (mkState getParent0 [] false) Hwf)
        as (st' & es & Hf & He & Hec & Hp & Hch).
      rewrite Hf. cbn [edits app changed] in He, Hch. exists (changed st'), st'.
      split; [reflexivity|]. rewrite He. split.
      { destruct Hch as [[-> ->]|[Hn ->]]; [tauto|]. split; [discriminate|contradiction]. }
      split; [exact Hec|]. split; [exact Hp|]. intros [H|H]; discriminate H.
    + exists false, (mkState getParent0 [] false). cbn.
      split; [reflexivity|]. split; [tauto|]. split; [apply edits_of_calls_no_change|].
      split; auto.
  - exists false, (mkState getParent0 [] false). cbn.
    split; [reflexivity|]. split; [tauto|]. split; [apply edits_of_calls_no_change|].
    split; auto.
Qed.

Lemma calls_of_app l1 l2 : calls_of (l1 ++ l2) = calls_of l1 ++ calls_of l2.
Proof.
  unfold calls_of. induction l1 as [|II l1 IH]; [reflexivity|].
  cbn. rewrite IH. destruct II; reflexivity.
Qed.

Lemma ends_have_begin_app ef A B :
  ends_have_begin ef (A ++ B) -> ends_have_begin ef A /\ ends_have_begin ef B.
Proof.
  intros H. split; intros c Hc; apply H; apply elem_of_app; auto.
Qed.

Lemma visit_call_begin properlyDominates bf ef L (b : CallInst) (st : State) :
  getCalledOperand b = bf ->
  (forall o, VInstruction o ∈ arg_operands b ->
     properlyDominates (getParent st o) (getHeader L) = true) ->
  visit_call properlyDominates (Some bf) ef L b st =
    Some (set_changed (moveBefore (call_addr b) (preheader_getTerminator L) st)).
Proof.
  intros Hb Hops. unfold visit_call. rewrite decide_True by congruence.
  replace (canhoist properlyDominates L b st) with true; [reflexivity|].
  symmetry. unfold canhoist. apply forallb_forall. intros U HU.
  destruct U as [o|]; [|reflexivity]. apply Hops, list_elem_of_In, HU.
Qed.

Lemma visit_call_end properlyDominates bf ef L (e : CallInst) (st : State) begin rest :
  bf <> ef -> getCalledOperand e = ef ->
  arg_operands e = VInstruction begin :: rest ->
  properlyDominates (getParent st begin) (getHeader L) = true ->
  exists st', visit_call properlyDominates (Some bf) (Some ef) L e st = Some st' /\
              edits st' = edits st ++ sink_edits L (call_addr e) /\ changed st' = true.
Proof.
  intros Hne He Harg Hdom. unfold visit_call.
  rewrite decide_False by congruence. rewrite decide_True by congruence.
  rewrite Harg, Hdom. unfold sink_edits. destruct (exit_pts L) as [|first others].
  - eexists. split; [reflexivity|]. split; reflexivity.
  - destruct (clones_edits (call_addr e) others
                (moveBefore (call_addr e) first (set_changed st))) as (A & B & C).
    eexists. split; [reflexivity|]. rewrite B, C. cbn. rewrite <- app_assoc.
    split; reflexivity.
Qed.

(** X23.  A [gc_preserve_begin] whose operands are made outside the loop, in
    blocks that properly dominate the header, is hoisted, and a
    [gc_preserve_end] of it that the scan meets later is sunk in the same run,
    although the begin was inside the loop at the start: the scan reads the
    block of the begin after the move. *)
Theorem hoisted_begin_lets_end_sink (properlyDominates : Z -> Z -> bool) (bf ef : Z)
    (L : Loop) (getParent0 : Z -> Z) (preheader : Z)
    (l1 l2 l3 : list Instr) (b e : CallInst) (rest : list Value) :
  getLoopPreheader L = Some preheader -> bf <> ef ->
  ends_have_begin (Some ef) (loop_calls L) ->
  concat (worklist L) = l1 ++ ICall b :: l2 ++ ICall e :: l3 ->
  getCalledOperand b = bf -> getCalledOperand e = ef ->
  arg_operands e = VInstruction (call_addr b) :: rest ->
  (forall o, VInstruction o ∈ arg_operands b ->
     (o ∉ call_addr <$> calls_of l1) /\
     properlyDominates (getParent0 o) (getHeader L) = true) ->
  preheader_getTerminator L ∉ call_addr <$> calls_of l1 ->
  properlyDominates (getParent0 (preheader_getTerminator L)) (getHeader L) = true ->
  call_addr b ∉ call_addr <$> calls_of l2 ->
  exists st E1 E2 E3,
    runJuliaLICM properlyDominates (Some bf) (Some ef) L getParent0 = Some (true, st) /\
    edits st = E1 ++ [MoveBefore (call_addr b) (preheader_getTerminator L)] ++ E2 ++
               sink_edits L (call_addr e) ++ E3.
Proof.
  intros Hpre Hne Hwf Hsplit Hb He Harg Hops Hterm Hdom Hb2.
  unfold runJuliaLICM. rewrite Hpre, foldl_visit_concat.
  unfold loop_calls in Hwf. rewrite Hsplit in Hwf |- *.
  rewrite calls_of_app in Hwf. apply ends_have_begin_app in Hwf as [Hwf1 Hwf].
  change (ICall b :: l2 ++ ICall e :: l3) with ([ICall b] ++ l2 ++ ICall e :: l3) in Hwf.
  rewrite calls_of_app in Hwf. apply ends_have_begin_app in Hwf as [_ Hwf].
  rewrite calls_of_app in Hwf. apply ends_have_begin_app in Hwf as [Hwf2 Hwf].
  change (ICall e :: l3) with ([ICall e] ++ l3) in Hwf.
  rewrite calls_of_app in Hwf. apply ends_have_begin_app in Hwf as [_ Hwf3].
  set (st0 := mkState getParent0 [] false).
  destruct (scan_spec properlyDominates (Some bf) (Some ef) L l1 st0 Hwf1)
    as (st1 & es1 & Hf1 & He1 & _ & Hp1 & _).
  rewrite foldl_app, Hf1. cbn [foldl visit].
  rewrite (visit_call_begin properlyDominates bf (Some ef) L b st1 Hb).
  2:{ intros o Ho. destruct (Hops o Ho) as [Hn Hd]. rewrite (Hp1 o Hn). exact Hd. }
  set (st2 := set_changed (moveBefore (call_addr b) (preheader_getTerminator L) st1)).
  destruct (scan_spec properlyDominates (Some bf) (Some ef) L l2 st2 Hwf2)
    as (st3 & es2 & Hf2 & He2 & _ & Hp2 & _).
  rewrite foldl_app, Hf2. cbn [foldl visit].
  assert (Hpb : properlyDominates (getParent st3 (call_addr b)) (getHeader L) = true).
  { rewrite (Hp2 _ Hb2). cbn. rewrite decide_True by reflexivity.
    rewrite (Hp1 _ Hterm). exact Hdom. }
  destruct (visit_call_end properlyDominates bf ef L e st3 (call_addr b) rest
              Hne He Harg Hpb) as (st4 & Hv4 & He4 & Hc4).
  rewrite Hv4.
  destruct (scan_spec properlyDominates (Some bf) (Some ef) L l3 st4 Hwf3)
    as (st5 & es3 & Hf3 & He3 & _ & _ & Hch3).
  rewrite Hf3. exists st5, es1, es2, es3.
  split.
  - f_equal. f_equal. destruct Hch3 as [[_ Hc]|[_ Hc]]; congruence.
  - rewrite He3, He4, He2. cbn [edits st2 set_changed moveBefore]. rewrite He1.
    cbn [edits st0 app]. rewrite <- !app_assoc. reflexivity.
Qed.

Lemma demo_loop_ends_have_begin : ends_have_begin (Some 901) (loop_calls demo_loop).
Proof.
  intros call Hin _. cbn in Hin.
  apply elem_of_cons in Hin as [->|Hin]; [eexists _, _; reflexivity|].
  apply list_elem_of_singleton in Hin as ->. eexists _, _; reflexivity.
Qed.

Lemma runJuliaLICM_reports_changes_witness :
  exists st,
    runJuliaLICM demo_dominates (Some 900) (Some 901) demo_loop demo_parent = Some (true, st) /\
    edits st <> [].
Proof.
  destruct (runJuliaLICM_reports_changes demo_dominates (Some 900) (Some 901) demo_loop
              demo_parent demo_loop_ends_have_begin) as (c & st & Hr & Hc & _).
  destruct c.
  - exists st. split; [exact Hr|]. intros He. apply Hc in He. discriminate He.
  - vm_compute in Hr. discriminate Hr.
Defined.

Lemma hoisted_begin_lets_end_sink_witness :
  exists st E1 E2 E3,
    runJuliaLICM demo_dominates (Some 900) (Some 901) demo_loop demo_parent = Some (true, st) /\
    edits st = E1 ++ [MoveBefore 21 19] ++ E2 ++ [MoveBefore 31 41; Clone 31 51] ++ E3.
Proof.
  apply (hoisted_begin_lets_end_sink demo_dominates 900 901 demo_loop demo_parent 1
           [IOther 20] [IOther 22] [IOther 32]
           (mkCall 21 900 [VInstruction 10; VOther]) (mkCall 31 901 [VInstruction 21]) []).
  - reflexivity.
  - discriminate.
  - exact demo_loop_ends_have_begin.
  - reflexivity.
  - reflexivity.
  - reflexivity.
  - reflexivity.
  - intros o Ho. cbn in Ho. apply elem_of_cons in Ho as [[= ->]|Ho].
    + split; [apply not_elem_of_nil|reflexivity].
    + apply list_elem_of_singleton in Ho. discriminate Ho.
  - apply not_elem_of_nil.
  - reflexivity.
  - apply not_elem_of_nil.
Defined.
